(** * balls: colliding bodies driving a chord synthesizer

    A shallow embedding of the collision kernel and body simulator
    ([balls9.py], [pend.py]) and of the music-theory and synthesis engines
    ([tune.py]), with the properties of the specification stated and
    settled against it, and further properties that the code itself shows.

    Python floats are modelled as exact rationals ([Q]): every theorem about
    arithmetic is a statement over exact rational arithmetic, as the
    specification's conservation laws are.  [math.pi] is the rational number
    that the IEEE double actually holds.  Where a property depends on the
    range of a double, the synthesis engine is modelled a second time
    ([tune.Ranged]) over floats that are finite, infinite or nan; there
    too, arithmetic within the range is exact.  A Python exception is a
    value of [exn]; a function that may raise returns [res A]. *)

From Stdlib Require Import QArith ZArith List String Ascii Bool Arith Lia.
From Stdlib Require Import Qround Qpower Qabs Sorted Permutation ListSet Lqa.
Import ListNotations.

Local Open Scope Q_scope.

(** ** Python runtime: exceptions, comparisons, [math] *)

Module Py.

Inductive exn : Type :=
| ZeroDivisionError
| IndexError
| KeyError
| TypeError
| ValueError
| OverflowError.

(** The outcome of a call: an exception raised, or a value returned. *)
Definition res (A : Type) : Type := (exn + A)%type.

Definition ret {A : Type} (a : A) : res A := inr a.
Definition raise {A : Type} (e : exn) : res A := inl e.

Definition bind {A B : Type} (r : res A) (k : A -> res B) : res B :=
  match r with
  | inl e => inl e
  | inr a => k a
  end.

(** [x < y] on floats. *)
Definition Qltb (x y : Q) : bool := negb (Qle_bool y x).

(** [x / y] on floats: raises on a zero divisor. *)
Definition fdiv (x y : Q) : res Q :=
  if Qeq_bool y 0 then raise ZeroDivisionError else ret (x / y).

(** [math.pi]: the double 0x400921FB54442D18, exactly. *)
Definition math_pi : Q := 884279719003555 # 281474976710656.

(** [int(x)]: truncation toward zero. *)
Definition int (x : Q) : Z := Z.quot (Qnum x) (Zpos (Qden x)).

(** [math.fmod(x, y)] for [y <> 0]: the remainder with the sign of [x]. *)
Definition math_fmod (x y : Q) : Q := x - y * inject_Z (int (x / y)).

(** [l[i]] for an index produced by [range]: raises past the end. *)
Definition getitem {A : Type} (l : list A) (i : nat) : res A :=
  match nth_error l i with
  | Some a => ret a
  | None => raise IndexError
  end.

(** The list [l] after [l[i] = x], when [i] is in range. *)
Fixpoint list_set {A : Type} (l : list A) (i : nat) (x : A) : list A :=
  match l, i with
  | [], _ => []
  | _ :: t, O => x :: t
  | h :: t, S i' => h :: list_set t i' x
  end.

(** [l[i] = x]: raises past the end. *)
Definition setitem {A : Type} (l : list A) (i : nat) (x : A) : res (list A) :=
  if (i <? List.length l)%nat then ret (list_set l i x) else raise IndexError.

(** [for a in l: s = body(a, s)], stopping at the first exception. *)
Fixpoint for_each {A S : Type} (l : list A) (body : A -> S -> res S) (s : S)
    : res S :=
  match l with
  | [] => ret s
  | a :: l' =>
      match body a s with
      | inl e => inl e
      | inr s' => for_each l' body s'
      end
  end.

(** [range(lo, hi)]. *)
Definition range (lo hi : nat) : list nat := seq lo (hi - lo).

(** [list.sort()]: a stable sort into ascending order. *)
Fixpoint insert {A : Type} (leb : A -> A -> bool) (x : A) (l : list A)
    : list A :=
  match l with
  | [] => [x]
  | y :: t => if leb x y then x :: y :: t else y :: insert leb x t
  end.

Fixpoint sort {A : Type} (leb : A -> A -> bool) (l : list A) : list A :=
  match l with
  | [] => []
  | x :: t => insert leb x (sort leb t)
  end.

(** [l[i]] for any integer [i]: a negative index counts from the end. *)
Definition getitem_int {A : Type} (l : list A) (i : Z) : res A :=
  let n := Z.of_nat (List.length l) in
  if (0 <=? i)%Z then getitem l (Z.to_nat i)
  else if (- n <=? i)%Z then getitem l (Z.to_nat (n + i))
  else raise IndexError.

(** [[f(a) for a in l]], stopping at the first exception. *)
Fixpoint map_res {A B : Type} (f : A -> res B) (l : list A) : res (list B) :=
  match l with
  | [] => ret []
  | a :: t =>
      match f a with
      | inl e => inl e
      | inr b =>
          match map_res f t with
          | inl e => inl e
          | inr bs => ret (b :: bs)
          end
      end
  end.

(** [l.index(x)] for a list of strings, when [x in l]. *)
Fixpoint index_of (x : string) (l : list string) : option nat :=
  match l with
  | [] => None
  | y :: t => if String.eqb x y then Some O
              else option_map S (index_of x t)
  end.

(** [c in s] for a one-character string [c]. *)
Fixpoint char_in (c : ascii) (s : string) : bool :=
  match s with
  | EmptyString => false
  | String d t => Ascii.eqb c d || char_in c t
  end.

Definition is_upper_char (c : ascii) : bool :=
  ((65 <=? nat_of_ascii c) && (nat_of_ascii c <=? 90))%nat.

Definition is_lower_char (c : ascii) : bool :=
  ((97 <=? nat_of_ascii c) && (nat_of_ascii c <=? 122))%nat.

Definition is_digit_char (c : ascii) : bool :=
  ((48 <=? nat_of_ascii c) && (nat_of_ascii c <=? 57))%nat.

(** [s.upper()] on ASCII text. *)
Fixpoint upper (s : string) : string :=
  match s with
  | EmptyString => EmptyString
  | String c t =>
      String (if is_lower_char c then ascii_of_nat (nat_of_ascii c - 32)
              else c) (upper t)
  end.

Fixpoint any_char (p : ascii -> bool) (s : string) : bool :=
  match s with
  | EmptyString => false
  | String c t => p c || any_char p t
  end.

(** [s.islower()]: some cased character, and no upper-case one. *)
Definition islower (s : string) : bool :=
  any_char is_lower_char s && negb (any_char is_upper_char s).

(** [s[-1]] and [s[:-1]] of a non-empty string. *)
Fixpoint last_char (s : string) : option ascii :=
  match s with
  | EmptyString => None
  | String c EmptyString => Some c
  | String _ t => last_char t
  end.

Fixpoint but_last (s : string) : string :=
  match s with
  | EmptyString => EmptyString
  | String _ EmptyString => EmptyString
  | String c t => String c (but_last t)
  end.

(** [abs(x)] on floats. *)
Definition fabs (x : Q) : Q := if Qltb x 0 then - x else x.

(** [s.replace(a, b)] for one-character strings [a] and [b]. *)
Fixpoint replace_char (a b : ascii) (s : string) : string :=
  match s with
  | EmptyString => EmptyString
  | String c t => String (if Ascii.eqb c a then b else c) (replace_char a b t)
  end.

(** [s.split(sep)] for a one-character separator: the pieces between the
    occurrences of [sep], empty ones included. *)
Fixpoint split (sep : ascii) (s : string) : list string :=
  match s with
  | EmptyString => [EmptyString]
  | String c t =>
      if Ascii.eqb c sep then EmptyString :: split sep t
      else match split sep t with
           | piece :: rest => String c piece :: rest
           | [] => [String c EmptyString]
           end
  end.

Definition hex_digit (d : nat) : ascii :=
  nth d ["0"; "1"; "2"; "3"; "4"; "5"; "6"; "7"; "8"; "9";
         "a"; "b"; "c"; "d"; "e"; "f"]%char "0"%char.

(** The hexadecimal digits of [n]; [fuel] bounds their number. *)
Fixpoint hex_nat (fuel n : nat) : string :=
  match fuel with
  | O => EmptyString
  | S fuel' =>
      if (n <? 16)%nat then String (hex_digit n) EmptyString
      else (hex_nat fuel' (n / 16) ++
            String (hex_digit (n mod 16)) EmptyString)%string
  end.

(** ['%x' % n] for an integer [n]. *)
Definition format_x (n : Z) : string :=
  if (n <? 0)%Z
  then String "-" (hex_nat (S (Z.to_nat (- n))) (Z.to_nat (- n)))
  else hex_nat (S (Z.to_nat n)) (Z.to_nat n).

Fixpoint spaces (n : nat) : string :=
  match n with
  | O => EmptyString
  | S n' => String " " (spaces n')
  end.

(** ['%2x' % n]: at least two characters, padded with spaces on the left. *)
Definition format_2x (n : Z) : string :=
  let digits := format_x n in
  (spaces (2 - String.length digits) ++ digits)%string.

(** The transcendental functions of [math] and the float power [pow], which
    have no rational model: the development holds for every choice of
    them. *)
Class Libm : Type := {
  math_sin : Q -> Q;
  math_exp : Q -> Q;
  float_pow : Q -> Q -> Q
}.

(** *** Floats with their range

    Where a property depends on the range of a double, a float is a finite
    value, an infinity or nan.  Arithmetic on finite values is exact, as it
    is everywhere in this development, except that a result which rounding
    would take beyond the largest double is an infinity; rounding within the
    range, underflow and the sign of zero are left out. *)

Inductive double : Type :=
| finite (q : Q)
| infinity (negative : bool)
| nan.

(** [sys.float_info.max], the largest double. *)
Definition max_double : Q := inject_Z (2 ^ 1024 - 2 ^ 971).

(** The largest double and half a unit in its last place: rounding to
    nearest takes a result of this magnitude or more to an infinity. *)
Definition overflow_bound : Q := inject_Z (2 ^ 1024 - 2 ^ 970).

(** The double that holds the exact result [q]. *)
Definition overflow (q : Q) : double :=
  if Qltb (Qabs q) overflow_bound then finite q else infinity (Qltb q 0).

(** [x + y]. *)
Definition dadd (x y : double) : double :=
  match x, y with
  | nan, _ | _, nan => nan
  | finite a, finite b => overflow (a + b)
  | infinity s, finite _ | finite _, infinity s => infinity s
  | infinity s, infinity t => if Bool.eqb s t then infinity s else nan
  end.

(** [x * y]. *)
Definition dmul (x y : double) : double :=
  match x, y with
  | nan, _ | _, nan => nan
  | finite a, finite b => overflow (a * b)
  | infinity s, finite b | finite b, infinity s =>
      if Qeq_bool b 0 then nan else infinity (xorb s (Qltb b 0))
  | infinity s, infinity t => infinity (xorb s t)
  end.

(** [x / y]: raises on a zero divisor, whatever [x] is. *)
Definition ddiv (x y : double) : res double :=
  match y with
  | finite b =>
      if Qeq_bool b 0 then raise ZeroDivisionError
      else ret match x with
               | finite a => overflow (a / b)
               | infinity s => infinity (xorb s (Qltb b 0))
               | nan => nan
               end
  | infinity _ => ret match x with finite _ => finite 0 | _ => nan end
  | nan => ret nan
  end.

(** [if x:] on a float: false for zero only. *)
Definition dbool (x : double) : bool :=
  match x with
  | finite q => negb (Qeq_bool q 0)
  | _ => true
  end.

(** [int(x)]: an infinity raises [OverflowError], nan [ValueError]. *)
Definition dint (x : double) : res Z :=
  match x with
  | finite q => ret (int q)
  | infinity _ => raise OverflowError
  | nan => raise ValueError
  end.

(** [math.fmod(x, y)]: a domain error when [x] is infinite or [y] is zero;
    [x] itself when only [y] is infinite. *)
Definition dfmod (x y : double) : res double :=
  match x, y with
  | nan, _ | _, nan => ret nan
  | infinity _, _ => raise ValueError
  | finite a, infinity _ => ret (finite a)
  | finite a, finite b =>
      if Qeq_bool b 0 then raise ValueError
      else ret (finite (math_fmod a b))
  end.

Section WithLibm.
Context {libm : Libm}.

(** [math.sin(x)]: a domain error on an infinity. *)
Definition dsin (x : double) : res double :=
  match x with
  | finite q => ret (finite (math_sin q))
  | infinity _ => raise ValueError
  | nan => ret nan
  end.

(** [math.exp(x)]: a range error when the result is too large. *)
Definition dexp (x : double) : res double :=
  match x with
  | finite q =>
      if Qltb (Qabs (math_exp q)) overflow_bound
      then ret (finite (math_exp q)) else raise OverflowError
  | infinity true => ret (finite 0)
  | infinity false => ret (infinity false)
  | nan => ret nan
  end.

End WithLibm.

End Py.

Declare Scope res_scope.
Delimit Scope res_scope with res.
Notation "x <- r ;; k" := (Py.bind r (fun x => k))
  (at level 61, r at next level, right associativity) : res_scope.

(** ** balls9.py *)

Module balls9.
Import Py.

(** [Elastic(m1, m2, v1, v2)], lines 35-41.  The division raises when the
    total mass is zero. *)
Definition Elastic (m1 m2 v1 v2 : Q) : res (Q * Q) :=
  (vp2 <- fdiv ((m2 * v2) + (m1 * ((2 * v1) - v2))) (m1 + m2) ;;
   let vp1 := vp2 + v2 - v1 in
   ret (vp1, vp2))%res.

(** The fields of [Ball] that the simulation reads and writes.  The colour
    weights, the radius and the canvas image only feed the display.
    [ball_ind] is [None] in the constructor and is set to the position of the
    ball in the list by [CreateBalls], line 294, before any tick runs; the
    record holds the value it has from then on. *)
Record Ball : Type := mkBall {
  angle : Q;
  v : Q;
  m : Q;
  ball_ind : nat
}.

(** [Ball.WillCollide], lines 127-146. *)
Definition WillCollide (self other : Ball) : bool :=
  let pi2 := 2 * math_pi in
  let piby2 := math_pi * (1 # 2) in
  let sa := if Qltb (angle self) 0 then pi2 + angle self else angle self in
  let oa := if Qltb (angle other) 0 then pi2 + angle other else angle other in
  let '(sa, oa) :=
    if Qltb sa piby2 && Qltb math_pi oa then (sa + pi2, oa)
    else if Qltb oa piby2 && Qltb math_pi sa then (sa, oa + pi2)
    else (sa, oa) in
  let t1 := sa - oa in
  let t2 := sa + v self - (oa + v other) in
  Qle_bool (t1 * t2) 0.

Definition set_v (b : Ball) (x : Q) : Ball :=
  mkBall (angle b) x (m b) (ball_ind b).

Definition set_angle (b : Ball) (x : Q) : Ball :=
  mkBall x (v b) (m b) (ball_ind b).

(** [Ball.UpdatePosition], line 113; the drawing is left out. *)
Definition UpdatePosition (b : Ball) : Ball :=
  set_angle b (math_fmod (angle b + v b) (2 * math_pi)).

(** [Ball.Collide], lines 148-157: the two balls after the call and the
    value returned ([None], or the pair of ball indices). *)
Definition Collide (self other : Ball)
    : res (Ball * Ball * option (nat * nat)) :=
  if WillCollide self other then
    (vs <- Elastic (m self) (m other) (v self) (v other) ;;
     ret (set_v self (fst vs), set_v other (snd vs),
          Some (ball_ind self, ball_ind other)))%res
  else ret (self, other, None).

(** The variables of one pass of the collision loop. *)
Record scan : Type := mkScan {
  s_balls : list Ball;
  s_collisions : nat;
  s_collided : list nat
}.

(** The body of the two nested [for] loops, lines 192-195. *)
Definition pair_step (b b2 : nat) (s : scan) : res scan :=
  (x <- getitem (s_balls s) b ;;
   y <- getitem (s_balls s) b2 ;;
   r <- Collide x y ;;
   let '(x', y', did_collide) := r in
   let bs := list_set (list_set (s_balls s) b x') b2 y' in
   match did_collide with
   | Some (i, j) =>
       ret (mkScan bs (S (s_collisions s))
              (set_add Nat.eq_dec j (set_add Nat.eq_dec i (s_collided s))))
   | None => ret (mkScan bs (s_collisions s) (s_collided s))
   end)%res.

(** One pass over all unordered pairs, lines 189-195. *)
Definition pass (balls : list Ball) (collided : list nat) : res scan :=
  let n := List.length balls in
  for_each (range 0 (n - 1))
    (fun b => for_each (range (b + 1) n) (fun b2 => pair_step b b2))
    (mkScan balls 0 collided).

(** What a tick leaves behind.  [t_passes] is not a program variable: it
    records the value of [collisions] at the end of each pass that ran, in
    order, so that properties of the loop can be stated. *)
Record tick : Type := mkTick {
  t_balls : list Ball;
  t_collided : list nat;
  t_stdout : list string;
  t_passes : list nat
}.

(** The [while count < 5] loop, lines 188-200.  [fuel] bounds the number of
    iterations unfolded; [None] means the bound was too small. *)
Fixpoint resolve (fuel count : nat) (t : tick) : option (res tick) :=
  match fuel with
  | O => None
  | S fuel' =>
      if (count <? 5)%nat then
        match pass (t_balls t) (t_collided t) with
        | inl e => Some (inl e)
        | inr s =>
            let count := (count + 1)%nat in
            let stdout :=
              if (4 <? count)%nat
              then (t_stdout t ++ ["Collision Failure"%string])%list
              else t_stdout t in
            let t' := mkTick (s_balls s) (s_collided s) stdout
                        (t_passes t ++ [s_collisions s]) in
            if (s_collisions s =? 0)%nat then Some (inr t')
            else resolve fuel' count t'
        end
      else Some (inr t)
  end.

(** [Orbits.UpdatePositions], lines 179-213, without the canvas. *)
Definition UpdatePositions (balls : list Ball) : option (res tick) :=
  resolve 6 0 (mkTick (map UpdatePosition balls) [] [] []).

(** *** Colours

    The colour of a ball is display state: [Collide] and the loop of
    [UpdatePositions] do not read it.  It is modelled on its own: the class
    attributes of [Ball], which all balls share, and the colour fields of one
    ball. *)

Record Ranges : Type := mkRanges {
  e_low : Q;
  e_high : Q;
  e_gain_high : Q;
  e_gain_low : Q;
  mom_low : Q;
  mom_high : Q
}.

(** The class attributes as the class body sets them, lines 48-53. *)
Definition class_ranges : Ranges :=
  mkRanges 0 (1 # 100000000) (1 # 10000000) 0 (- (1 # 1000)) (1 # 1000).

(** [Ball.ResetRanges], lines 72-78. *)
Definition ResetRanges (_ : Ranges) : Ranges :=
  mkRanges 0 (1 # 100000000) (1 # 10000000) 0
    (- (1 # 1000000)) (1 # 1000000).

Definition set_e_high (r : Ranges) (x : Q) : Ranges :=
  mkRanges (e_low r) x (e_gain_high r) (e_gain_low r) (mom_low r)
    (mom_high r).

Definition set_e_gain_high (r : Ranges) (x : Q) : Ranges :=
  mkRanges (e_low r) (e_high r) x (e_gain_low r) (mom_low r) (mom_high r).

Definition set_e_gain_low (r : Ranges) (x : Q) : Ranges :=
  mkRanges (e_low r) (e_high r) (e_gain_high r) x (mom_low r) (mom_high r).

Definition set_mom_low (r : Ranges) (x : Q) : Ranges :=
  mkRanges (e_low r) (e_high r) (e_gain_high r) (e_gain_low r) x
    (mom_high r).

Definition set_mom_high (r : Ranges) (x : Q) : Ranges :=
  mkRanges (e_low r) (e_high r) (e_gain_high r) (e_gain_low r) (mom_low r)
    x.

Record Colour : Type := mkColour {
  old_e : Q;
  mom_n : Z;
  e_n : Z;
  e_gain_n : Z
}.

Definition set_mom_n (c : Colour) (x : Z) : Colour :=
  mkColour (old_e c) x (e_n c) (e_gain_n c).

Definition set_e_n (c : Colour) (x : Z) : Colour :=
  mkColour (old_e c) (mom_n c) x (e_gain_n c).

Definition set_e_gain_n (c : Colour) (x : Z) : Colour :=
  mkColour (old_e c) (mom_n c) (e_n c) x.

(** [max(0, min(255, int(x)))]. *)
Definition weight (x : Q) : Z := Z.max 0 (Z.min 255 (int x)).

(** [Ball.UpdateColor], lines 80-103, for a ball of velocity [v] and mass
    [m]: the class attributes and the colour fields after the call, and
    whether a division raised.  The attributes assigned before a division
    raises stay assigned. *)
Definition UpdateColor (v m : Q) (st : Ranges * Colour)
    : (Ranges * Colour) * res unit :=
  let '(r, c) := st in
  let mom := v * m in
  let r := if Qltb (mom_high r) mom then set_mom_high r mom else r in
  let r := if Qltb mom (mom_low r) then set_mom_low r mom else r in
  let e := (1 # 2) * v * v * m in
  let r := if Qltb (e_high r) e then set_e_high r e else r in
  let e_gain := fabs (e - old_e c) in
  let r := if Qltb (e_gain_high r) e_gain then set_e_gain_high r e_gain
           else r in
  let r := if Qltb e_gain (e_gain_low r) then set_e_gain_low r e_gain
           else r in
  let e_gain_range := e_gain_high r - e_gain_low r in
  let mom_range := mom_high r - mom_low r in
  let e_range := e_high r - e_low r in
  match fdiv ((mom - mom_low r) * 256) mom_range with
  | inl x => ((r, c), inl x)
  | inr q =>
      let c := set_mom_n c (weight q) in
      match fdiv ((e - e_low r) * 256) e_range with
      | inl x => ((r, c), inl x)
      | inr q =>
          let c := set_e_n c (weight q) in
          match fdiv ((e_gain - e_gain_low r) * 256) e_gain_range with
          | inl x => ((r, c), inl x)
          | inr q => ((r, set_e_gain_n c (weight q)), inr tt)
          end
      end
  end.

(** ['#%2x%2x%2x' % (r, g, b)] with its blanks replaced by zeros, as
    [MakeColor] and [UpdatePositions] both write it. *)
Definition rgb (r g b : Z) : string :=
  replace_char " " "0"
    (String "#" (format_2x r ++ format_2x g ++ format_2x b))%string.

(** [Ball.MakeColor], lines 105-110. *)
Definition MakeColor (c : Colour) : string :=
  rgb (mom_n c) (e_n c) (e_gain_n c).

(** The background colour of [UpdatePositions], lines 202-211: the weights
    of the balls averaged by integer division.  The program gets there only
    after a collision, hence with balls on the track. *)
Definition background (colours : list Colour) : res string :=
  let n := Z.of_nat (List.length colours) in
  let g := fold_left (fun acc c => (acc + e_n c)%Z) colours 0%Z in
  let r := fold_left (fun acc c => (acc + mom_n c)%Z) colours 0%Z in
  let b := fold_left (fun acc c => (acc + e_gain_n c)%Z) colours 0%Z in
  if (n =? 0)%Z then raise ZeroDivisionError
  else ret (rgb (r / n) (g / n) (b / n)).

End balls9.

(** ** pend.py *)

Module pend.
Import Py.

(** [Elastic], lines 36-42: the same text as in [balls9.py]. *)
Definition Elastic (m1 m2 v1 v2 : Q) : res (Q * Q) :=
  (vp2 <- fdiv ((m2 * v2) + (m1 * ((2 * v1) - v2))) (m1 + m2) ;;
   let vp1 := vp2 + v2 - v1 in
   ret (vp1, vp2))%res.

Record Pend : Type := mkPend {
  mass : Q;
  length : Q;
  angle : Q;
  speed : Q;
  del_t : Q
}.

(** [Pend.WillCollide], lines 126-145.  The angular velocities divide by the
    pendulum lengths, so the call raises when a length is zero. *)
Definition WillCollide (self other : Pend) : res bool :=
  let pi2 := 2 * math_pi in
  let piby2 := math_pi * (1 # 2) in
  let sa := if Qltb (angle self) 0 then pi2 + angle self else angle self in
  let oa := if Qltb (angle other) 0 then pi2 + angle other else angle other in
  let '(sa, oa) :=
    if Qltb sa piby2 && Qltb math_pi oa then (sa + pi2, oa)
    else if Qltb oa piby2 && Qltb math_pi sa then (sa, oa + pi2)
    else (sa, oa) in
  let t1 := sa - oa in
  (self_av <- fdiv (speed self * del_t self) (length self) ;;
   other_av <- fdiv (speed other * del_t other) (length other) ;;
   let t2 := sa + self_av - (oa + other_av) in
   ret (Qle_bool (t1 * t2) 0))%res.

(** The module constant [g]: line 32 sets it to 9.807 and line 33 sets it
    again, to 1.0. *)
Definition g : Q := 1.

(** [DegToRad] and [RadToDeg], lines 45-50. *)
Definition DegToRad (deg : Q) : Q := 2 * math_pi * deg / 360.

Definition RadToDeg (rad : Q) : Q := 360 * rad / (2 * math_pi).

(** [Pend.__init__], lines 104-117, without the colour. *)
Definition Pend_init (mass length angle delta_t : Q) : Pend :=
  mkPend mass length (DegToRad angle) 0 delta_t.

Definition set_speed (p : Pend) (x : Q) : Pend :=
  mkPend (mass p) (length p) (angle p) x (del_t p).

Definition set_angle (p : Pend) (x : Q) : Pend :=
  mkPend (mass p) (length p) x (speed p) (del_t p).

Section WithCos.
Variable math_cos : Q -> Q.

(** [Pend.Step], lines 119-124: the pendulum after the call, and whether a
    division raised.  The speed is assigned before the second division. *)
Definition Step (self : Pend) : Pend * res unit :=
  let f := mass self * math_cos (angle self) * g in
  match fdiv f (mass self) with
  | inl e => (self, inl e)
  | inr a =>
      let self := set_speed self (speed self + a * del_t self) in
      match fdiv (speed self * del_t self) (length self) with
      | inl e => (self, inl e)
      | inr del_ang =>
          (set_angle self (math_fmod (angle self + del_ang) (2 * math_pi)),
           inr tt)
      end
  end.

End WithCos.

(** [Pend.Collide], lines 147-152: the two pendulums after the call and the
    boolean returned. *)
Definition Collide (self other : Pend) : res (Pend * Pend * bool) :=
  (hit <- WillCollide self other ;;
   if hit : bool then
     vs <- Elastic (mass self) (mass other) (speed self) (speed other) ;;
     ret (set_speed self (fst vs), set_speed other (snd vs), true)
   else ret (self, other, false))%res.

(** The variables of one pass of the collision loop of [RunPendulums]. *)
Record scan : Type := mkScan {
  s_pends : list Pend;
  s_collisions : nat
}.

(** The body of the two nested [for] loops, lines 181-184. *)
Definition pair_step (i i2 : nat) (s : scan) : res scan :=
  (x <- getitem (s_pends s) i ;;
   y <- getitem (s_pends s) i2 ;;
   r <- Collide x y ;;
   let '(x', y', did_collide) := r in
   let ps := list_set (list_set (s_pends s) i x') i2 y' in
   ret (mkScan ps (if did_collide : bool then S (s_collisions s)
                   else s_collisions s)))%res.

(** One pass over all unordered pairs, lines 179-184. *)
Definition pass (pends : list Pend) : res scan :=
  let n := List.length pends in
  for_each (range 0 (n - 1))
    (fun i => for_each (range (i + 1) n) (fun i2 => pair_step i i2))
    (mkScan pends 0).

(** What one round of the simulation thread leaves behind.  [r_passes] is
    not a program variable: it records the value of [collisions] at the end
    of each pass that ran. *)
Record round : Type := mkRound {
  r_pends : list Pend;
  r_stdout : list string;
  r_passes : list nat
}.

(** The [while count < 5] loop, lines 178-189. *)
Fixpoint resolve (fuel count : nat) (t : round) : option (res round) :=
  match fuel with
  | O => None
  | S fuel' =>
      if (count <? 5)%nat then
        match pass (r_pends t) with
        | inl e => Some (inl e)
        | inr s =>
            let count := (count + 1)%nat in
            let stdout :=
              if (4 <? count)%nat
              then (r_stdout t ++ ["Collision failure"%string])%list
              else r_stdout t in
            let t' := mkRound (s_pends s) stdout
                        (r_passes t ++ [s_collisions s]) in
            if (s_collisions s =? 0)%nat then Some (inr t')
            else resolve fuel' count t'
        end
      else Some (inr t)
  end.

(** One round of the [while True] loop of [Pendulums.RunPendulums], lines
    174-189, without the clock: every pendulum steps, then the collisions
    are resolved.  An exception ends the thread. *)
Definition RunPendulums_round (math_cos : Q -> Q) (pends : list Pend)
    : option (res round) :=
  match map_res (fun p => match Step math_cos p with
                          | (_, inl e) => inl e
                          | (p', inr _) => inr p'
                          end) pends with
  | inl e => Some (inl e)
  | inr stepped => resolve 6 0 (mkRound stepped [] [])
  end.

Section WithFloat.
(** [float(s)] on a string: the number read, or [None] where Python raises
    [ValueError]. *)
Variable float : string -> option Q.

(** The body of the loop of [DecodePendulums], lines 213-222, on the lines
    written to [sys.stderr] so far (each without its final newline) and the
    list [ret]. *)
Definition decode_one (spec : string)
    (st : list string * list (Q * Q * string))
    : list string * list (Q * Q * string) :=
  let '(err, ret) := st in
  match split "," spec with
  | [b0; b1; b2] =>
      match float b0, float b1 with
      | Some mass, Some angle => (err, (ret ++ [(mass, angle, b2)])%list)
      | _, _ =>
          ((err ++ [("Bad value in specification: " ++ spec)%string])%list,
           ret)
      end
  | _ => ((err ++ [("Ill-formed specification: " ++ spec)%string])%list, ret)
  end.

(** [DecodePendulums], lines 210-223: what it writes to [sys.stderr] and
    what it returns. *)
Definition DecodePendulums (specs : list string)
    : list string * list (Q * Q * string) :=
  fold_left (fun st spec => decode_one spec st) specs ([], []).

End WithFloat.

End pend.

(** ** tune.py *)

Module tune.
Import Py.

(** *** Chord and scale tables *)

(** The [while ind < n_semis] loop of [MakeMajorChords] and
    [MakeMinorChords], lines 48-51 and 73-76.  [fuel] bounds the iterations
    unfolded; [None] means the bound was too small. *)
Fixpoint chord_while (fuel : nat) (skips : list Z) (n_semis ind : Z)
    (skipi : nat) (chord : list Z) : option (res (list Z)) :=
  match fuel with
  | O => None
  | S fuel' =>
      if (ind <? n_semis)%Z then
        let chord := (chord ++ [ind])%list in
        match getitem skips skipi with
        | inl e => Some (inl e)
        | inr skip =>
            chord_while fuel' skips n_semis (ind + skip)%Z
              ((skipi + 1) mod List.length skips)%nat chord
        end
      else Some (ret chord)
  end.

(** [MakeMajorChords(n_semis, base_i)], lines 30-52.  The index grows by at
    least 3 in every iteration, so [n_semis + 1] iterations are enough. *)
Definition MakeMajorChords (n_semis base_i : Z) : option (res (list Z)) :=
  let skips := [4; 3; 5]%Z in
  let base_i := (base_i mod 12)%Z in
  let '(ind, skipi) :=
    if (0 <=? base_i - 8)%Z then ((base_i - 8)%Z, 1%nat)
    else if (0 <=? base_i - 5)%Z then ((base_i - 5)%Z, 2%nat)
    else (base_i, 0%nat) in
  chord_while (S (Z.to_nat n_semis)) skips n_semis ind skipi [].

(** [MakeMinorChords(n_semis, base_i)], lines 55-77. *)
Definition MakeMinorChords (n_semis base_i : Z) : option (res (list Z)) :=
  let skips := [3; 4; 5]%Z in
  let base_i := (base_i mod 12)%Z in
  let '(ind, skipi) :=
    if (0 <=? base_i - 9)%Z then ((base_i - 9)%Z, 1%nat)
    else if (0 <=? base_i - 5)%Z then ((base_i - 5)%Z, 2%nat)
    else (base_i, 0%nat) in
  chord_while (S (Z.to_nat n_semis)) skips n_semis ind skipi [].



Section WithLibm.
Context {libm : Libm}.




End WithLibm.

(** *** class Notes *)

Module Notes.

Definition c_sharp_names : list string :=
  ["C"; "C#"; "D"; "D#"; "E"; "F"; "F#"; "G"; "G#"; "A"; "A#"; "B"]%string.

Definition c_flat_names : list string :=
  ["C"; "Db"; "D"; "Eb"; "E"; "F"; "Gb"; "G"; "Ab"; "A"; "Bb"; "B"]%string.

Definition a4 : Q := 440.

(** The dict [progression_steps], line 119. *)
Definition progression_steps : list (string * Z) :=
  [("I", 0); ("II", 2); ("III", 4); ("IV", 5); ("V", 7); ("VI", 9);
   ("VII", 11)]%string%Z.

Fixpoint lookup (k : string) (d : list (string * Z)) : option Z :=
  match d with
  | [] => None
  | (k', x) :: t => if String.eqb k k' then Some x else lookup k t
  end.

Record Notes : Type := mkNotes {
  tonic : string;
  n_semis : nat;
  notes : list Q;
  names : list string
}.

(** What a method leaves on [sys.stderr], and what it returns or raises.
    Each message is recorded without its final newline. *)
Definition reply (A : Type) : Type := (list string * res A)%type.

Section WithLibm.
Context {libm : Libm}.

(** [Notes.CreateSemitoneFrequencies], lines 144-174.  The argument is a
    string by its type, so the first test never fires. *)
Definition CreateSemitoneFrequencies (tonic : string) (n_notes : nat)
    : reply (option (list Q * list string)) :=
  match last_char tonic with
  | None => ([], raise IndexError)
  | Some c =>
      let '(oct, note) :=
        if is_digit_char c
        then ((Z.of_nat (nat_of_ascii c) - 48)%Z, but_last tonic)
        else (4%Z, tonic) in
      let found :=
        match index_of note c_sharp_names with
        | Some i => Some i
        | None => index_of note c_flat_names
        end in
      match found with
      | None =>
          ([("Unrecognized base note spec (" ++ tonic ++ ")")%string],
           ret None)
      | Some ind =>
          let a_ind := 9%Z in
          let i_diff := (Z.of_nat ind - a_ind)%Z in
          let o_diff := (oct - 4)%Z in
          let low_ind := (i_diff + 12 * o_diff)%Z in
          let twelth2 := float_pow 2 (1 / 12) in
          let semis := map (fun k => (low_ind + Z.of_nat k)%Z)
                           (seq 0 n_notes) in
          ([],
           (names <- map_res
                       (fun n => getitem_int c_sharp_names
                                   ((n + a_ind) mod 12)%Z) semis ;;
            ret (Some (map (fun n => a4 * float_pow twelth2 (inject_Z n))
                           semis, names)))%res)
      end
  end.

(** [Notes.__init__], lines 109-120: unpacking a [None] result raises. *)
Definition init (tonic : string) (n_semis : nat) : reply Notes :=
  let '(err, r) := CreateSemitoneFrequencies tonic n_semis in
  (err,
   (created <- r ;;
    match created with
    | None => raise TypeError
    | Some (notes, names) => ret (mkNotes tonic n_semis notes names)
    end)%res).

End WithLibm.

(** [Notes.GetNoteName], line 123. *)
Definition GetNoteName (note_ind : Z) : res string :=
  getitem_int c_sharp_names (note_ind mod 12)%Z.

(** [name in self.c_sharp_names] and its [index], else the same in
    [self.c_flat_names], as lines 126-129 and 134-137 have it. *)
Definition name_index (name : string) : option nat :=
  match index_of name c_sharp_names with
  | Some i => Some i
  | None => index_of name c_flat_names
  end.

(** [Notes.GetIndexFromNoteName], lines 125-142. *)
Definition GetIndexFromNoteName (note_name tonic_name : string)
    : reply (option Z) :=
  match name_index note_name with
  | None =>
      ([("Note name (" ++ note_name ++ ") not found in name lists.")%string],
       ret None)
  | Some ind =>
      match name_index tonic_name with
      | None =>
          ([("Tonic name (" ++ tonic_name ++
             ") not found in name lists.")%string],
           ret None)
      | Some tind =>
          ([], ret (Some ((Z.of_nat ind - Z.of_nat tind) mod 12)%Z))
      end
  end.

(** The [while] loop of lines 183-185: how many leading characters of [sp]
    are among [VvIi]. *)
Fixpoint roman_length (sp : string) : nat :=
  match sp with
  | EmptyString => O
  | String c t => if char_in c "VvIi" then S (roman_length t) else O
  end.

(** [Notes.ChordSpecToIndices], lines 176-229. *)
Definition ChordSpecToIndices (self : Notes) (spec : string)
    : reply (option (list Z)) :=
  match spec with
  | EmptyString => ([], raise IndexError)
  | String c0 rest =>
      let '(flatted, sp) :=
        if Ascii.eqb c0 "b" then (true, rest) else (false, spec) in
      let i := roman_length sp in
      let sint := substring 0 i sp in
      match lookup (upper sint) progression_steps with
      | None =>
          ([("Bad chord specification (" ++ spec ++ ")")%string], ret None)
      | Some interval =>
          let interval := if flatted then (interval - 1)%Z else interval in
          let is_minor := islower sint in
          let is_dim := char_in "o" sp in
          let has_7 := char_in "7" sp in
          let '(int_2, int_3) := if is_minor then (3, 4)%Z else (4, 3)%Z in
          let '(int_2, int_3) :=
            if is_dim then
              if is_minor then (int_2, (int_3 - 1)%Z)
              else ((int_2 - 1)%Z, int_3)
            else (int_2, int_3) in
          let int_7 :=
            if has_7 then
              let int_7 :=
                if existsb (String.eqb sint) ["I"; "IV"; "vii"]%string
                then 11%Z else 10%Z in
              if is_dim then (int_7 - 1)%Z else int_7
            else 0%Z in
          let chord :=
            ([interval; interval + int_2; interval + int_2 + int_3] ++
             (if (int_7 =? 0)%Z then [] else [interval + int_7]))%Z%list in
          let ninds :=
            map (fun n =>
                   if (Z.of_nat (List.length (notes self)) <=? n)%Z
                   then (n mod 12)%Z else n) chord in
          ([], ret (Some (sort Z.leb ninds)))
      end
  end.

(** [Notes.ChordSpecToNotes], lines 231-235. *)
Definition ChordSpecToNotes (self : Notes) (chord_spec : string)
    : reply (option (list Q)) :=
  let '(err, r) := ChordSpecToIndices self chord_spec in
  (err,
   (inds <- r ;;
    match inds with
    | None | Some [] => ret None
    | Some inds =>
        l <- map_res (getitem_int (notes self)) inds ;; ret (Some l)
    end)%res).

(** [Notes.ChordSpecToNoteNames], lines 237-241. *)
Definition ChordSpecToNoteNames (self : Notes) (chord_spec : string)
    : reply (option (list string)) :=
  let '(err, r) := ChordSpecToIndices self chord_spec in
  (err,
   (inds <- r ;;
    match inds with
    | None | Some [] => ret None
    | Some inds =>
        l <- map_res (getitem_int (names self)) inds ;; ret (Some l)
    end)%res).

End Notes.

(** *** Methods that mutate an object

    A method of an object with state [S] is a function from the state before
    the call to the state after it and the outcome.  The state survives an
    exception, as a Python object does. *)

Definition M (S A : Type) : Type := S -> S * res A.

Definition mret {S A : Type} (a : A) : M S A := fun s => (s, inr a).

Definition mraise {S A : Type} (e : exn) : M S A := fun s => (s, inl e).

Definition mbind {S A B : Type} (m : M S A) (k : A -> M S B) : M S B :=
  fun s =>
    match m s with
    | (s', inl e) => (s', inl e)
    | (s', inr a) => k a s'
    end.

(** Read an attribute; assign the attributes; use a value that may raise. *)
Definition get {S A : Type} (f : S -> A) : M S A := fun s => (s, inr (f s)).

Definition modify {S : Type} (f : S -> S) : M S unit :=
  fun s => (f s, inr tt).

Definition lift {S A : Type} (r : res A) : M S A := fun s => (s, r).

(** [for a in l: x = body(a, x)], where [x] stands for the local variables
    that the loop carries. *)
Fixpoint for_in {S A X : Type} (l : list A) (body : A -> X -> M S X) (x : X)
    : M S X :=
  match l with
  | [] => mret x
  | a :: t => mbind (body a x) (fun x' => for_in t body x')
  end.

Declare Scope M_scope.
Delimit Scope M_scope with M.
Notation "x <- m ;; k" := (mbind m (fun x => k))
  (at level 61, m at next level, right associativity) : M_scope.
Notation "m ;; k" := (mbind m (fun _ => k))
  (at level 61, right associativity) : M_scope.

(** *** class Tones *)

Module Tones.

Record Tones : Type := mkTones {
  fs : Q;
  notes : list Q;
  args : list Q;
  incs : list Q;
  amps : list Q;
  n_notes : nat;
  ping_notes : list Q;
  ping_args : list Q;
  ping_incs : list Q;
  ping_amps : list Q;
  ping_decay : Q;
  ping_reset_amp : Q;
  ping_samples : Z;
  ping_inds : list Z;
  n_pings : nat;
  ping_is_on : bool;
  chord_is_on : bool;
  detune_is_on : bool
}.

(** Attribute assignment, one function per attribute. *)
Definition set_notes (x : list Q) (s : Tones) : Tones :=
  mkTones (fs s) x (args s) (incs s) (amps s) (n_notes s) (ping_notes s)
    (ping_args s) (ping_incs s) (ping_amps s) (ping_decay s)
    (ping_reset_amp s) (ping_samples s) (ping_inds s) (n_pings s)
    (ping_is_on s) (chord_is_on s) (detune_is_on s).

Definition set_args (x : list Q) (s : Tones) : Tones :=
  mkTones (fs s) (notes s) x (incs s) (amps s) (n_notes s) (ping_notes s)
    (ping_args s) (ping_incs s) (ping_amps s) (ping_decay s)
    (ping_reset_amp s) (ping_samples s) (ping_inds s) (n_pings s)
    (ping_is_on s) (chord_is_on s) (detune_is_on s).

Definition set_incs (x : list Q) (s : Tones) : Tones :=
  mkTones (fs s) (notes s) (args s) x (amps s) (n_notes s) (ping_notes s)
    (ping_args s) (ping_incs s) (ping_amps s) (ping_decay s)
    (ping_reset_amp s) (ping_samples s) (ping_inds s) (n_pings s)
    (ping_is_on s) (chord_is_on s) (detune_is_on s).

Definition set_amps (x : list Q) (s : Tones) : Tones :=
  mkTones (fs s) (notes s) (args s) (incs s) x (n_notes s) (ping_notes s)
    (ping_args s) (ping_incs s) (ping_amps s) (ping_decay s)
    (ping_reset_amp s) (ping_samples s) (ping_inds s) (n_pings s)
    (ping_is_on s) (chord_is_on s) (detune_is_on s).

Definition set_n_notes (x : nat) (s : Tones) : Tones :=
  mkTones (fs s) (notes s) (args s) (incs s) (amps s) x (ping_notes s)
    (ping_args s) (ping_incs s) (ping_amps s) (ping_decay s)
    (ping_reset_amp s) (ping_samples s) (ping_inds s) (n_pings s)
    (ping_is_on s) (chord_is_on s) (detune_is_on s).

Definition set_ping_notes (x : list Q) (s : Tones) : Tones :=
  mkTones (fs s) (notes s) (args s) (incs s) (amps s) (n_notes s) x
    (ping_args s) (ping_incs s) (ping_amps s) (ping_decay s)
    (ping_reset_amp s) (ping_samples s) (ping_inds s) (n_pings s)
    (ping_is_on s) (chord_is_on s) (detune_is_on s).

Definition set_ping_args (x : list Q) (s : Tones) : Tones :=
  mkTones (fs s) (notes s) (args s) (incs s) (amps s) (n_notes s)
    (ping_notes s) x (ping_incs s) (ping_amps s) (ping_decay s)
    (ping_reset_amp s) (ping_samples s) (ping_inds s) (n_pings s)
    (ping_is_on s) (chord_is_on s) (detune_is_on s).

Definition set_ping_incs (x : list Q) (s : Tones) : Tones :=
  mkTones (fs s) (notes s) (args s) (incs s) (amps s) (n_notes s)
    (ping_notes s) (ping_args s) x (ping_amps s) (ping_decay s)
    (ping_reset_amp s) (ping_samples s) (ping_inds s) (n_pings s)
    (ping_is_on s) (chord_is_on s) (detune_is_on s).

Definition set_ping_amps (x : list Q) (s : Tones) : Tones :=
  mkTones (fs s) (notes s) (args s) (incs s) (amps s) (n_notes s)
    (ping_notes s) (ping_args s) (ping_incs s) x (ping_decay s)
    (ping_reset_amp s) (ping_samples s) (ping_inds s) (n_pings s)
    (ping_is_on s) (chord_is_on s) (detune_is_on s).

Definition set_ping_decay (x : Q) (s : Tones) : Tones :=
  mkTones (fs s) (notes s) (args s) (incs s) (amps s) (n_notes s)
    (ping_notes s) (ping_args s) (ping_incs s) (ping_amps s) x
    (ping_reset_amp s) (ping_samples s) (ping_inds s) (n_pings s)
    (ping_is_on s) (chord_is_on s) (detune_is_on s).

Definition set_ping_reset_amp (x : Q) (s : Tones) : Tones :=
  mkTones (fs s) (notes s) (args s) (incs s) (amps s) (n_notes s)
    (ping_notes s) (ping_args s) (ping_incs s) (ping_amps s) (ping_decay s)
    x (ping_samples s) (ping_inds s) (n_pings s)
    (ping_is_on s) (chord_is_on s) (detune_is_on s).

Definition set_ping_samples (x : Z) (s : Tones) : Tones :=
  mkTones (fs s) (notes s) (args s) (incs s) (amps s) (n_notes s)
    (ping_notes s) (ping_args s) (ping_incs s) (ping_amps s) (ping_decay s)
    (ping_reset_amp s) x (ping_inds s) (n_pings s)
    (ping_is_on s) (chord_is_on s) (detune_is_on s).

Definition set_ping_inds (x : list Z) (s : Tones) : Tones :=
  mkTones (fs s) (notes s) (args s) (incs s) (amps s) (n_notes s)
    (ping_notes s) (ping_args s) (ping_incs s) (ping_amps s) (ping_decay s)
    (ping_reset_amp s) (ping_samples s) x (n_pings s)
    (ping_is_on s) (chord_is_on s) (detune_is_on s).

Definition set_n_pings (x : nat) (s : Tones) : Tones :=
  mkTones (fs s) (notes s) (args s) (incs s) (amps s) (n_notes s)
    (ping_notes s) (ping_args s) (ping_incs s) (ping_amps s) (ping_decay s)
    (ping_reset_amp s) (ping_samples s) (ping_inds s) x
    (ping_is_on s) (chord_is_on s) (detune_is_on s).

Definition set_ping_is_on (x : bool) (s : Tones) : Tones :=
  mkTones (fs s) (notes s) (args s) (incs s) (amps s) (n_notes s)
    (ping_notes s) (ping_args s) (ping_incs s) (ping_amps s) (ping_decay s)
    (ping_reset_amp s) (ping_samples s) (ping_inds s) (n_pings s)
    x (chord_is_on s) (detune_is_on s).

Definition set_chord_is_on (x : bool) (s : Tones) : Tones :=
  mkTones (fs s) (notes s) (args s) (incs s) (amps s) (n_notes s)
    (ping_notes s) (ping_args s) (ping_incs s) (ping_amps s) (ping_decay s)
    (ping_reset_amp s) (ping_samples s) (ping_inds s) (n_pings s)
    (ping_is_on s) x (detune_is_on s).

Definition set_detune_is_on (x : bool) (s : Tones) : Tones :=
  mkTones (fs s) (notes s) (args s) (incs s) (amps s) (n_notes s)
    (ping_notes s) (ping_args s) (ping_incs s) (ping_amps s) (ping_decay s)
    (ping_reset_amp s) (ping_samples s) (ping_inds s) (n_pings s)
    (ping_is_on s) (chord_is_on s) x.

(** [self.a[i]] and [self.a[i] = x] for a list attribute [a]. *)
Definition read {A : Type} (f : Tones -> list A) (i : nat) : M Tones A :=
  (l <- get f ;; lift (getitem l i))%M.

Definition write {A : Type} (f : Tones -> list A)
    (set : list A -> Tones -> Tones) (i : nat) (x : A) : M Tones unit :=
  (l <- get f ;; l' <- lift (setitem l i x) ;; modify (set l'))%M.

Definition float_of_nat (n : nat) : Q := inject_Z (Z.of_nat n).

Definition ToggleDetune : M Tones unit :=
  (b <- get Tones.detune_is_on ;; modify (set_detune_is_on (negb b)))%M.

Definition TogglePing : M Tones unit :=
  (b <- get Tones.ping_is_on ;; modify (set_ping_is_on (negb b)))%M.

Definition ToggleChord : M Tones unit :=
  (b <- get Tones.chord_is_on ;; modify (set_chord_is_on (negb b)))%M.

(** [Tones.ResetPings], lines 282-291. *)
Definition ResetPings (max_notes : nat) : M Tones unit :=
  (modify (set_ping_notes (repeat 0 max_notes)) ;;
   modify (set_ping_args (repeat 0 max_notes)) ;;
   modify (set_ping_incs (repeat 0 max_notes)) ;;
   amp <- lift (fdiv 32000 (float_of_nat max_notes)) ;;
   modify (set_ping_reset_amp amp) ;;
   modify (set_ping_amps (repeat 0 max_notes)) ;;
   modify (set_ping_decay (9995 # 10000)) ;;
   fs <- get Tones.fs ;;
   modify (set_ping_samples (int (fs * 1))) ;;
   ping_samples <- get Tones.ping_samples ;;
   modify (set_ping_inds (repeat ping_samples max_notes)) ;;
   modify (set_n_pings 0))%M.

(** [Tones.ResetChord], lines 293-299. *)
Definition ResetChord (max_notes : nat) : M Tones unit :=
  (modify (set_notes (repeat 0 max_notes)) ;;
   modify (set_args (repeat 0 max_notes)) ;;
   modify (set_incs (repeat 0 max_notes)) ;;
   amp <- lift (fdiv 6000 (float_of_nat max_notes)) ;;
   modify (set_amps (repeat amp max_notes)) ;;
   modify (set_n_notes 0))%M.

Section WithLibm.
Context {libm : Libm}.

(** [Tones.SetupPings], lines 301-314.  [random_random i] is the value that
    the [i]-th call of [random.random()] made by this call returns. *)
Definition SetupPings (random_random : nat -> Q) (ping_notes : list Q)
    (time_const dur : Q) : M Tones unit :=
  (n_pings <- get Tones.n_pings ;;
   (if (n_pings <? List.length ping_notes)%nat
    then ResetPings (List.length ping_notes) else mret tt) ;;
   modify (set_ping_notes ping_notes) ;;
   let pi2 := math_pi * 2 in
   fs <- get Tones.fs ;;
   modify (set_ping_samples (int (dur * fs))) ;;
   e <- lift (fdiv (- (1)) (time_const * fs)) ;;
   modify (set_ping_decay (math_exp e)) ;;
   for_in (range 0 (List.length ping_notes))
     (fun i (_ : unit) =>
        detune_is_on <- get Tones.detune_is_on ;;
        note <- lift (getitem ping_notes i) ;;
        let freq :=
          if detune_is_on
          then (8 * (random_random i - (1 # 2))) + note
          else note in
        fs <- get Tones.fs ;;
        inc <- lift (fdiv (pi2 * freq) fs) ;;
        write Tones.ping_incs set_ping_incs i inc) tt ;;
   modify (set_n_pings (List.length ping_notes)))%M.

(** [Tones.Ping], lines 316-321.  [if new_ping_freq] is false for [None] and
    for [0.0]. *)
Definition Ping (ping_ind : nat) (new_ping_freq : option Q) : M Tones unit :=
  ((match new_ping_freq with
    | None => mret tt
    | Some f =>
        if Qeq_bool f 0 then mret tt
        else
          fs <- get Tones.fs ;;
          inc <- lift (fdiv (2 * math_pi * f) fs) ;;
          write Tones.ping_incs set_ping_incs ping_ind inc
    end) ;;
   ping_reset_amp <- get Tones.ping_reset_amp ;;
   write Tones.ping_amps set_ping_amps ping_ind ping_reset_amp ;;
   write Tones.ping_inds set_ping_inds ping_ind 0%Z ;;
   write Tones.ping_args set_ping_args ping_ind 0)%M.

(** [Tones.ChangeChord], lines 323-330.  The argument is a list or [None];
    [len(None)] raises. *)
Definition ChangeChord (new_notes : option (list Q)) : M Tones unit :=
  match new_notes with
  | None => mraise TypeError
  | Some new_notes =>
      (notes <- get Tones.notes ;;
       (if (List.length notes <? List.length new_notes)%nat
        then ResetChord (List.length new_notes) else mret tt) ;;
       modify (set_notes new_notes) ;;
       modify (set_n_notes (List.length new_notes)) ;;
       let pi2 := math_pi * 2 in
       n_notes <- get Tones.n_notes ;;
       for_in (range 0 n_notes)
         (fun i (_ : unit) =>
            note <- read Tones.notes i ;;
            fs <- get Tones.fs ;;
            inc <- lift (fdiv (pi2 * note) fs) ;;
            write Tones.incs set_incs i inc) tt)%M
  end.

(** [Tones.__init__], lines 251-271. *)
Definition init (sample_rate : Q) : Tones * res unit :=
  (ResetChord 4 ;;
   modify (set_ping_decay (9995 # 10000)) ;;
   modify (set_ping_reset_amp 1000) ;;
   ResetPings 10)%M
  (mkTones sample_rate [] [] [] [] 0 [] [] [] [] 0 0 0 [] 0 true true true).

(** [Tones.GeneratePingSignal], lines 335-355. *)
Definition GeneratePingSignal (n_samp : nat) : M Tones (list Q) :=
  (let output := repeat 0 n_samp in
   ping_is_on <- get Tones.ping_is_on ;;
   if negb ping_is_on then mret output
   else
     let pi2 := math_pi * 2 in
     decay <- get Tones.ping_decay ;;
     n_pings <- get Tones.n_pings ;;
     for_in (range 0 n_pings)
       (fun ping output =>
          ind <- read Tones.ping_inds ping ;;
          ping_samples <- get Tones.ping_samples ;;
          if (ping_samples <=? ind)%Z then mret output
          else
            let ngen := Z.min (Z.of_nat n_samp) (ping_samples - ind) in
            finc <- read Tones.ping_incs ping ;;
            farg <- read Tones.ping_args ping ;;
            famp <- read Tones.ping_amps ping ;;
            r <- lift (for_each (range 0 (Z.to_nat ngen))
                   (fun i '(output, famp, farg) =>
                      (o <- getitem output i ;;
                       output <- setitem output i (o + famp * math_sin farg) ;;
                       ret (output, famp * decay,
                            math_fmod (farg + finc) pi2))%res)
                   (output, famp, farg)) ;;
            let '(output, famp, farg) := r in
            write Tones.ping_amps set_ping_amps ping famp ;;
            write Tones.ping_args set_ping_args ping farg ;;
            ind <- read Tones.ping_inds ping ;;
            write Tones.ping_inds set_ping_inds ping (ind + ngen)%Z ;;
            mret output) output)%M.

(** [Tones.GetSamples], lines 357-368. *)
Definition GetSamples (n_samp : nat) : M Tones (list Z) :=
  (let pi2 := 2 * math_pi in
   let sig := repeat 0%Z n_samp in
   pings <- GeneratePingSignal n_samp ;;
   for_in (range 0 n_samp)
     (fun i sig =>
        sum <- lift (getitem pings i) ;;
        chord_is_on <- get Tones.chord_is_on ;;
        sum <- (if chord_is_on then
                  n_notes <- get Tones.n_notes ;;
                  for_in (range 0 n_notes)
                    (fun j sum =>
                       amp <- read Tones.amps j ;;
                       arg <- read Tones.args j ;;
                       let sum := sum + amp * math_sin arg in
                       arg <- read Tones.args j ;;
                       inc <- read Tones.incs j ;;
                       write Tones.args set_args j
                         (math_fmod (arg + inc) pi2) ;;
                       mret sum) sum
                else mret sum) ;;
        lift (setitem sig i (int sum))) sig)%M.

End WithLibm.

End Tones.

(** *** class Tones, on doubles with their range

    The class over again with [double] for its floats, to state what the
    methods do when a value is not finite or leaves the range of a
    double. *)

Module Ranged.

Record Tones : Type := mkTones {
  fs : double;
  notes : list double;
  args : list double;
  incs : list double;
  amps : list double;
  n_notes : nat;
  ping_notes : list double;
  ping_args : list double;
  ping_incs : list double;
  ping_amps : list double;
  ping_decay : double;
  ping_reset_amp : double;
  ping_samples : Z;
  ping_inds : list Z;
  n_pings : nat;
  ping_is_on : bool;
  chord_is_on : bool;
  detune_is_on : bool
}.

(** Attribute assignment, one function per attribute. *)
Definition set_notes (x : list double) (s : Tones) : Tones :=
  mkTones (fs s) x (args s) (incs s) (amps s) (n_notes s) (ping_notes s)
    (ping_args s) (ping_incs s) (ping_amps s) (ping_decay s)
    (ping_reset_amp s) (ping_samples s) (ping_inds s) (n_pings s)
    (ping_is_on s) (chord_is_on s) (detune_is_on s).

Definition set_args (x : list double) (s : Tones) : Tones :=
  mkTones (fs s) (notes s) x (incs s) (amps s) (n_notes s) (ping_notes s)
    (ping_args s) (ping_incs s) (ping_amps s) (ping_decay s)
    (ping_reset_amp s) (ping_samples s) (ping_inds s) (n_pings s)
    (ping_is_on s) (chord_is_on s) (detune_is_on s).

Definition set_incs (x : list double) (s : Tones) : Tones :=
  mkTones (fs s) (notes s) (args s) x (amps s) (n_notes s) (ping_notes s)
    (ping_args s) (ping_incs s) (ping_amps s) (ping_decay s)
    (ping_reset_amp s) (ping_samples s) (ping_inds s) (n_pings s)
    (ping_is_on s) (chord_is_on s) (detune_is_on s).

Definition set_amps (x : list double) (s : Tones) : Tones :=
  mkTones (fs s) (notes s) (args s) (incs s) x (n_notes s) (ping_notes s)
    (ping_args s) (ping_incs s) (ping_amps s) (ping_decay s)
    (ping_reset_amp s) (ping_samples s) (ping_inds s) (n_pings s)
    (ping_is_on s) (chord_is_on s) (detune_is_on s).

Definition set_n_notes (x : nat) (s : Tones) : Tones :=
  mkTones (fs s) (notes s) (args s) (incs s) (amps s) x (ping_notes s)
    (ping_args s) (ping_incs s) (ping_amps s) (ping_decay s)
    (ping_reset_amp s) (ping_samples s) (ping_inds s) (n_pings s)
    (ping_is_on s) (chord_is_on s) (detune_is_on s).

Definition set_ping_notes (x : list double) (s : Tones) : Tones :=
  mkTones (fs s) (notes s) (args s) (incs s) (amps s) (n_notes s) x
    (ping_args s) (ping_incs s) (ping_amps s) (ping_decay s)
    (ping_reset_amp s) (ping_samples s) (ping_inds s) (n_pings s)
    (ping_is_on s) (chord_is_on s) (detune_is_on s).

Definition set_ping_args (x : list double) (s : Tones) : Tones :=
  mkTones (fs s) (notes s) (args s) (incs s) (amps s) (n_notes s)
    (ping_notes s) x (ping_incs s) (ping_amps s) (ping_decay s)
    (ping_reset_amp s) (ping_samples s) (ping_inds s) (n_pings s)
    (ping_is_on s) (chord_is_on s) (detune_is_on s).

Definition set_ping_incs (x : list double) (s : Tones) : Tones :=
  mkTones (fs s) (notes s) (args s) (incs s) (amps s) (n_notes s)
    (ping_notes s) (ping_args s) x (ping_amps s) (ping_decay s)
    (ping_reset_amp s) (ping_samples s) (ping_inds s) (n_pings s)
    (ping_is_on s) (chord_is_on s) (detune_is_on s).

Definition set_ping_amps (x : list double) (s : Tones) : Tones :=
  mkTones (fs s) (notes s) (args s) (incs s) (amps s) (n_notes s)
    (ping_notes s) (ping_args s) (ping_incs s) x (ping_decay s)
    (ping_reset_amp s) (ping_samples s) (ping_inds s) (n_pings s)
    (ping_is_on s) (chord_is_on s) (detune_is_on s).

Definition set_ping_decay (x : double) (s : Tones) : Tones :=
  mkTones (fs s) (notes s) (args s) (incs s) (amps s) (n_notes s)
    (ping_notes s) (ping_args s) (ping_incs s) (ping_amps s) x
    (ping_reset_amp s) (ping_samples s) (ping_inds s) (n_pings s)
    (ping_is_on s) (chord_is_on s) (detune_is_on s).

Definition set_ping_reset_amp (x : double) (s : Tones) : Tones :=
  mkTones (fs s) (notes s) (args s) (incs s) (amps s) (n_notes s)
    (ping_notes s) (ping_args s) (ping_incs s) (ping_amps s) (ping_decay s)
    x (ping_samples s) (ping_inds s) (n_pings s) (ping_is_on s)
    (chord_is_on s) (detune_is_on s).

Definition set_ping_samples (x : Z) (s : Tones) : Tones :=
  mkTones (fs s) (notes s) (args s) (incs s) (amps s) (n_notes s)
    (ping_notes s) (ping_args s) (ping_incs s) (ping_amps s) (ping_decay s)
    (ping_reset_amp s) x (ping_inds s) (n_pings s) (ping_is_on s)
    (chord_is_on s) (detune_is_on s).

Definition set_ping_inds (x : list Z) (s : Tones) : Tones :=
  mkTones (fs s) (notes s) (args s) (incs s) (amps s) (n_notes s)
    (ping_notes s) (ping_args s) (ping_incs s) (ping_amps s) (ping_decay s)
    (ping_reset_amp s) (ping_samples s) x (n_pings s) (ping_is_on s)
    (chord_is_on s) (detune_is_on s).

Definition set_n_pings (x : nat) (s : Tones) : Tones :=
  mkTones (fs s) (notes s) (args s) (incs s) (amps s) (n_notes s)
    (ping_notes s) (ping_args s) (ping_incs s) (ping_amps s) (ping_decay s)
    (ping_reset_amp s) (ping_samples s) (ping_inds s) x (ping_is_on s)
    (chord_is_on s) (detune_is_on s).

Definition set_ping_is_on (x : bool) (s : Tones) : Tones :=
  mkTones (fs s) (notes s) (args s) (incs s) (amps s) (n_notes s)
    (ping_notes s) (ping_args s) (ping_incs s) (ping_amps s) (ping_decay s)
    (ping_reset_amp s) (ping_samples s) (ping_inds s) (n_pings s) x
    (chord_is_on s) (detune_is_on s).

Definition set_chord_is_on (x : bool) (s : Tones) : Tones :=
  mkTones (fs s) (notes s) (args s) (incs s) (amps s) (n_notes s)
    (ping_notes s) (ping_args s) (ping_incs s) (ping_amps s) (ping_decay s)
    (ping_reset_amp s) (ping_samples s) (ping_inds s) (n_pings s)
    (ping_is_on s) x (detune_is_on s).

Definition set_detune_is_on (x : bool) (s : Tones) : Tones :=
  mkTones (fs s) (notes s) (args s) (incs s) (amps s) (n_notes s)
    (ping_notes s) (ping_args s) (ping_incs s) (ping_amps s) (ping_decay s)
    (ping_reset_amp s) (ping_samples s) (ping_inds s) (n_pings s)
    (ping_is_on s) (chord_is_on s) x.

(** [self.a[i]] and [self.a[i] = x] for a list attribute [a]. *)
Definition read {A : Type} (f : Tones -> list A) (i : nat) : M Tones A :=
  (l <- get f ;; lift (getitem l i))%M.

Definition write {A : Type} (f : Tones -> list A)
    (set : list A -> Tones -> Tones) (i : nat) (x : A) : M Tones unit :=
  (l <- get f ;; l' <- lift (setitem l i x) ;; modify (set l'))%M.

(** An [int] where a float is expected. *)
Definition float_of_nat (n : nat) : double := finite (inject_Z (Z.of_nat n)).

Definition ToggleDetune : M Tones unit :=
  (b <- get Ranged.detune_is_on ;; modify (set_detune_is_on (negb b)))%M.

Definition TogglePing : M Tones unit :=
  (b <- get Ranged.ping_is_on ;; modify (set_ping_is_on (negb b)))%M.

Definition ToggleChord : M Tones unit :=
  (b <- get Ranged.chord_is_on ;; modify (set_chord_is_on (negb b)))%M.

(** [Tones.ResetPings], lines 282-291. *)
Definition ResetPings (max_notes : nat) : M Tones unit :=
  (modify (set_ping_notes (repeat (finite 0) max_notes)) ;;
   modify (set_ping_args (repeat (finite 0) max_notes)) ;;
   modify (set_ping_incs (repeat (finite 0) max_notes)) ;;
   amp <- lift (ddiv (finite 32000) (float_of_nat max_notes)) ;;
   modify (set_ping_reset_amp amp) ;;
   modify (set_ping_amps (repeat (finite 0) max_notes)) ;;
   modify (set_ping_decay (finite (9995 # 10000))) ;;
   fs <- get Ranged.fs ;;
   samples <- lift (dint (dmul fs (finite 1))) ;;
   modify (set_ping_samples samples) ;;
   ping_samples <- get Ranged.ping_samples ;;
   modify (set_ping_inds (repeat ping_samples max_notes)) ;;
   modify (set_n_pings 0))%M.

(** [Tones.ResetChord], lines 293-299. *)
Definition ResetChord (max_notes : nat) : M Tones unit :=
  (modify (set_notes (repeat (finite 0) max_notes)) ;;
   modify (set_args (repeat (finite 0) max_notes)) ;;
   modify (set_incs (repeat (finite 0) max_notes)) ;;
   amp <- lift (ddiv (finite 6000) (float_of_nat max_notes)) ;;
   modify (set_amps (repeat amp max_notes)) ;;
   modify (set_n_notes 0))%M.

Section WithLibm.
Context {libm : Libm}.

(** [Tones.SetupPings], lines 301-314.  [random_random i] is the value that
    the [i]-th call of [random.random()] made by this call returns. *)
Definition SetupPings (random_random : nat -> Q) (ping_notes : list double)
    (time_const dur : double) : M Tones unit :=
  (n_pings <- get Ranged.n_pings ;;
   (if (n_pings <? List.length ping_notes)%nat
    then ResetPings (List.length ping_notes) else mret tt) ;;
   modify (set_ping_notes ping_notes) ;;
   let pi2 := dmul (finite math_pi) (finite 2) in
   fs <- get Ranged.fs ;;
   samples <- lift (dint (dmul dur fs)) ;;
   modify (set_ping_samples samples) ;;
   e <- lift (ddiv (finite (- (1))) (dmul time_const fs)) ;;
   decay <- lift (dexp e) ;;
   modify (set_ping_decay decay) ;;
   for_in (range 0 (List.length ping_notes))
     (fun i (_ : unit) =>
        detune_is_on <- get Ranged.detune_is_on ;;
        note <- lift (getitem ping_notes i) ;;
        let freq :=
          if detune_is_on
          then dadd (dmul (finite 8) (finite (random_random i - (1 # 2))))
                 note
          else note in
        fs <- get Ranged.fs ;;
        inc <- lift (ddiv (dmul pi2 freq) fs) ;;
        write Ranged.ping_incs set_ping_incs i inc) tt ;;
   modify (set_n_pings (List.length ping_notes)))%M.

(** [Tones.Ping], lines 316-321.  [if new_ping_freq] is false for [None] and
    for [0.0]. *)
Definition Ping (ping_ind : nat) (new_ping_freq : option double)
    : M Tones unit :=
  ((match new_ping_freq with
    | None => mret tt
    | Some f =>
        if dbool f then
          fs <- get Ranged.fs ;;
          inc <- lift (ddiv (dmul (dmul (finite 2) (finite math_pi)) f) fs) ;;
          write Ranged.ping_incs set_ping_incs ping_ind inc
        else mret tt
    end) ;;
   ping_reset_amp <- get Ranged.ping_reset_amp ;;
   write Ranged.ping_amps set_ping_amps ping_ind ping_reset_amp ;;
   write Ranged.ping_inds set_ping_inds ping_ind 0%Z ;;
   write Ranged.ping_args set_ping_args ping_ind (finite 0))%M.

(** [Tones.ChangeChord], lines 323-330.  The argument is a list or [None];
    [len(None)] raises. *)
Definition ChangeChord (new_notes : option (list double)) : M Tones unit :=
  match new_notes with
  | None => mraise TypeError
  | Some new_notes =>
      (notes <- get Ranged.notes ;;
       (if (List.length notes <? List.length new_notes)%nat
        then ResetChord (List.length new_notes) else mret tt) ;;
       modify (set_notes new_notes) ;;
       modify (set_n_notes (List.length new_notes)) ;;
       let pi2 := dmul (finite math_pi) (finite 2) in
       n_notes <- get Ranged.n_notes ;;
       for_in (range 0 n_notes)
         (fun i (_ : unit) =>
            note <- read Ranged.notes i ;;
            fs <- get Ranged.fs ;;
            inc <- lift (ddiv (dmul pi2 note) fs) ;;
            write Ranged.incs set_incs i inc) tt)%M
  end.

(** [Tones.__init__], lines 251-271. *)
Definition init (sample_rate : double) : Tones * res unit :=
  (ResetChord 4 ;;
   modify (set_ping_decay (finite (9995 # 10000))) ;;
   modify (set_ping_reset_amp (finite 1000)) ;;
   ResetPings 10)%M
  (mkTones sample_rate [] [] [] [] 0 [] [] [] [] (finite 0) (finite 0) 0 []
     0 true true true).

(** One sample of one ping, lines 349-351. *)
Definition ping_sample (pi2 decay finc : double) (i : nat)
    (x : list double * double * double)
    : res (list double * double * double) :=
  let '(output, famp, farg) := x in
  (o <- getitem output i ;;
   sine <- dsin farg ;;
   output <- setitem output i (dadd o (dmul famp sine)) ;;
   let famp := dmul famp decay in
   farg <- dfmod (dadd farg finc) pi2 ;;
   ret (output, famp, farg))%res.

(** One ping, lines 342-354. *)
Definition ping_signal (n_samp : nat) (pi2 decay : double) (ping : nat)
    (output : list double) : M Tones (list double) :=
  (ind <- read Ranged.ping_inds ping ;;
   ping_samples <- get Ranged.ping_samples ;;
   if (ping_samples <=? ind)%Z then mret output
   else
     let ngen := Z.min (Z.of_nat n_samp) (ping_samples - ind) in
     finc <- read Ranged.ping_incs ping ;;
     farg <- read Ranged.ping_args ping ;;
     famp <- read Ranged.ping_amps ping ;;
     r <- lift (for_each (range 0 (Z.to_nat ngen))
            (ping_sample pi2 decay finc) (output, famp, farg)) ;;
     let '(output, famp, farg) := r in
     write Ranged.ping_amps set_ping_amps ping famp ;;
     write Ranged.ping_args set_ping_args ping farg ;;
     ind <- read Ranged.ping_inds ping ;;
     write Ranged.ping_inds set_ping_inds ping (ind + ngen)%Z ;;
     mret output)%M.

(** [Tones.GeneratePingSignal], lines 335-355. *)
Definition GeneratePingSignal (n_samp : nat) : M Tones (list double) :=
  (let output := repeat (finite 0) n_samp in
   ping_is_on <- get Ranged.ping_is_on ;;
   if negb ping_is_on then mret output
   else
     let pi2 := dmul (finite math_pi) (finite 2) in
     decay <- get Ranged.ping_decay ;;
     n_pings <- get Ranged.n_pings ;;
     for_in (range 0 n_pings) (ping_signal n_samp pi2 decay) output)%M.

(** One oscillator of the chord in one sample, lines 365-366. *)
Definition chord_sample (pi2 : double) (j : nat) (sum : double)
    : M Tones double :=
  (amp <- read Ranged.amps j ;;
   arg <- read Ranged.args j ;;
   sine <- lift (dsin arg) ;;
   let sum := dadd sum (dmul amp sine) in
   arg <- read Ranged.args j ;;
   inc <- read Ranged.incs j ;;
   arg <- lift (dfmod (dadd arg inc) pi2) ;;
   write Ranged.args set_args j arg ;;
   mret sum)%M.

(** One sample, lines 362-367. *)
Definition sample (pi2 : double) (pings : list double) (i : nat)
    (sig : list Z) : M Tones (list Z) :=
  (sum <- lift (getitem pings i) ;;
   chord_is_on <- get Ranged.chord_is_on ;;
   sum <- (if chord_is_on then
             n_notes <- get Ranged.n_notes ;;
             for_in (range 0 n_notes) (chord_sample pi2) sum
           else mret sum) ;;
   value <- lift (dint sum) ;;
   lift (setitem sig i value))%M.

(** [Tones.GetSamples], lines 357-368. *)
Definition GetSamples (n_samp : nat) : M Tones (list Z) :=
  (let pi2 := dmul (finite 2) (finite math_pi) in
   let sig := repeat 0%Z n_samp in
   pings <- GeneratePingSignal n_samp ;;
   for_in (range 0 n_samp) (sample pi2 pings) sig)%M.

End WithLibm.

End Ranged.

(** *** class Music *)

Module Music.

(** One [print] statement of [Music.ChangeChord]: the chord specifier and
    the note names printed. *)
Definition printed : Type := (string * option (list string))%type.

(** The attributes of [Music] that the chord and ping operations use, and
    the two output streams.  The audio stream and its settings are left
    out. *)
Record Music : Type := mkMusic {
  fs : Q;
  progression : list string;
  tonic : string;
  n_semis : nat;
  tone_gen : Tones.Tones;
  note_gen : option Notes.Notes;
  chords : list (option (list Q));
  names : list (option (list string));
  print_progression : bool;
  stdout : list printed;
  stderr : list string
}.

Definition set_progression (x : list string) (s : Music) : Music :=
  mkMusic (fs s) x (tonic s) (n_semis s) (tone_gen s) (note_gen s)
    (chords s) (names s) (print_progression s) (stdout s) (stderr s).

Definition set_tonic (x : string) (s : Music) : Music :=
  mkMusic (fs s) (progression s) x (n_semis s) (tone_gen s) (note_gen s)
    (chords s) (names s) (print_progression s) (stdout s) (stderr s).

Definition set_n_semis (x : nat) (s : Music) : Music :=
  mkMusic (fs s) (progression s) (tonic s) x (tone_gen s) (note_gen s)
    (chords s) (names s) (print_progression s) (stdout s) (stderr s).

Definition set_tone_gen (x : Tones.Tones) (s : Music) : Music :=
  mkMusic (fs s) (progression s) (tonic s) (n_semis s) x (note_gen s)
    (chords s) (names s) (print_progression s) (stdout s) (stderr s).

Definition set_note_gen (x : option Notes.Notes) (s : Music) : Music :=
  mkMusic (fs s) (progression s) (tonic s) (n_semis s) (tone_gen s) x
    (chords s) (names s) (print_progression s) (stdout s) (stderr s).

Definition set_chords (x : list (option (list Q))) (s : Music) : Music :=
  mkMusic (fs s) (progression s) (tonic s) (n_semis s) (tone_gen s)
    (note_gen s) x (names s) (print_progression s) (stdout s) (stderr s).

Definition set_names (x : list (option (list string))) (s : Music) : Music :=
  mkMusic (fs s) (progression s) (tonic s) (n_semis s) (tone_gen s)
    (note_gen s) (chords s) x (print_progression s) (stdout s) (stderr s).

Definition set_print_progression (x : bool) (s : Music) : Music :=
  mkMusic (fs s) (progression s) (tonic s) (n_semis s) (tone_gen s)
    (note_gen s) (chords s) (names s) x (stdout s) (stderr s).

Definition set_stdout (x : list printed) (s : Music) : Music :=
  mkMusic (fs s) (progression s) (tonic s) (n_semis s) (tone_gen s)
    (note_gen s) (chords s) (names s) (print_progression s) x (stderr s).

Definition set_stderr (x : list string) (s : Music) : Music :=
  mkMusic (fs s) (progression s) (tonic s) (n_semis s) (tone_gen s)
    (note_gen s) (chords s) (names s) (print_progression s) (stdout s) x.

(** A call of a method of [self.tone_gen]. *)
Definition on_tone_gen {A : Type} (m : M Tones.Tones A) : M Music A :=
  fun s => let '(t, r) := m (tone_gen s) in (set_tone_gen t s, r).

(** A call of a method of [Notes]: what it wrote goes to [sys.stderr]. *)
Definition told {A : Type} (r : Notes.reply A) : M Music A :=
  fun s => (set_stderr (stderr s ++ fst r) s, snd r).

Section WithLibm.
Context {libm : Libm}.

(** [Music.__init__], lines 373-387. *)
Definition init (sample_rate : Q) (tonic : string) : res Music :=
  match Tones.init sample_rate with
  | (_, inl e) => raise e
  | (t, inr _) =>
      ret (mkMusic sample_rate
             ["I"; "iii"; "vi"; "V"; "I"; "vi"; "iii"; "IV"; "V"]%string
             tonic 24 t None [] [] false [] [])
  end.

(** [Music.SetupProgression], lines 389-403.  An argument left out, [None],
    an empty list, an empty string and [0] are all false. *)
Definition SetupProgression (chord_seq : option (list string))
    (tonic : option string) (n_semitones : option nat) : M Music unit :=
  ((match chord_seq with
    | Some (c :: l) => modify (set_progression (c :: l))
    | _ => told (["No progression specified; using default."%string],
                 ret tt)
    end) ;;
   (match tonic with
    | Some (String c t) => modify (set_tonic (String c t))
    | _ => mret tt
    end) ;;
   (match n_semitones with
    | Some (S n) => modify (set_n_semis (S n))
    | _ => mret tt
    end) ;;
   modify (set_chords []) ;;
   modify (set_names []) ;;
   tonic <- get Music.tonic ;;
   n_semis <- get Music.n_semis ;;
   note_gen <- told (Notes.init tonic n_semis) ;;
   modify (set_note_gen (Some note_gen)) ;;
   progression <- get Music.progression ;;
   for_in progression
     (fun chord (_ : unit) =>
        notes <- told (Notes.ChordSpecToNotes note_gen chord) ;;
        chords <- get Music.chords ;;
        modify (set_chords (chords ++ [notes])) ;;
        nms <- told (Notes.ChordSpecToNoteNames note_gen chord) ;;
        names <- get Music.names ;;
        modify (set_names (names ++ [nms]))) tt)%M.

(** [Music.ChangeChord], lines 444-447. *)
Definition ChangeChord (chord_ind : nat) : M Music unit :=
  (print_progression <- get Music.print_progression ;;
   (if print_progression then
      progression <- get Music.progression ;;
      spec <- lift (getitem progression chord_ind) ;;
      names <- get Music.names ;;
      nms <- lift (getitem names chord_ind) ;;
      out <- get Music.stdout ;;
      modify (set_stdout (out ++ [(spec, nms)]))
    else mret tt) ;;
   chords <- get Music.chords ;;
   chord <- lift (getitem chords chord_ind) ;;
   on_tone_gen (Tones.ChangeChord chord))%M.

End WithLibm.

(** The [for note in notes] loop of lines 455-459, with its [break]. *)
Fixpoint ping_round (notes : list Q) (multiplier : Q) (n_pings : nat)
    (pings : list Q) (pingc : nat) : list Q * nat :=
  match notes with
  | [] => (pings, pingc)
  | note :: rest =>
      let pings := (pings ++ [note * multiplier])%list in
      let pingc := (pingc + 1)%nat in
      if (n_pings <=? pingc)%nat then (pings, pingc)
      else ping_round rest multiplier n_pings pings pingc
  end.

(** The [while pingc <= n_pings] loop of lines 454-460.  [fuel] bounds the
    iterations unfolded; [None] means that the loop is still running when
    the bound is reached. *)
Fixpoint ping_loop (fuel : nat) (notes : list Q) (n_pings pingc : nat)
    (multiplier : Q) (pings : list Q) : option (list Q) :=
  match fuel with
  | O => None
  | S fuel' =>
      if (pingc <=? n_pings)%nat then
        let '(pings, pingc) :=
          ping_round notes multiplier n_pings pings pingc in
        ping_loop fuel' notes n_pings pingc (multiplier * 2) pings
      else Some pings
  end.

(** The list [pings] of lines 450-461, sorted.  Every iteration over a
    non-empty chord increments [pingc], so [n_pings + 2] iterations are
    enough for it; over an empty chord the loop never ends. *)
Definition ChordCompatiblePingNotes (notes : list Q) (n_pings : nat)
    : option (list Q) :=
  option_map (sort Qle_bool)
    (ping_loop (S (S n_pings)) notes n_pings 0 1 []).

Section WithLibm.
Context {libm : Libm}.

(** [Music.MakeChordCompatiblePingNotes], lines 449-462.  The result is
    [None] when the call does not return. *)
Definition MakeChordCompatiblePingNotes (random_random : nat -> Q)
    (chord_ind n_pings : nat) (s : Music) : option (Music * res unit) :=
  match getitem (chords s) chord_ind with
  | inl e => Some (s, inl e)
  | inr None => Some (s, inl TypeError)
  | inr (Some notes) =>
      match ChordCompatiblePingNotes notes n_pings with
      | None => None
      | Some pings =>
          Some (on_tone_gen
                  (Tones.SetupPings random_random pings (1 # 2) 1) s)
      end
  end.

(** [Music.Ping], line 465. *)
Definition Ping (note_ind : nat) : M Music unit :=
  on_tone_gen (Tones.Ping note_ind None).

Definition TogglePrintProgression : M Music unit :=
  (b <- get Music.print_progression ;;
   modify (set_print_progression (negb b)))%M.

End WithLibm.

End Music.

End tune.

(** ** balls9.py: the classes that drive the synthesizer *)

Module Orbits.
Import Py tune.

(** [Orbits.Increment], lines 215-220, without the timer: the tick, then one
    [Ping] for every ball that collided.  Python does not fix the order in
    which a set is gone through; here it is the order in which the indices
    were added, and [Increment_returns] shows that the order makes no
    difference. *)
Definition Increment (balls : list balls9.Ball) (music : Music.Music)
    : option (Music.Music * res balls9.tick) :=
  match balls9.UpdatePositions balls with
  | None => None
  | Some (inl e) => Some (music, inl e)
  | Some (inr t) =>
      Some ((for_in (balls9.t_collided t)
               (fun ball_ind (_ : unit) => Music.Ping ball_ind) tt ;;
             mret t)%M music)
  end.

End Orbits.

Module Baller.
Import Py tune.


Section WithLibm.
Context {libm : Libm}.



End WithLibm.

End Baller.

Import Py.

(** ** Vocabulary of the statements *)

(** What a perfectly elastic collision must keep: the pair returned has the
    momentum and the kinetic energy of the pair given. *)
Definition conserves (E : Q -> Q -> Q -> Q -> res (Q * Q))
    (m1 m2 v1 v2 : Q) : Prop :=
  exists v1' v2' : Q,
    E m1 m2 v1 v2 = inr (v1', v2') /\
    m1 * v1' + m2 * v2' == m1 * v1 + m2 * v2 /\
    (1 # 2) * m1 * v1' ^ 2 + (1 # 2) * m2 * v2' ^ 2
      == (1 # 2) * m1 * v1 ^ 2 + (1 # 2) * m2 * v2 ^ 2.

(** Four balls in the size and velocity ranges that [Baller.CreateBalls]
    draws from, close together on the track. *)
Definition crowded_balls : list balls9.Ball :=
  [ balls9.mkBall (1029 # 1000) (- (9 # 1000)) 95 0;
    balls9.mkBall (124 # 125) (1 # 125) 94 1;
    balls9.mkBall (51 # 50) (- (1 # 500)) 28 2;
    balls9.mkBall (513 # 500) (- (11 # 1000)) 27 3 ].

(** The shape of the collision loop of one tick, read off the record of its
    passes: between one and five passes ran, every pass but the last found a
    collision, a run shorter than five passes ended on a pass without
    collisions, and the diagnostic was printed exactly when five passes
    ran. *)
Definition loop_shape (t : balls9.tick) : Prop :=
  (1 <= List.length (balls9.t_passes t) <= 5)%nat /\
  Forall (fun c => c <> O) (removelast (balls9.t_passes t)) /\
  ((List.length (balls9.t_passes t) < 5)%nat ->
   last (balls9.t_passes t) 1%nat = O) /\
  (In "Collision Failure"%string (balls9.t_stdout t) <->
   List.length (balls9.t_passes t) = 5%nat).

(** No pair of balls collides in the state that a tick reached: one more
    pass over it counts no collision. *)
Definition settled (t : balls9.tick) : bool :=
  match balls9.pass (balls9.t_balls t) (balls9.t_collided t) with
  | inr s => (balls9.s_collisions s =? 0)%nat
  | inl _ => false
  end.

(** Every ball has a positive mass, as the balls that [CreateBalls] and the
    callers of [Orbits] make do. *)
Definition positive_masses (bs : list balls9.Ball) : Prop :=
  Forall (fun b => 0 < balls9.m b) bs.

(** *** Evaluation in lowest terms

    Arithmetic on [Q] does not reduce fractions, so the numbers of a tick
    grow with every collision.  [pass_lowest] and [resolve_lowest] are the
    loops of [balls9] over again, except that every ball is put back in
    lowest terms after each pair; they serve to evaluate a tick and are
    related to the loops of the program by [resolve_lowest_rel]. *)

Module Mirror.
Import balls9.

(** The same ball, up to the representation of its rational fields. *)
Definition ball_eq (a b : Ball) : Prop :=
  angle a == angle b /\ v a == v b /\ m a == m b /\ ball_ind a = ball_ind b.

Definition scan_eq (s s' : scan) : Prop :=
  Forall2 ball_eq (s_balls s) (s_balls s') /\
  s_collisions s = s_collisions s' /\ s_collided s = s_collided s'.

Definition tick_eq (t t' : tick) : Prop :=
  Forall2 ball_eq (t_balls t) (t_balls t') /\
  t_collided t = t_collided t' /\ t_stdout t = t_stdout t' /\
  t_passes t = t_passes t'.

Definition res_rel {A : Type} (R : A -> A -> Prop) (x y : res A) : Prop :=
  match x, y with
  | inl e, inl e' => e = e'
  | inr a, inr b => R a b
  | _, _ => False
  end.

Definition lowest (b : Ball) : Ball :=
  mkBall (Qred (angle b)) (Qred (v b)) (Qred (m b)) (ball_ind b).

Definition lowest_scan (s : scan) : scan :=
  mkScan (map lowest (s_balls s)) (s_collisions s) (s_collided s).

Definition pass_lowest (balls : list Ball) (collided : list nat) : res scan :=
  let n := List.length balls in
  for_each (range 0 (n - 1))
    (fun b => for_each (range (b + 1) n)
       (fun b2 s => match pair_step b b2 s with
                    | inl e => inl e
                    | inr s' => inr (lowest_scan s')
                    end))
    (mkScan balls 0 collided).

Fixpoint resolve_lowest (fuel count : nat) (t : tick) : option (res tick) :=
  match fuel with
  | O => None
  | S fuel' =>
      if (count <? 5)%nat then
        match pass_lowest (t_balls t) (t_collided t) with
        | inl e => Some (inl e)
        | inr s =>
            let count := (count + 1)%nat in
            let stdout :=
              if (4 <? count)%nat
              then (t_stdout t ++ ["Collision Failure"%string])%list
              else t_stdout t in
            let t' := mkTick (s_balls s) (s_collided s) stdout
                        (t_passes t ++ [s_collisions s]) in
            if (s_collisions s =? 0)%nat then Some (inr t')
            else resolve_lowest fuel' count t'
        end
      else Some (inr t)
  end.

Definition opt_rel {A : Type} (R : A -> A -> Prop) (x y : option A) : Prop :=
  match x, y with
  | Some a, Some b => R a b
  | None, None => True
  | _, _ => False
  end.

End Mirror.

(** The index that stands for a stacked offset [n] in a table of [size]
    notes, lines 224-227. *)
Definition wrap (size n : Z) : Z := if (size <=? n)%Z then (n mod 12)%Z else n.

(** The stack of offsets of a triad or seventh chord on [root]. *)
Definition stacked (root : Z) (offsets : list Z) : Prop :=
  exists (int_2 int_3 : Z) (seventh : list Z),
    offsets = (root :: root + int_2 :: root + int_2 + int_3 :: seventh)%Z /\
    (3 <= int_2 <= 4)%Z /\ (3 <= int_3 <= 4)%Z /\
    (seventh = [] \/
     exists int_7 : Z, seventh = [(root + int_7)%Z] /\ (9 <= int_7 <= 11)%Z).

Definition table24 : tune.Notes.Notes :=
  tune.Notes.mkNotes "C" 24
    (map (fun k => 440 + inject_Z (Z.of_nat k)) (seq 0 24))
    (tune.Notes.c_sharp_names ++ tune.Notes.c_sharp_names).

(** The factor of the [k]-th octave, as the loop computes it: [1.0]
    doubled [k] times. *)
Definition octave (k : nat) : Q := Nat.iter k (fun x => x * 2) 1.


(** The [k]-th frequency of the chord [notes] repeated octave after octave:
    the chord as it is, then doubled, then doubled again. *)
Definition octave_note (notes : list Q) (k : nat) : Q :=
  nth (k mod List.length notes) notes 0 * octave (k / List.length notes).

(** What the loop of [MakeChordCompatiblePingNotes] collects for a required
    count [n], in the order in which it appends: the first [n] frequencies
    of the repeated chord, and then the first frequency of the chord once
    more, in the octave after the one that was reached. *)
Definition octave_run (notes : list Q) (n : nat) : list Q :=
  (map (octave_note notes) (seq 0 n) ++
   [nth 0 notes 0
    * octave (match n with
              | O => O
              | S m => S (m / List.length notes)
              end)])%list.

(** Stand-ins for the transcendental functions, for the places where a call
    is evaluated on a concrete input: the first terms of their series.  The
    theorems are stated for every [Libm]; this one only feeds the worked
    examples. *)
Definition sample_libm : Libm := {|
  math_sin := fun x => x - x * x * x / 6;
  math_exp := fun x => 1 + x + x * x / 2;
  float_pow := fun x y => 1 + y * (x - 1)
|}.

(** A synthesizer at 22050 samples per second whose only chord is the
    triad 220, 275, 330 Hz. *)
Definition sample_music : tune.Music.Music :=
  tune.Music.mkMusic 22050 ["I"%string] "C" 24
    (fst (tune.Tones.init 22050)) None [Some [220; 275; 330]]
    [Some ["C"; "E"; "G"]%string] false [] [].

(** *** States of the synthesis engine *)

Module Engine.
Import tune tune.Tones.

(** The calls that the rest of the program makes on a [Tones] object.
    [ResetChord] and [ResetPings] are listed with the positive sizes that
    every call site passes: the constants 4 and 10, and the length of a list
    longer than another. *)
Inductive call : Type :=
| CallResetChord (max_notes : nat)
| CallResetPings (max_notes : nat)
| CallChangeChord (new_notes : option (list Q))
| CallSetupPings (random_random : nat -> Q) (ping_notes : list Q)
    (time_const dur : Q)
| CallPing (ping_ind : nat) (new_ping_freq : option Q)
| CallToggleDetune
| CallTogglePing
| CallToggleChord
| CallGetSamples (n_samp : nat).

Definition positive_size (c : call) : Prop :=
  match c with
  | CallResetChord k | CallResetPings k => (0 < k)%nat
  | _ => True
  end.

Section WithLibm.
Context {libm : Libm}.

(** The state that a call leaves, whether it returns or raises. *)
Definition after (c : call) (s : Tones) : Tones :=
  match c with
  | CallResetChord k => fst (ResetChord k s)
  | CallResetPings k => fst (ResetPings k s)
  | CallChangeChord new_notes => fst (ChangeChord new_notes s)
  | CallSetupPings r l t d => fst (SetupPings r l t d s)
  | CallPing i f => fst (Ping i f s)
  | CallToggleDetune => fst (ToggleDetune s)
  | CallTogglePing => fst (TogglePing s)
  | CallToggleChord => fst (ToggleChord s)
  | CallGetSamples n => fst (GetSamples n s)
  end.

(** The states of a synthesis engine: what the constructor builds, and what
    any sequence of calls makes of it. *)
Inductive reachable : Tones -> Prop :=
| reachable_init (sample_rate : Q) : reachable (fst (init sample_rate))
| reachable_after (c : call) (s : Tones) :
    reachable s -> positive_size c -> reachable (after c s).

End WithLibm.

(** The banks are consistent: the lists of a bank have one length, the bank
    size, and the count of active oscillators does not exceed it. *)
Definition chord_bank_ok (s : Tones) : Prop :=
  List.length (args s) = List.length (amps s) /\
  List.length (incs s) = List.length (amps s) /\
  (List.length (notes s) <= List.length (amps s))%nat /\
  (n_notes s <= List.length (amps s))%nat.

Definition ping_bank_ok (s : Tones) : Prop :=
  List.length (ping_args s) = List.length (ping_amps s) /\
  List.length (ping_incs s) = List.length (ping_amps s) /\
  List.length (ping_inds s) = List.length (ping_amps s) /\
  (n_pings s <= List.length (ping_amps s))%nat.

(** Every sustained oscillator has the amplitude that the last reset gave
    it: the total amplitude divided by the bank size. *)
Definition level (s : Tones) : Prop :=
  (0 < List.length (amps s))%nat /\
  amps s = repeat (6000 / float_of_nat (List.length (amps s)))
             (List.length (amps s)).

Definition consistent (s : Tones) : Prop :=
  chord_bank_ok s /\ ping_bank_ok s /\ level s.

(** [s] has the bank sizes and the active counts of [s0]. *)
Definition same_shape (s0 s : Tones) : Prop :=
  List.length (args s) = List.length (args s0) /\
  List.length (incs s) = List.length (incs s0) /\
  List.length (amps s) = List.length (amps s0) /\
  n_notes s = n_notes s0 /\
  List.length (ping_args s) = List.length (ping_args s0) /\
  List.length (ping_incs s) = List.length (ping_incs s0) /\
  List.length (ping_amps s) = List.length (ping_amps s0) /\
  List.length (ping_inds s) = List.length (ping_inds s0) /\
  n_pings s = n_pings s0 /\
  ping_is_on s = ping_is_on s0 /\ chord_is_on s = chord_is_on s0.

End Engine.

(** *** Reasoning about methods *)

(** From a state satisfying [P], the method [m] either returns a value and a
    state satisfying [Q], or raises in a state satisfying [E]. *)
Definition triple {S A : Type} (P : S -> Prop) (m : tune.M S A)
    (Q : A -> S -> Prop) (E : S -> Prop) : Prop :=
  forall s, P s ->
    match m s with
    | (s', inr a) => Q a s'
    | (s', inl _) => E s'
    end.

(** [m] keeps the property [I] of the object, whether it returns or
    raises. *)
Definition preserves {S A : Type} (I : S -> Prop) (m : tune.M S A) : Prop :=
  triple I m (fun _ => I) I.

(** From a state satisfying [P], [m] returns, with a value and a state
    satisfying [Q]. *)
Definition returns {S A : Type} (P : S -> Prop) (m : tune.M S A)
    (Q : A -> S -> Prop) : Prop :=
  triple P m Q (fun _ => False).

(** A synthesizer that has played one sample of the triad 220, 275,
    330 Hz. *)
Definition played : tune.Tones.Tones :=
  let s := fst (tune.Tones.init 22050) in
  let s := fst (tune.Tones.ChangeChord (Some [220; 275; 330]) s) in
  fst (tune.Tones.GetSamples (libm := sample_libm) 1 s).

(** A synthesizer set up for three pings, the first of which has been
    triggered. *)
Definition pinged : tune.Tones.Tones :=
  let s := fst (tune.Tones.init 22050) in
  let s := fst (tune.Tones.SetupPings (libm := sample_libm) (fun _ => 1 # 2)
                  [220; 275; 330] (1 # 2) 1 s) in
  fst (tune.Tones.Ping 0 None s).

(** *** Progressions *)

Module Progression.
Import tune tune.Music.

(** The attributes that [SetupProgression] works with, after its first three
    statements: an argument that is left out or false keeps the attribute as
    it is. *)
Definition progression_in_effect (chord_seq : option (list string))
    (s : Music) : list string :=
  match chord_seq with
  | Some (c :: l) => c :: l
  | _ => progression s
  end.

Definition tonic_in_effect (tonic : option string) (s : Music) : string :=
  match tonic with
  | Some (String c t) => String c t
  | _ => Music.tonic s
  end.

Definition n_semis_in_effect (n_semitones : option nat) (s : Music) : nat :=
  match n_semitones with
  | Some (S n) => S n
  | _ => n_semis s
  end.

(** The entry that a specifier gets in [self.chords]: its frequencies, or
    [None]. *)
Definition resolved (note_gen : Notes.Notes) (spec : string)
    : option (list Q) :=
  match snd (Notes.ChordSpecToNotes note_gen spec) with
  | inr chord => chord
  | inl _ => None
  end.

(** What chord resolution writes for a specifier that it does not
    recognize. *)
Definition bad_chord (spec : string) : string :=
  ("Bad chord specification (" ++ spec ++ ")")%string.

End Progression.

(** The object that [Music(audio, 22050.0, 'C4')] builds. *)
Definition new_music : tune.Music.Music :=
  tune.Music.mkMusic 22050
    ["I"; "iii"; "vi"; "V"; "I"; "vi"; "iii"; "IV"; "V"]%string
    "C4" 24 (fst (tune.Tones.init 22050)) None [] [] false [] [].

(** The note table of 24 semitones from C4, with [sample_libm] standing in
    for the power function. *)
Definition sample_table : tune.Notes.Notes :=
  match snd (tune.Notes.init (libm := sample_libm) "C4" 24) with
  | inr note_gen => note_gen
  | inl _ => table24
  end.

(** ** Vocabulary of the further properties *)

(** [i] lies 0, [third] or 7 semitones above [base_i], up to octaves: it is
    a tone of the triad on [base_i] whose third is [third] semitones wide. *)
Definition chord_tone (third base_i i : Z) : Prop :=
  ((i - base_i) mod 12 = 0 \/ (i - base_i) mod 12 = third \/
   (i - base_i) mod 12 = 7)%Z.

(** Where in the triad the loop of [MakeMajorChords] stands when [skipi] is
    the index of its next step. *)
Definition phase_offset (third : Z) (skipi : nat) : Z :=
  match skipi with O => 0 | 1%nat => third | _ => 7 end%Z.



(** Every pendulum has a positive mass and a length other than zero. *)
Definition sound_pends (ps : list pend.Pend) : Prop :=
  Forall (fun p => 0 < pend.mass p /\ ~ pend.length p == 0) ps.

(** The shape of the collision loop of one round of the pendulum thread, as
    [loop_shape] has it for the balls. *)
Definition round_shape (t : pend.round) : Prop :=
  (1 <= List.length (pend.r_passes t) <= 5)%nat /\
  Forall (fun c => c <> O) (removelast (pend.r_passes t)) /\
  ((List.length (pend.r_passes t) < 5)%nat ->
   last (pend.r_passes t) 1%nat = O) /\
  (In "Collision failure"%string (pend.r_stdout t) <->
   List.length (pend.r_passes t) = 5%nat).

(** The three ranges that [UpdateColor] divides by are positive. *)
Definition ranges_ok (r : balls9.Ranges) : Prop :=
  balls9.mom_low r < balls9.mom_high r /\
  balls9.e_low r < balls9.e_high r /\
  balls9.e_gain_low r < balls9.e_gain_high r.

(** The three colour weights are integers from 0 to 255. *)
Definition weights_ok (c : balls9.Colour) : Prop :=
  (0 <= balls9.mom_n c <= 255)%Z /\ (0 <= balls9.e_n c <= 255)%Z /\
  (0 <= balls9.e_gain_n c <= 255)%Z.

(** Two hexadecimal digits, the first of which may be [0]. *)
Definition hex_pair (n : Z) : string :=
  String (hex_digit (Z.to_nat (n / 16)))
    (String (hex_digit (Z.to_nat (n mod 16))) EmptyString).

(** The total momentum and the total kinetic energy of the balls on the
    track. *)
Definition momentum (bs : list balls9.Ball) : Q :=
  fold_right (fun b acc => balls9.m b * balls9.v b + acc) 0 bs.

Definition kinetic_energy (bs : list balls9.Ball) : Q :=
  fold_right (fun b acc => (1 # 2) * balls9.m b * balls9.v b ^ 2 + acc) 0 bs.

(** An angle strictly inside one turn either way. *)
Definition in_circle (a : Q) : Prop := - (2 * math_pi) < a /\ a < 2 * math_pi.

(** What the collision passes of a tick keep of the balls [balls0] that they
    started from: masses, angles and indices ball by ball, and the two
    totals. *)
Definition kept (balls0 bs : list balls9.Ball) : Prop :=
  map balls9.m bs = map balls9.m balls0 /\
  map balls9.angle bs = map balls9.angle balls0 /\
  map balls9.ball_ind bs = map balls9.ball_ind balls0 /\
  momentum bs == momentum balls0 /\
  kinetic_energy bs == kinetic_energy balls0.

(** What a pass that started with the set [c0] has made of it so far. *)
Definition hits_ok (inds c0 : list nat) (s : balls9.scan) : Prop :=
  NoDup (balls9.s_collided s) /\ incl (balls9.s_collided s) inds /\
  (balls9.s_collisions s = O -> balls9.s_collided s = c0) /\
  (balls9.s_collisions s <> O -> balls9.s_collided s <> []).

(** What the loop of a tick has made of the set [collided] so far. *)
Definition tick_hits (inds : list nat) (t : balls9.tick) : Prop :=
  NoDup (balls9.t_collided t) /\ incl (balls9.t_collided t) inds /\
  (balls9.t_collided t = [] <-> Forall (eq O) (balls9.t_passes t)).


(** The sum of the amplitudes of the sustained oscillators that sound. *)
Definition chord_level (s : tune.Tones.Tones) : Q :=
  fold_right Qplus 0 (firstn (tune.Tones.n_notes s) (tune.Tones.amps s)).


(** The engine after [Ping(i)] on a slot of the bank. *)
Definition rearmed (i : nat) (s : tune.Tones.Tones) : tune.Tones.Tones :=
  tune.Tones.set_ping_args (list_set (tune.Tones.ping_args s) i 0)
    (tune.Tones.set_ping_inds (list_set (tune.Tones.ping_inds s) i 0%Z)
       (tune.Tones.set_ping_amps
          (list_set (tune.Tones.ping_amps s) i (tune.Tones.ping_reset_amp s))
          s)).

(** A synthesizer that has played three samples of the triad 220, 275,
    330 Hz. *)
Definition sounding : tune.Tones.Tones :=
  Engine.after (libm := sample_libm) (Engine.CallGetSamples 3)
    (Engine.after (libm := sample_libm)
       (Engine.CallChangeChord (Some [220; 275; 330]))
       (fst (tune.Tones.init 22050))).



(** *** The range of the synthesis engine *)

Module Range.
Import tune tune.Ranged.

(** Half the largest double: two floats within it have a sum that is
    finite. *)
Definition half_range : Q := max_double / 2.

(** [x] is a finite float of magnitude at most [b]. *)
Definition within (b : Q) (x : double) : Prop :=
  exists q : Q, x = finite q /\ Qabs q <= b.

Definition is_finite (x : double) : Prop := exists q : Q, x = finite q.

(** The magnitude of a finite float. *)
Definition magnitude (x : double) : Q :=
  match x with
  | finite q => Qabs q
  | _ => 0
  end.

(** The magnitudes of the floats of [l], added up. *)
Definition total (l : list double) : Q :=
  fold_right (fun x acc => magnitude x + acc) 0 l.

(** The list [l] has [n] slots or more, and the first [n] satisfy [P]. *)
Definition active {A : Type} (P : A -> Prop) (n : nat) (l : list A) : Prop :=
  (n <= List.length l)%nat /\ Forall P (firstn n l).

(** The oscillators of the chord bank that sound hold finite floats, with
    phases and increments within half the range. *)
Definition chord_in_range (s : Tones) : Prop :=
  active (within half_range) (n_notes s) (args s) /\
  active (within half_range) (n_notes s) (incs s) /\
  active is_finite (n_notes s) (amps s).

(** The same for the pings that are set up, whose sample counters exist and
    whose decay factor is at most 1 in magnitude. *)
Definition pings_in_range (s : Tones) : Prop :=
  active (within half_range) (n_pings s) (ping_args s) /\
  active (within half_range) (n_pings s) (ping_incs s) /\
  active is_finite (n_pings s) (ping_amps s) /\
  (n_pings s <= List.length (ping_inds s))%nat /\
  within 1 (ping_decay s).

(** The amplitudes of all the oscillators that sound, added up. *)
Definition level (s : Tones) : Q :=
  total (firstn (n_notes s) (amps s)) +
  total (firstn (n_pings s) (ping_amps s)).

(** The state is in range: [GetSamples] meets no float that is not finite,
    and none of its sums leaves the range of a double. *)
Definition within_range (s : Tones) : Prop :=
  chord_in_range s /\ pings_in_range s /\ level s <= half_range.

(** Each bank is switched off or has no oscillator that sounds. *)
Definition silent (s : Tones) : Prop :=
  (ping_is_on s = false \/ n_pings s = O) /\
  (chord_is_on s = false \/ n_notes s = O).

End Range.

(** A stand-in for the sine that stays between -1 and 1, as the sine
    does. *)
Definition bounded_libm : Libm := {|
  math_sin := fun x => 2 * x / (1 + x * x);
  math_exp := fun x => 1 + x + x * x / 2;
  float_pow := fun x y => 1 + y * (x - 1)
|}.

Module RangeLoops.
Import tune tune.Ranged Range.

(** What [GeneratePingSignal] leaves of the chord bank. *)
Definition chord_kept (s0 s : Tones) : Prop :=
  args s = args s0 /\ incs s = incs s0 /\ amps s = amps s0 /\
  n_notes s = n_notes s0 /\ chord_is_on s = chord_is_on s0.

(** What the loops of [GetSamples] leave of the ping bank. *)
Definition pings_kept (s0 s : Tones) : Prop :=
  ping_args s = ping_args s0 /\ ping_incs s = ping_incs s0 /\
  ping_amps s = ping_amps s0 /\ ping_inds s = ping_inds s0 /\
  ping_decay s = ping_decay s0 /\ n_pings s = n_pings s0.

(** Ping [j] has sounded: its phase is within half the range, and its
    amplitude is finite and no larger than it was in [s0]. *)
Definition sounded (s0 s : Tones) (j : nat) : Prop :=
  exists x y y0 : double,
    nth_error (ping_args s) j = Some x /\ within half_range x /\
    nth_error (ping_amps s) j = Some y /\
    nth_error (ping_amps s0) j = Some y0 /\ within (magnitude y0) y.

(** The loop of [GeneratePingSignal] when it comes to ping [p], started in
    the state [s0]: the pings before [p] have sounded, the pings from [p]
    on are as they were, and every entry of [output] is within the
    amplitudes of the pings before [p], added up. *)
Definition ping_inv (s0 : Tones) (n_samp p : nat) (output : list double)
    (s : Tones) : Prop :=
  chord_kept s0 s /\
  ping_incs s = ping_incs s0 /\ ping_samples s = ping_samples s0 /\
  n_pings s = n_pings s0 /\ ping_decay s = ping_decay s0 /\
  List.length (ping_args s) = List.length (ping_args s0) /\
  List.length (ping_amps s) = List.length (ping_amps s0) /\
  List.length (ping_inds s) = List.length (ping_inds s0) /\
  (forall j, (j < p)%nat -> sounded s0 s j) /\
  (forall j, (p <= j)%nat ->
     nth_error (ping_args s) j = nth_error (ping_args s0) j /\
     nth_error (ping_amps s) j = nth_error (ping_amps s0) j) /\
  List.length output = n_samp /\
  Forall (within (total (firstn p (ping_amps s0)))) output.

(** The loops of [GetSamples], started in the state [s0] and come to the
    state [s1] after [GeneratePingSignal]: amplitudes and increments are as
    they were, the phases that sound are within half the range, and the
    pings are as in [s1]. *)
Definition chord_inv (s0 s1 s : Tones) : Prop :=
  amps s = amps s0 /\ incs s = incs s0 /\ n_notes s = n_notes s0 /\
  chord_is_on s = chord_is_on s0 /\
  active (within half_range) (n_notes s0) (args s) /\
  pings_kept s1 s.

End RangeLoops.

(** The double [1e308]. *)
Definition float_1e308 : Q := inject_Z (5010420900022432 * 2 ^ 971).

(** A synthesizer that was given a chord of the single frequency 1e308 Hz:
    the increment of its oscillator is an infinity. *)
Definition overdriven : tune.Ranged.Tones :=
  fst (tune.Ranged.ChangeChord (Some [finite float_1e308])
         (fst (tune.Ranged.init (finite 22050)))).

(** A synthesizer that sounds the triad 220, 275, 330 Hz and two of three
    pings on it. *)
Definition ringing : tune.Ranged.Tones :=
  let s := fst (tune.Ranged.init (finite 22050)) in
  let s := fst (tune.Ranged.ChangeChord
                  (Some [finite 220; finite 275; finite 330]) s) in
  let s := fst (tune.Ranged.SetupPings (libm := bounded_libm)
                  (fun _ => 3 # 4) [finite 220; finite 275; finite 330]
                  (finite (1 # 2)) (finite 1) s) in
  let s := fst (tune.Ranged.Ping 0 None s) in
  fst (tune.Ranged.Ping 2 None s).

(** * Properties *)

(** ** Collision kernel *)

Section Kernel.

Lemma fdiv_ok (x y : Q) : ~ y == 0 -> fdiv x y = inr (x / y).
Proof.
  intros Hy. unfold fdiv.
  destruct (Qeq_bool y 0) eqn:E; [|reflexivity].
  apply Qeq_bool_iff in E. contradiction.
Qed.

Lemma fdiv_zero (x y : Q) : y == 0 -> fdiv x y = inl ZeroDivisionError.
Proof.
  intros Hy. unfold fdiv.
  apply Qeq_bool_iff in Hy. now rewrite Hy.
Qed.

Lemma pend_Elastic_eq (m1 m2 v1 v2 : Q) :
  pend.Elastic m1 m2 v1 v2 = balls9.Elastic m1 m2 v1 v2.
Proof. reflexivity. Qed.

Lemma Elastic_ok (m1 m2 v1 v2 : Q) :
  ~ m1 + m2 == 0 ->
  balls9.Elastic m1 m2 v1 v2 =
  inr ((m2 * v2 + m1 * (2 * v1 - v2)) / (m1 + m2) + v2 - v1,
       (m2 * v2 + m1 * (2 * v1 - v2)) / (m1 + m2)).
Proof.
  intros H. unfold balls9.Elastic. now rewrite (fdiv_ok _ _ H).
Qed.

(** C1: for masses with [m1 + m2 <> 0], [Elastic] returns a pair of
    velocities with the same total momentum and the same total kinetic energy
    as the pair it was given, in exact rational arithmetic; this holds for
    the copy in [balls9.py] and for the copy in [pend.py]. *)
Theorem Elastic_conserves (m1 m2 v1 v2 : Q) :
  ~ m1 + m2 == 0 ->
  conserves balls9.Elastic m1 m2 v1 v2 /\ conserves pend.Elastic m1 m2 v1 v2.
Proof.
  intros H.
  assert (C : conserves balls9.Elastic m1 m2 v1 v2).
  { eexists; eexists. split; [apply (Elastic_ok _ _ _ _ H)|].
    split; field; exact H. }
  split; [exact C|].
  destruct C as (a & b & E & P & K).
  exists a, b. rewrite pend_Elastic_eq. auto.
Qed.

Lemma Elastic_conserves_witness :
  ~ 80 + 50 == 0 /\
  conserves balls9.Elastic 80 50 (1 # 100) (- (3 # 100)) /\
  conserves pend.Elastic 80 50 (1 # 100) (- (3 # 100)).
Proof.
  split; [vm_compute; discriminate|].
  apply (Elastic_conserves 80 50 (1 # 100) (- (3 # 100))).
  vm_compute. discriminate.
Defined.

Lemma Qltb_lt (x y : Q) : Qltb x y = true -> x < y.
Proof.
  unfold Qltb. intros H. apply negb_true_iff in H.
  apply Qnot_le_lt. intros L. apply Qle_bool_iff in L. congruence.
Qed.

Lemma Qle_bool_ext (x y z : Q) : x == y -> Qle_bool x z = Qle_bool y z.
Proof.
  intros E. destruct (Qle_bool y z) eqn:Hy.
  - apply Qle_bool_iff. apply Qle_bool_iff in Hy. now rewrite E.
  - destruct (Qle_bool x z) eqn:Hx; [|reflexivity].
    apply Qle_bool_iff in Hx. rewrite E in Hx. apply Qle_bool_iff in Hx.
    congruence.
Qed.

Lemma early_late_exclusive (a : Q) :
  Qltb a (math_pi * (1 # 2)) = true -> Qltb math_pi a = true -> False.
Proof.
  intros H1 H2. apply Qltb_lt in H1. apply Qltb_lt in H2.
  assert (P : math_pi * (1 # 2) < math_pi) by reflexivity.
  apply (Qlt_irrefl a). 
  apply Qlt_trans with (math_pi * (1 # 2)); [exact H1|].
  apply Qlt_trans with math_pi; assumption.
Qed.

(** The comparison that both variants of [WillCollide] end with, as a
    function of the two normalised angles and the two angular steps. *)
Lemma crossing_sym (A B va vb : Q) :
  (let '(sa, oa) :=
     if Qltb A (math_pi * (1 # 2)) && Qltb math_pi B then (A + 2 * math_pi, B)
     else if Qltb B (math_pi * (1 # 2)) && Qltb math_pi A
          then (A, B + 2 * math_pi) else (A, B) in
   Qle_bool ((sa - oa) * (sa + va - (oa + vb))) 0) =
  (let '(sa, oa) :=
     if Qltb B (math_pi * (1 # 2)) && Qltb math_pi A then (B + 2 * math_pi, A)
     else if Qltb A (math_pi * (1 # 2)) && Qltb math_pi B
          then (B, A + 2 * math_pi) else (B, A) in
   Qle_bool ((sa - oa) * (sa + vb - (oa + va))) 0).
Proof.
  destruct (Qltb A (math_pi * (1 # 2))) eqn:A1;
  destruct (Qltb math_pi B) eqn:B2;
  destruct (Qltb B (math_pi * (1 # 2))) eqn:B1;
  destruct (Qltb math_pi A) eqn:A2; cbn [andb];
  try (exfalso; eapply early_late_exclusive; eassumption);
  apply Qle_bool_ext; ring.
Qed.

(** C7: [WillCollide] gives the same answer whichever of the two bodies it
    is called on, for the balls of [balls9.py] and for the pendulums of
    [pend.py] (where both orders also raise together when a length is
    zero). *)
Theorem WillCollide_symmetric :
  (forall a b : balls9.Ball, balls9.WillCollide a b = balls9.WillCollide b a) /\
  (forall a b : pend.Pend, pend.WillCollide a b = pend.WillCollide b a).
Proof.
  split.
  - intros a b. unfold balls9.WillCollide. cbv zeta. apply crossing_sym.
  - intros a b. unfold pend.WillCollide. cbv zeta.
    set (A := if Qltb (pend.angle a) 0 then _ else _).
    set (B := if Qltb (pend.angle b) 0 then _ else _).
    unfold fdiv.
    destruct (Qltb A (math_pi * (1 # 2))) eqn:A1;
    destruct (Qltb math_pi B) eqn:B2;
    destruct (Qltb B (math_pi * (1 # 2))) eqn:B1;
    destruct (Qltb math_pi A) eqn:A2; cbn [andb];
    try (exfalso; eapply early_late_exclusive; eassumption);
    destruct (Qeq_bool (pend.length a) 0), (Qeq_bool (pend.length b) 0);
    cbn [bind raise ret]; try reflexivity;
    unfold ret; f_equal; apply Qle_bool_ext; ring.
Qed.

(** C10: for masses with [m1 + m2 <> 0], applying [Elastic] to the pair of
    velocities that [Elastic] returned gives back the original pair, in exact
    rational arithmetic. *)
Theorem Elastic_involution (m1 m2 v1 v2 : Q) :
  ~ m1 + m2 == 0 ->
  exists v1' v2' w1 w2 : Q,
    balls9.Elastic m1 m2 v1 v2 = inr (v1', v2') /\
    balls9.Elastic m1 m2 v1' v2' = inr (w1, w2) /\
    w1 == v1 /\ w2 == v2.
Proof.
  intros H. do 4 eexists.
  split; [apply (Elastic_ok _ _ _ _ H)|].
  split; [apply (Elastic_ok _ _ _ _ H)|].
  split; field; exact H.
Qed.

Lemma Elastic_involution_witness :
  ~ 80 + 50 == 0 /\
  exists v1' v2' w1 w2 : Q,
    balls9.Elastic 80 50 (1 # 100) (- (3 # 100)) = inr (v1', v2') /\
    balls9.Elastic 80 50 v1' v2' = inr (w1, w2) /\
    w1 == 1 # 100 /\ w2 == - (3 # 100).
Proof.
  split; [vm_compute; discriminate|].
  apply (Elastic_involution 80 50 (1 # 100) (- (3 # 100))).
  vm_compute. discriminate.
Defined.

End Kernel.

(** ** Runtime lemmas: lists and loops *)

Section Lists.

Lemma length_list_set {A : Type} (l : list A) (i : nat) (x : A) :
  List.length (list_set l i x) = List.length l.
Proof.
  revert i. induction l as [|h t IH]; intros [|i]; cbn; auto.
Qed.

Lemma list_set_Forall {A : Type} (P : A -> Prop) (l : list A) (i : nat)
    (x : A) :
  Forall P l -> P x -> Forall P (list_set l i x).
Proof.
  intros H Hx. revert i. induction H; intros [|i]; cbn; auto.
Qed.

Lemma in_range (lo hi i : nat) : In i (range lo hi) -> (lo <= i < hi)%nat.
Proof. unfold range. rewrite in_seq. lia. Qed.

(** A [for] loop whose body returns and keeps [I] returns and keeps [I]. *)
Lemma for_each_ok {A S : Type} (I : S -> Prop) (l : list A)
    (f : A -> S -> res S) :
  (forall a s, In a l -> I s -> exists s', f a s = inr s' /\ I s') ->
  forall s, I s -> exists s', for_each l f s = inr s' /\ I s'.
Proof.
  induction l as [|a l IH]; intros Hf s Hs; cbn [for_each].
  - exists s. auto.
  - destruct (Hf a s (or_introl eq_refl) Hs) as (s1 & -> & H1).
    apply IH; [|exact H1]. intros a' s' Hin. apply Hf. right. exact Hin.
Qed.

End Lists.

(** ** Body simulator *)

Section Simulator.

(** Every tick returns or raises, and a tick that returns has the loop shape:
    at most five passes, an early stop at the first pass without collisions,
    and the diagnostic exactly when the fifth pass ran. *)
Lemma UpdatePositions_loop (balls : list balls9.Ball) :
  exists outcome : res balls9.tick,
    balls9.UpdatePositions balls = Some outcome /\
    match outcome with
    | inl _ => True
    | inr t => loop_shape t
    end.
Proof.
  unfold balls9.UpdatePositions.
  set (t0 := balls9.mkTick _ _ _ _). 
  assert (H0 : balls9.t_passes t0 = [] /\ balls9.t_stdout t0 = []) by (split; reflexivity).
  clearbody t0. destruct H0 as [Hp Hs].
  unfold balls9.resolve. cbn [Nat.ltb Nat.leb Nat.add].
  repeat match goal with
  | |- context [balls9.pass ?b ?c] =>
      let s := fresh "s" in let E := fresh "E" in
      destruct (balls9.pass b c) as [?|s] eqn:E;
      [eexists; split; [reflexivity|exact I]|];
      cbn [balls9.t_balls balls9.t_collided balls9.t_stdout balls9.t_passes];
      let Z := fresh "Z" in
      destruct (Nat.eqb (balls9.s_collisions s) 0) eqn:Z;
      [apply Nat.eqb_eq in Z | apply Nat.eqb_neq in Z]
  end;
  (eexists; split; [reflexivity|]);
  unfold loop_shape; cbn [balls9.t_passes balls9.t_stdout]; rewrite Hp, Hs; cbn;
  repeat split; try lia; try tauto; try congruence;
  repeat constructor; try assumption; try (intros [?|?]; [discriminate|tauto]);
  try (intros; left; reflexivity).
Qed.

Import balls9 Mirror.

(** *** A tick over positive masses returns *)

Lemma Collide_returns (a b : Ball) :
  0 < m a -> 0 < m b ->
  exists (a' b' : Ball) (d : option (nat * nat)),
    Collide a b = inr (a', b', d) /\ m a' = m a /\ m b' = m b.
Proof.
  intros Ha Hb. unfold Collide. destruct (WillCollide a b).
  - assert (N : ~ m a + m b == 0).
    { intros E. assert (H : 0 < m a + m b).
      { rewrite <- (Qplus_0_l 0). apply Qplus_lt_le_compat;
          [exact Ha|apply Qlt_le_weak, Hb]. }
      rewrite E in H. apply (Qlt_irrefl 0 H). }
    rewrite (Elastic_ok _ _ _ _ N). cbn. eauto 6.
  - cbn. eauto 6.
Qed.

Lemma pair_step_returns (n b b2 : nat) (s : scan) :
  (b < n)%nat -> (b2 < n)%nat ->
  List.length (s_balls s) = n /\ positive_masses (s_balls s) ->
  exists s', pair_step b b2 s = inr s' /\
             List.length (s_balls s') = n /\ positive_masses (s_balls s').
Proof.
  intros Hb Hb2 [Hl Hp]. unfold pair_step, getitem.
  destruct (nth_error (s_balls s) b) as [x|] eqn:Ex;
    [|apply nth_error_None in Ex; lia].
  destruct (nth_error (s_balls s) b2) as [y|] eqn:Ey;
    [|apply nth_error_None in Ey; lia].
  unfold positive_masses in *. rewrite Forall_forall in Hp.
  pose proof (Hp x (nth_error_In _ _ Ex)) as Hx.
  pose proof (Hp y (nth_error_In _ _ Ey)) as Hy.
  destruct (Collide_returns x y Hx Hy) as (x' & y' & d & E & Mx & My).
  cbn -[Collide list_set set_add]. rewrite E. cbn -[list_set set_add].
  assert (F : Forall (fun b => 0 < m b)
                (list_set (list_set (s_balls s) b x') b2 y')).
  { apply list_set_Forall; [apply list_set_Forall|]; try congruence.
    apply Forall_forall. exact Hp. }
  destruct d as [[i j]|]; eexists; (split; [reflexivity|]); cbn;
    rewrite !length_list_set; auto.
Qed.

Lemma pass_returns (balls : list Ball) (collided : list nat) :
  positive_masses balls ->
  exists s, pass balls collided = inr s /\ positive_masses (s_balls s).
Proof.
  intros Hp. unfold pass.
  set (n := List.length balls).
  destruct (for_each_ok
              (fun s => List.length (s_balls s) = n /\
                        positive_masses (s_balls s))
              (Py.range 0 (n - 1))
              (fun b => for_each (Py.range (b + 1) n)
                          (fun b2 => pair_step b b2)))
    with (s := mkScan balls 0 collided) as (s & E & _ & H).
  - intros b s Hb Hs. apply in_range in Hb.
    apply for_each_ok; [|exact Hs].
    intros b2 s' Hb2 Hs'. apply in_range in Hb2.
    apply (pair_step_returns n); [lia|lia|exact Hs'].
  - split; [reflexivity|exact Hp].
  - exists s. auto.
Qed.

Lemma resolve_returns (fuel count : nat) (t : tick) :
  (5 - count < fuel)%nat -> positive_masses (t_balls t) ->
  exists t', resolve fuel count t = Some (inr t').
Proof.
  revert count t. induction fuel as [|fuel IH]; intros count t Hf Hp;
    [lia|].
  cbn [resolve]. destruct (count <? 5)%nat eqn:Ec; [|eauto].
  apply Nat.ltb_lt in Ec.
  destruct (pass_returns (t_balls t) (t_collided t) Hp) as (s & -> & Hs).
  destruct (s_collisions s =? 0)%nat; [eauto|].
  apply IH; [lia|exact Hs].
Qed.

(** C5, amended: for every collection of balls the tick ends;
    when it returns, between one and five passes over the pairs ran, every
    pass before the last found a collision, a run of fewer than five passes
    ended on a pass without collisions, and "Collision Failure" was printed
    exactly when the fifth pass ran, whatever that pass found.  The tick
    raises only when some ball has no positive mass. *)
Theorem UpdatePositions_diagnostic (balls : list Ball) :
  exists outcome : res tick,
    UpdatePositions balls = Some outcome /\
    match outcome with
    | inl _ => ~ positive_masses balls
    | inr t => loop_shape t
    end.
Proof.
  destruct (UpdatePositions_loop balls) as (outcome & E & H).
  exists outcome. split; [exact E|].
  destruct outcome as [e|t]; [|exact H].
  intros Hp. unfold UpdatePositions in E.
  destruct (resolve_returns 6 0
              (mkTick (map UpdatePosition balls) [] [] []))
    as (t' & E'); [lia| |congruence].
  cbn [t_balls]. unfold positive_masses in *.
  rewrite Forall_forall in *. intros b Hb.
  apply in_map_iff in Hb. destruct Hb as (b0 & <- & Hb0).
  apply (Hp b0 Hb0).
Qed.

(** *** Evaluation of a crowded tick *)

Lemma Qltb_compat (x x' y y' : Q) : x == x' -> y == y' -> Qltb x y = Qltb x' y'.
Proof.
  intros Hx Hy. unfold Qltb. f_equal.
  destruct (Qle_bool y' x') eqn:E.
  - apply Qle_bool_iff. apply Qle_bool_iff in E. now rewrite Hx, Hy.
  - destruct (Qle_bool y x) eqn:E'; [|reflexivity].
    apply Qle_bool_iff in E'. rewrite Hx, Hy in E'.
    apply Qle_bool_iff in E'. congruence.
Qed.

Lemma Qeq_bool_compat (x x' y y' : Q) :
  x == x' -> y == y' -> Qeq_bool x y = Qeq_bool x' y'.
Proof.
  intros Hx Hy. destruct (Qeq_bool x' y') eqn:E.
  - apply Qeq_bool_iff. apply Qeq_bool_iff in E. now rewrite Hx, Hy.
  - destruct (Qeq_bool x y) eqn:E'; [|reflexivity].
    apply Qeq_bool_iff in E'. rewrite Hx, Hy in E'.
    apply Qeq_bool_iff in E'. congruence.
Qed.

Lemma WillCollide_compat (a a' b b' : Ball) :
  ball_eq a a' -> ball_eq b b' -> WillCollide a b = WillCollide a' b'.
Proof.
  intros (Ha & Hva & _ & _) (Hb & Hvb & _ & _).
  unfold WillCollide. cbv zeta.
  rewrite (Qltb_compat (angle a) (angle a') 0 0 Ha (Qeq_refl 0)).
  rewrite (Qltb_compat (angle b) (angle b') 0 0 Hb (Qeq_refl 0)).
  set (A := if Qltb (angle a') 0 then 2 * math_pi + angle a else angle a).
  set (B := if Qltb (angle b') 0 then 2 * math_pi + angle b else angle b).
  set (A' := if Qltb (angle a') 0 then 2 * math_pi + angle a' else angle a').
  set (B' := if Qltb (angle b') 0 then 2 * math_pi + angle b' else angle b').
  assert (HA : A == A').
  { unfold A, A'. destruct (Qltb (angle a') 0); now rewrite Ha. }
  assert (HB : B == B').
  { unfold B, B'. destruct (Qltb (angle b') 0); now rewrite Hb. }
  clearbody A B A' B'.
  rewrite (Qltb_compat A A' _ _ HA (Qeq_refl _)).
  rewrite (Qltb_compat B B' _ _ HB (Qeq_refl _)).
  rewrite (Qltb_compat _ _ B B' (Qeq_refl math_pi) HB).
  rewrite (Qltb_compat _ _ A A' (Qeq_refl math_pi) HA).
  destruct (Qltb A' _ && Qltb _ B'); [|destruct (Qltb B' _ && Qltb _ A')];
    apply Qle_bool_ext; now rewrite HA, HB, Hva, Hvb.
Qed.

Lemma Elastic_compat (m1 m1' m2 m2' v1 v1' v2 v2' : Q) :
  m1 == m1' -> m2 == m2' -> v1 == v1' -> v2 == v2' ->
  res_rel (fun p q => fst p == fst q /\ snd p == snd q)
    (Elastic m1 m2 v1 v2) (Elastic m1' m2' v1' v2').
Proof.
  intros H1 H2 H3 H4. unfold Elastic, fdiv.
  rewrite (Qeq_bool_compat (m1 + m2) (m1' + m2') 0 0)
    by (now rewrite ?H1, ?H2).
  destruct (Qeq_bool (m1' + m2') 0); cbn; [reflexivity|].
  split; now rewrite H1, H2, H3, H4.
Qed.

Lemma ball_eq_refl (a : Ball) : ball_eq a a.
Proof. repeat split; reflexivity. Qed.

Lemma lowest_eq (a b : Ball) : ball_eq a b -> ball_eq a (lowest b).
Proof.
  intros (H1 & H2 & H3 & H4). unfold ball_eq, lowest; cbn.
  rewrite !Qred_correct. auto.
Qed.

Lemma Collide_compat (a a' b b' : Ball) :
  ball_eq a a' -> ball_eq b b' ->
  res_rel (fun r r' =>
             ball_eq (fst (fst r)) (fst (fst r')) /\
             ball_eq (snd (fst r)) (snd (fst r')) /\ snd r = snd r')
    (Collide a b) (Collide a' b').
Proof.
  intros Ha Hb. unfold Collide.
  rewrite (WillCollide_compat a a' b b' Ha Hb).
  destruct (WillCollide a' b').
  - destruct Ha as (Ha & Hva & Hma & Hia), Hb as (Hb & Hvb & Hmb & Hib).
    pose proof (Elastic_compat _ _ _ _ _ _ _ _ Hma Hmb Hva Hvb) as E.
    destruct (Elastic (m a) (m b) (v a) (v b)) as [e|[w1 w2]],
             (Elastic (m a') (m b') (v a') (v b')) as [e'|[w1' w2']];
      cbn in E |- *; try contradiction; [exact E|].
    destruct E as [E1 E2]. unfold ball_eq; cbn. rewrite Hia, Hib.
    repeat split; assumption.
  - cbn. auto.
Qed.

Lemma getitem_Forall2 {A : Type} (R : A -> A -> Prop) (l l' : list A)
    (i : nat) :
  Forall2 R l l' -> res_rel R (getitem l i) (getitem l' i).
Proof.
  intros H. revert i. induction H; intros [|i]; cbn; auto.
  apply IHForall2.
Qed.

Lemma list_set_Forall2 {A : Type} (R : A -> A -> Prop) (l l' : list A)
    (i : nat) (x x' : A) :
  Forall2 R l l' -> R x x' -> Forall2 R (list_set l i x) (list_set l' i x').
Proof.
  intros H Hx. revert i. induction H; intros [|i]; cbn; auto.
Qed.

Lemma pair_step_compat (b b2 : nat) (s s' : scan) :
  scan_eq s s' -> res_rel scan_eq (pair_step b b2 s) (pair_step b b2 s').
Proof.
  intros (Hb & Hc & Hd). unfold pair_step.
  pose proof (getitem_Forall2 _ _ _ b Hb) as G1.
  pose proof (getitem_Forall2 _ _ _ b2 Hb) as G2.
  destruct (getitem (s_balls s) b) as [e|x],
           (getitem (s_balls s') b) as [e'|x'];
    cbn in G1 |- *; try contradiction; [exact G1|].
  destruct (getitem (s_balls s) b2) as [e|y],
           (getitem (s_balls s') b2) as [e'|y'];
    cbn in G2 |- *; try contradiction; [exact G2|].
  pose proof (Collide_compat x x' y y' G1 G2) as C.
  destruct (Collide x y) as [e|[[x1 y1] d]],
           (Collide x' y') as [e'|[[x1' y1'] d']];
    cbn in C |- *; try contradiction; [exact C|].
  destruct C as (C1 & C2 & C3). subst d'.
  assert (F : Forall2 ball_eq
                (list_set (list_set (s_balls s) b x1) b2 y1)
                (list_set (list_set (s_balls s') b x1') b2 y1')).
  { apply list_set_Forall2; [apply list_set_Forall2|]; assumption. }
  destruct d as [[i j]|]; cbn; unfold scan_eq; cbn; rewrite Hc, Hd; auto.
Qed.

Lemma lowest_scan_eq (s s' : scan) : scan_eq s s' -> scan_eq s (lowest_scan s').
Proof.
  intros (Hb & Hc & Hd). unfold scan_eq, lowest_scan; cbn.
  repeat split; try assumption.
  clear Hc Hd. induction Hb; cbn; constructor; auto using lowest_eq.
Qed.

Lemma for_each_rel {A S : Type} (R : S -> S -> Prop) (l : list A)
    (f g : A -> S -> res S) :
  (forall a s s', R s s' -> res_rel R (f a s) (g a s')) ->
  forall s s', R s s' -> res_rel R (for_each l f s) (for_each l g s').
Proof.
  intros H. induction l as [|a l IH]; intros s s' Hs; cbn; [exact Hs|].
  specialize (H a s s' Hs).
  destruct (f a s), (g a s'); cbn in H |- *; try contradiction; auto.
Qed.

Lemma pass_lowest_rel (bs bs' : list Ball) (c : list nat) :
  Forall2 ball_eq bs bs' ->
  res_rel scan_eq (pass bs c) (pass_lowest bs' c).
Proof.
  intros H. unfold pass, pass_lowest.
  rewrite (Forall2_length H).
  apply for_each_rel; [|repeat split; assumption].
  intros b s s' Hs. apply for_each_rel; [|exact Hs].
  intros b2 s1 s1' Hs1.
  pose proof (pair_step_compat b b2 s1 s1' Hs1) as P.
  destruct (pair_step b b2 s1), (pair_step b b2 s1');
    cbn in P |- *; try contradiction; auto using lowest_scan_eq.
Qed.

Lemma pass_compat (bs bs' : list Ball) (c : list nat) :
  Forall2 ball_eq bs bs' -> res_rel scan_eq (pass bs c) (pass bs' c).
Proof.
  intros H. unfold pass. rewrite (Forall2_length H).
  apply for_each_rel; [|repeat split; assumption].
  intros b s s' Hs. apply for_each_rel; [|exact Hs].
  intros b2 s1 s1' Hs1. apply pair_step_compat, Hs1.
Qed.

Lemma resolve_lowest_rel (fuel count : nat) (t t' : tick) :
  tick_eq t t' ->
  opt_rel (res_rel tick_eq) (resolve fuel count t)
    (resolve_lowest fuel count t').
Proof.
  revert count t t'. induction fuel as [|fuel IH]; intros count t t' H;
    cbn [resolve resolve_lowest]; [exact I|].
  destruct (count <? 5)%nat; [|exact H].
  destruct H as (Hb & Hc & Ho & Hp).
  rewrite Hc.
  pose proof (pass_lowest_rel _ _ (t_collided t') Hb) as P.
  destruct (pass (t_balls t) (t_collided t')) as [e|s],
           (pass_lowest (t_balls t') (t_collided t')) as [e'|s'];
    cbn in P |- *; try contradiction; [exact P|].
  destruct P as (Pb & Pc & Pd). rewrite Pc, Pd, Ho, Hp.
  destruct (s_collisions s' =? 0)%nat.
  - cbn. repeat split; assumption.
  - apply IH. repeat split; assumption.
Qed.

Lemma lowest_start (bs : list Ball) :
  Forall2 ball_eq bs (map lowest bs).
Proof.
  induction bs; cbn; constructor; auto using lowest_eq, ball_eq_refl.
Qed.

(** C5 as stated fails: on [crowded_balls] the tick runs five passes, of
    which the first four find collisions and the fifth finds none; the cap
    is hit with no collision left, no pair collides in the state reached,
    and the diagnostic is printed all the same. *)
Theorem UpdatePositions_false_alarm :
  match balls9.UpdatePositions crowded_balls with
  | Some (inr t) =>
      balls9.t_passes t = [2; 2; 2; 1; 0]%nat /\
      balls9.t_stdout t = ["Collision Failure"%string] /\
      settled t = true
  | _ => False
  end.
Proof.
  unfold UpdatePositions.
  pose proof (resolve_lowest_rel 6 0
    (mkTick (map UpdatePosition crowded_balls) [] [] [])
    (mkTick (map lowest (map UpdatePosition crowded_balls)) [] [] [])) as R.
  destruct (resolve 6 0 _) as [[e|t]|];
  remember (resolve_lowest 6 0 _) as r eqn:E; vm_compute in E; subst r;
  (lapply R; [clear R; intros R|
              repeat split; cbn [t_balls]; apply lowest_start]);
  cbn in R; try contradiction.
  destruct R as (Rb & Rc & Ro & Rp).
  split; [exact Rp|]. split; [exact Ro|].
  unfold settled.
  pose proof (pass_compat _ _ (t_collided t) Rb) as P.
  rewrite Rc in P at 2. cbn [t_balls t_collided] in P.
  match type of P with
  | res_rel _ _ ?rhs => remember rhs as q eqn:Eq; vm_compute in Eq; subst q
  end.
  destruct (pass (t_balls t) _) as [e|s]; cbn in P; [contradiction|].
  destruct P as (_ & Pc & _). rewrite Pc. reflexivity.
Qed.

End Simulator.

(** ** Runtime lemmas: sorting and indexing *)

Section Sorting.
Context {A : Type} (leb : A -> A -> bool).
Hypothesis leb_total : forall x y, leb x y = true \/ leb y x = true.
Hypothesis leb_trans :
  forall x y z, leb x y = true -> leb y z = true -> leb x z = true.

Lemma insert_perm (x : A) (l : list A) : Permutation (insert leb x l) (x :: l).
Proof.
  induction l as [|y t IH]; cbn; [reflexivity|].
  destruct (leb x y); [reflexivity|].
  rewrite IH. apply perm_swap.
Qed.

Lemma sort_perm (l : list A) : Permutation (sort leb l) l.
Proof.
  induction l as [|x t IH]; cbn; [reflexivity|].
  rewrite insert_perm. now constructor.
Qed.

Lemma insert_sorted (x : A) (l : list A) :
  StronglySorted (fun a b => leb a b = true) l ->
  StronglySorted (fun a b => leb a b = true) (insert leb x l).
Proof.
  induction 1 as [|y t St IH Hy]; cbn.
  - repeat constructor.
  - destruct (leb x y) eqn:E.
    + constructor; [constructor; assumption|].
      constructor; [exact E|].
      eapply Forall_impl; [|exact Hy]. intros z Hz. eapply leb_trans; eassumption.
    + constructor; [exact IH|].
      eapply Permutation_Forall; [symmetry; apply insert_perm|].
      constructor; [|exact Hy].
      destruct (leb_total x y) as [H|H]; [congruence|exact H].
Qed.

Lemma sort_sorted (l : list A) :
  StronglySorted (fun a b => leb a b = true) (sort leb l).
Proof.
  induction l as [|x t IH]; cbn; [constructor|].
  now apply insert_sorted.
Qed.

End Sorting.

Lemma StronglySorted_weaken {A : Type} (R R' : A -> A -> Prop) (l : list A) :
  (forall x y, R x y -> R' x y) -> StronglySorted R l -> StronglySorted R' l.
Proof.
  intros H. induction 1; constructor; auto.
  eapply Forall_impl; [|eassumption]. auto.
Qed.

Lemma sort_Zleb_sorted (l : list Z) : StronglySorted Z.le (sort Z.leb l).
Proof.
  apply StronglySorted_weaken with (R := fun x y => Z.leb x y = true).
  - intros x y. apply Z.leb_le.
  - apply sort_sorted.
    + intros x y. rewrite !Z.leb_le. lia.
    + intros x y z. rewrite !Z.leb_le. lia.
Qed.

Lemma sort_Qle_sorted (l : list Q) : StronglySorted Qle (sort Qle_bool l).
Proof.
  apply StronglySorted_weaken with (R := fun x y => Qle_bool x y = true).
  - intros x y. apply Qle_bool_iff.
  - apply sort_sorted.
    + intros x y. rewrite !Qle_bool_iff.
      destruct (Qlt_le_dec x y) as [H|H]; [left; now apply Qlt_le_weak|now right].
    + intros x y z. rewrite !Qle_bool_iff. apply Qle_trans.
Qed.

Lemma getitem_int_ok {A : Type} (l : list A) (i : Z) :
  (- Z.of_nat (List.length l) <= i < Z.of_nat (List.length l))%Z ->
  exists a, getitem_int l i = inr a.
Proof.
  intros H. unfold getitem_int, getitem.
  destruct (0 <=? i)%Z eqn:E.
  - apply Z.leb_le in E.
    destruct (nth_error l (Z.to_nat i)) eqn:N; [eauto|].
    apply nth_error_None in N. lia.
  - apply Z.leb_gt in E.
    destruct (- Z.of_nat (List.length l) <=? i)%Z eqn:E2.
    + destruct (nth_error l (Z.to_nat (Z.of_nat (List.length l) + i))) eqn:N;
        [eauto|].
      apply nth_error_None in N. lia.
    + apply Z.leb_gt in E2. lia.
Qed.

Lemma map_res_ok {A B : Type} (f : A -> res B) (l : list A) :
  Forall (fun a => exists b, f a = inr b) l ->
  exists bs, map_res f l = inr bs /\ List.length bs = List.length l.
Proof.
  induction 1 as [|a t [b Hb] _ [bs [E L]]]; cbn.
  - exists []. auto.
  - rewrite Hb, E. exists (b :: bs). cbn. auto.
Qed.

(** ** Music-theory engine *)

Section Chords.
Import tune.Notes.

Lemma progression_steps_values (k : string) (x : Z) :
  lookup k progression_steps = Some x ->
  In x [0; 2; 4; 5; 7; 9; 11]%Z.
Proof.
  unfold progression_steps. cbn [lookup].
  repeat match goal with
  | |- context [String.eqb ?a ?b] => destruct (String.eqb a b)
  end; intros H; inversion H; cbn; tauto.
Qed.

Lemma wrap_bound (size n : Z) :
  (12 <= size)%Z -> (-1 <= n)%Z ->
  (-1 <= wrap size n < size)%Z /\ ((0 <= n)%Z -> (0 <= wrap size n)%Z).
Proof.
  intros Hs Hn. unfold wrap. destruct (size <=? n)%Z eqn:E.
  - pose proof (Z.mod_pos_bound n 12 ltac:(lia)). lia.
  - apply Z.leb_gt in E. lia.
Qed.

Lemma stacked_bound (root lo : Z) (offsets : list Z) :
  stacked root offsets -> (lo <= root)%Z ->
  offsets <> [] /\ Forall (fun n => (lo <= n)%Z) offsets.
Proof.
  intros (i2 & i3 & sev & -> & H2 & H3 & Hs) Hr.
  split; [discriminate|].
  repeat (constructor; [lia|]).
  destruct Hs as [->|(i7 & -> & H7)]; repeat constructor; lia.
Qed.

Lemma ChordSpecToIndices_cases (self : Notes) (spec : string) :
  (spec = EmptyString /\
   ChordSpecToIndices self spec = ([], inl IndexError)) \/
  ChordSpecToIndices self spec =
    ([("Bad chord specification (" ++ spec ++ ")")%string], inr None) \/
  exists (root : Z) (offsets : list Z),
    snd (ChordSpecToIndices self spec) =
      inr (Some (sort Z.leb
                   (map (wrap (Z.of_nat (List.length (notes self))))
                      offsets))) /\
    stacked root offsets /\ (-1 <= root <= 11)%Z /\
    ((forall rest, spec <> String "b" rest) -> (0 <= root)%Z).
Proof.
  unfold ChordSpecToIndices.
  destruct spec as [|c0 rest]; [left; split; reflexivity|right].
  destruct (Ascii.eqb c0 "b") eqn:Eb; cbv beta iota zeta.
  - apply Ascii.eqb_eq in Eb. subst c0.
    destruct (lookup _ progression_steps) as [interval|] eqn:L;
      [right|left; reflexivity].
    apply progression_steps_values in L.
    assert (0 <= interval <= 11)%Z by (cbn in L; lia).
    exists (interval - 1)%Z.
    destruct (islower _); destruct (char_in "o" rest);
      destruct (char_in "7" rest);
      try (destruct (existsb (String.eqb _) _)); cbn -[sort map Z.leb];
      match goal with |- context [map _ ?l] => exists l end;
      (split; [reflexivity|]);
      (split; [do 3 eexists; split; [reflexivity|];
               repeat split; try lia;
               first [left; reflexivity
                     |right; eexists; split; [reflexivity|lia]]|]);
      (split; [lia|]);
      intros N; exfalso; apply (N rest); reflexivity.
  - destruct (lookup _ progression_steps) as [interval|] eqn:L;
      [right|left; reflexivity].
    apply progression_steps_values in L.
    assert (0 <= interval <= 11)%Z by (cbn in L; lia).
    exists interval.
    destruct (islower _); destruct (char_in "o" _);
      destruct (char_in "7" _);
      try (destruct (existsb (String.eqb _) _)); cbn -[sort map Z.leb];
      match goal with |- context [map _ ?l] => exists l end;
      (split; [reflexivity|]);
      (split; [do 3 eexists; split; [reflexivity|];
               repeat split; try lia;
               first [left; reflexivity
                     |right; eexists; split; [reflexivity|lia]]|]);
      (split; [lia|]);
      intros _; lia.
Qed.

Lemma ChordSpecToIndices_shape (self : Notes) (spec : string)
    (inds : list Z) :
  snd (ChordSpecToIndices self spec) = inr (Some inds) ->
  exists (root : Z) (offsets : list Z),
    inds = sort Z.leb
             (map (wrap (Z.of_nat (List.length (notes self)))) offsets) /\
    stacked root offsets /\ (-1 <= root <= 11)%Z /\
    ((forall rest, spec <> String "b" rest) -> (0 <= root)%Z).
Proof.
  intros E.
  destruct (ChordSpecToIndices_cases self spec)
    as [[_ H]|[H|(root & offsets & H & R)]]; rewrite H in E;
    try discriminate.
  exists root, offsets. split; [congruence|exact R].
Qed.

Lemma wrapped_bounds (size root : Z) (offsets : list Z) :
  (12 <= size)%Z -> stacked root offsets -> (-1 <= root)%Z ->
  Forall (fun i => (-1 <= i < size)%Z)
    (sort Z.leb (map (wrap size) offsets)).
Proof.
  intros Hs Hst Hroot.
  destruct (stacked_bound root (-1) offsets Hst Hroot) as [_ Hlo].
  eapply Permutation_Forall; [symmetry; apply sort_perm|].
  apply Forall_map. eapply Forall_impl; [|exact Hlo].
  intros n Hn. apply (wrap_bound size n Hs Hn).
Qed.

(** C6, amended: over a note table of at least 12 entries, the indices that
    [ChordSpecToIndices] returns are in ascending order, are the stacked
    offsets with every offset at or past the table size reduced modulo 12,
    and lie in [-1, size): they are at least 0 unless the specifier is
    flatted, and [ChordSpecToNotes] indexes the table without raising (index
    -1 reads the last entry). *)
Theorem ChordSpecToIndices_in_table (self : Notes) (spec : string)
    (inds : list Z) :
  (12 <= List.length (notes self))%nat ->
  snd (ChordSpecToIndices self spec) = inr (Some inds) ->
  let size := Z.of_nat (List.length (notes self)) in
  StronglySorted Z.le inds /\
  (exists (root : Z) (offsets : list Z),
     stacked root offsets /\ (-1 <= root <= 11)%Z /\
     Permutation inds (map (wrap size) offsets)) /\
  Forall (fun i => (-1 <= i < size)%Z) inds /\
  ((forall rest, spec <> String "b" rest) ->
   Forall (fun i => (0 <= i < size)%Z) inds) /\
  (exists freqs : list Q,
     snd (ChordSpecToNotes self spec) = inr (Some freqs) /\
     List.length freqs = List.length inds).
Proof.
  intros Hsize Hinds. cbv zeta.
  destruct (ChordSpecToIndices_shape self spec inds Hinds)
    as (root & offsets & -> & Hst & Hroot & Hnonneg).
  destruct (stacked_bound root (-1) offsets Hst ltac:(lia)) as [Hne Hlo].
  remember (Z.of_nat (List.length (notes self))) as size eqn:Es.
  assert (Hs : (12 <= size)%Z) by lia.
  assert (B : Forall (fun i => (-1 <= i < size)%Z)
                (sort Z.leb (map (wrap size) offsets)))
    by (apply (wrapped_bounds size root offsets Hs Hst); lia).
  split; [apply sort_Zleb_sorted|].
  split; [exists root, offsets; auto using sort_perm|].
  split; [exact B|].
  split.
  - intros Hflat. eapply Permutation_Forall; [symmetry; apply sort_perm|].
    apply Forall_map. specialize (Hnonneg Hflat).
    destruct (stacked_bound root 0 offsets Hst Hnonneg) as [_ Hge].
    rewrite Forall_forall in Hge, Hlo. apply Forall_forall. intros n Hn.
    destruct (wrap_bound size n Hs (Hlo n Hn)) as [H1 H2].
    specialize (H2 (Hge n Hn)). lia.
  - unfold ChordSpecToNotes.
    destruct (ChordSpecToIndices self spec) as [err r]. cbn in Hinds. subst r.
    cbn [bind snd].
    destruct (sort Z.leb (map (wrap size) offsets)) as [|i0 rest] eqn:E.
    + exfalso. apply Hne.
      assert (P := sort_perm Z.leb (map (wrap size) offsets)).
      rewrite E in P. apply Permutation_nil in P.
      now apply map_eq_nil in P.
    + destruct (map_res_ok (getitem_int (notes self)) (i0 :: rest))
        as (freqs & Ef & Lf).
      { eapply Forall_impl; [|exact B]. intros i Hi.
        apply getitem_int_ok. cbv beta in Hi. lia. }
      cbv beta iota. unfold bind. rewrite Ef. cbn. eauto.
Qed.

Lemma ChordSpecToIndices_in_table_witness :
  (12 <= List.length (notes table24))%nat /\
  snd (ChordSpecToIndices table24 "vi") = inr (Some [9; 12; 16]%Z) /\
  StronglySorted Z.le [9; 12; 16]%Z /\
  (exists (root : Z) (offsets : list Z),
     stacked root offsets /\ (-1 <= root <= 11)%Z /\
     Permutation [9; 12; 16]%Z (map (wrap 24) offsets)) /\
  Forall (fun i => (-1 <= i < 24)%Z) [9; 12; 16]%Z /\
  ((forall rest, "vi"%string <> String "b" rest) ->
   Forall (fun i => (0 <= i < 24)%Z) [9; 12; 16]%Z) /\
  (exists freqs : list Q,
     snd (ChordSpecToNotes table24 "vi") = inr (Some freqs) /\
     List.length freqs = 3%nat).
Proof.
  split; [cbn; lia|]. split; [reflexivity|].
  apply (ChordSpecToIndices_in_table table24 "vi" [9; 12; 16]%Z).
  - cbn; lia.
  - reflexivity.
Defined.

(** C6 as stated fails: for the flatted tonic chord [bI] over a table of 24
    notes, the first index returned is -1. *)
Lemma ChordSpecToIndices_flat_tonic :
  ChordSpecToIndices table24 "bI" = ([], inr (Some [-1; 3; 6]%Z)) /\
  ~ (0 <= -1)%Z.
Proof. split; [reflexivity|lia]. Qed.

End Chords.

(** ** Ping notes *)

Section Pings.
Import tune.Music.

Lemma octave_power (k : nat) : octave k == 2 ^ Z.of_nat k.
Proof.
  induction k as [|k IH]; [reflexivity|].
  change (octave (S k)) with (octave k * 2). rewrite IH.
  rewrite Nat2Z.inj_succ, <- Z.add_1_r.
  rewrite Qpower_plus by discriminate. reflexivity.
Qed.



(** A pass over the rest of the chord in octave [j], from a count below the
    required one. *)
Lemma ping_round_run (notes : list Q) (n_pings j : nat) :
  forall (rest pre : list Q) (pingc : nat),
    notes = (pre ++ rest)%list ->
    pingc = (j * List.length notes + List.length pre)%nat ->
    (pingc < n_pings)%nat ->
    ping_round rest (octave j) n_pings
      (map (octave_note notes) (seq 0 pingc)) pingc
    = (map (octave_note notes)
         (seq 0 (Nat.min n_pings (S j * List.length notes))),
       Nat.min n_pings (S j * List.length notes)).
Proof.
  induction rest as [|note rest IH]; intros pre pingc Hn Hc Hlt.
  - cbn [ping_round]. rewrite app_nil_r in Hn. subst pre.
    replace (Nat.min n_pings (S j * List.length notes)) with pingc
      by (cbn; lia).
    reflexivity.
  - cbn [ping_round].
    assert (Hlen : List.length notes
                   = (List.length pre + S (List.length rest))%nat)
      by (rewrite Hn, length_app; reflexivity).
    assert (Hf : note * octave j = octave_note notes pingc).
    { unfold octave_note. rewrite Hc.
      rewrite Nat.add_comm, Nat.Div0.mod_add, Nat.div_add by lia.
      rewrite Nat.mod_small, Nat.div_small by lia. cbn [Nat.add].
      rewrite Hn. rewrite app_nth2, Nat.sub_diag by lia. reflexivity. }
    rewrite Hf.
    replace (map (octave_note notes) (seq 0 pingc)
             ++ [octave_note notes pingc])%list
      with (map (octave_note notes) (seq 0 (pingc + 1)))
      by (rewrite seq_app, map_app; reflexivity).
    destruct (n_pings <=? pingc + 1)%nat eqn:E.
    + apply Nat.leb_le in E.
      replace (Nat.min n_pings (S j * List.length notes))
        with (pingc + 1)%nat by (cbn; nia).
      reflexivity.
    + apply Nat.leb_gt in E.
      apply (IH (pre ++ [note])%list).
      * rewrite <- app_assoc. exact Hn.
      * rewrite length_app. cbn [List.length]. lia.
      * exact E.
Qed.

(** The loop from the start of octave [j], while the count is below the
    required one. *)
Lemma ping_loop_run (notes : list Q) (n_pings : nat) :
  notes <> [] ->
  forall (fuel j : nat),
    (j * List.length notes < n_pings)%nat ->
    (n_pings + 2 <= fuel + j * List.length notes)%nat ->
    ping_loop fuel notes n_pings (j * List.length notes) (octave j)
      (map (octave_note notes) (seq 0 (j * List.length notes)))
      = Some (octave_run notes n_pings).
Proof.
  intros Hne. induction fuel as [|fuel IH]; intros j Hlt Hf; [lia|].
  assert (HL : (0 < List.length notes)%nat)
    by (destruct notes; [congruence|cbn; lia]).
  cbn [ping_loop].
  replace (j * List.length notes <=? n_pings)%nat with true
    by (symmetry; apply Nat.leb_le; lia).
  rewrite (ping_round_run notes n_pings j notes [] (j * List.length notes)
             eq_refl ltac:(cbn; lia) Hlt).
  change (octave j * 2) with (octave (S j)).
  destruct (Nat.le_gt_cases n_pings (S j * List.length notes)) as [Hm|Hm].
  - rewrite Nat.min_l by exact Hm.
    destruct fuel as [|[|fuel]]; [cbn in Hf; nia|cbn in Hf; nia|].
    cbn [ping_loop]. rewrite Nat.leb_refl.
    unfold octave_run.
    destruct n_pings as [|m]; [lia|].
    replace (m / List.length notes)%nat with j
      by (apply Nat.div_unique with (m - j * List.length notes)%nat; nia).
    destruct notes as [|note rest]; [congruence|].
    cbn [ping_round nth].
    replace (S m <=? S m + 1)%nat with true
      by (symmetry; apply Nat.leb_le; lia).
    replace (S m + 1 <=? S m)%nat with false
      by (symmetry; apply Nat.leb_gt; lia).
    reflexivity.
  - rewrite Nat.min_r by lia. apply (IH (S j)); [exact Hm|nia].
Qed.

Lemma ChordCompatiblePingNotes_run (notes : list Q) (n_pings : nat) :
  notes <> [] ->
  ChordCompatiblePingNotes notes n_pings
    = Some (sort Qle_bool (octave_run notes n_pings)).
Proof.
  intros Hne. unfold ChordCompatiblePingNotes.
  destruct n_pings as [|m].
  - destruct notes as [|note rest]; [congruence|]. reflexivity.
  - pose proof (ping_loop_run notes (S m) Hne (S (S (S m))) 0
                  ltac:(cbn; lia) ltac:(cbn; lia)) as R.
    cbn [Nat.mul seq map] in R. change (octave 0) with 1 in R.
    rewrite R. reflexivity.
Qed.

Lemma octave_run_length (notes : list Q) (n : nat) :
  List.length (octave_run notes n) = S n.
Proof.
  unfold octave_run. rewrite length_app, length_map, length_seq. cbn. lia.
Qed.

(** C9: for a non-empty chord and any required count [n_pings],
    [MakeChordCompatiblePingNotes] returns, and the list it passes to
    [SetupPings] is in ascending order and is a rearrangement of
    [octave_run]: the chord's frequencies repeated at the octave factors
    1, 2, 4, ... up to the required count, and the first of them once more
    in the next octave, [n_pings + 1] frequencies in all. *)
Theorem MakeChordCompatiblePingNotes_pings {libm : Libm}
    (random_random : nat -> Q) (chord_ind n_pings : nat) (s : Music)
    (notes : list Q) :
  nth_error (chords s) chord_ind = Some (Some notes) ->
  notes <> [] ->
  exists pings : list Q,
    MakeChordCompatiblePingNotes random_random chord_ind n_pings s =
      Some (on_tone_gen
              (tune.Tones.SetupPings random_random pings (1 # 2) 1) s) /\
    List.length pings = S n_pings /\
    StronglySorted Qle pings /\
    Permutation (octave_run notes n_pings) pings.
Proof.
  intros Hc Hne. unfold MakeChordCompatiblePingNotes, getitem.
  rewrite Hc. cbn [ret].
  rewrite (ChordCompatiblePingNotes_run notes n_pings Hne).
  exists (sort Qle_bool (octave_run notes n_pings)).
  pose proof (sort_perm Qle_bool (octave_run notes n_pings)) as P.
  split; [reflexivity|].
  split; [rewrite (Permutation_length P); apply octave_run_length|].
  split; [apply sort_Qle_sorted|].
  symmetry. exact P.
Qed.

Lemma MakeChordCompatiblePingNotes_pings_witness :
  nth_error (chords sample_music) 0 = Some (Some [220; 275; 330]) /\
  [220; 275; 330] <> [] /\
  exists pings : list Q,
    MakeChordCompatiblePingNotes (libm := sample_libm) (fun _ => 1 # 2) 0 5
      sample_music =
      Some (on_tone_gen
              (tune.Tones.SetupPings (libm := sample_libm) (fun _ => 1 # 2)
                 pings (1 # 2) 1) sample_music) /\
    List.length pings = 6%nat /\
    StronglySorted Qle pings /\
    Permutation (octave_run [220; 275; 330] 5) pings.
Proof.
  split; [reflexivity|]. split; [discriminate|].
  apply (MakeChordCompatiblePingNotes_pings (libm := sample_libm)
           (fun _ => 1 # 2) 0 5 sample_music [220; 275; 330]);
    [reflexivity|discriminate].
Defined.

(** The run for the triad 220, 275, 330 Hz and five pings: the triad, its
    first two frequencies an octave up, and its first two octaves up. *)
Example octave_run_triad :
  octave_run [220; 275; 330] 5 =
  [220 * 1; 275 * 1; 330 * 1; 220 * (1 * 2); 275 * (1 * 2);
   220 * (1 * 2 * 2)].
Proof. reflexivity. Qed.

(** Over an empty chord the loop never ends: no bound is large enough. *)
Lemma ping_loop_empty (fuel n_pings : nat) (multiplier : Q) :
  ping_loop fuel [] n_pings 0 multiplier [] = None.
Proof.
  revert multiplier. induction fuel as [|fuel IH]; intros multiplier;
    [reflexivity|].
  cbn [ping_loop ping_round Nat.leb]. apply IH.
Qed.

End Pings.

(** ** Methods and their invariants *)

Section MethodLogic.
Import tune.
Context {S : Type}.

Lemma triple_ret {A : Type} (P : S -> Prop) (Q : A -> S -> Prop)
    (E : S -> Prop) (a : A) :
  (forall s, P s -> Q a s) -> triple P (mret a) Q E.
Proof. intros H s Hs. cbn. auto. Qed.

Lemma triple_raise {A : Type} (P : S -> Prop) (Q : A -> S -> Prop)
    (E : S -> Prop) (e : exn) :
  (forall s, P s -> E s) -> triple P (mraise e) Q E.
Proof. intros H s Hs. cbn. auto. Qed.

Lemma triple_get {A : Type} (P : S -> Prop) (Q : A -> S -> Prop)
    (E : S -> Prop) (f : S -> A) :
  (forall s, P s -> Q (f s) s) -> triple P (get f) Q E.
Proof. intros H s Hs. cbn. auto. Qed.

Lemma triple_modify (P : S -> Prop) (Q : unit -> S -> Prop) (E : S -> Prop)
    (f : S -> S) :
  (forall s, P s -> Q tt (f s)) -> triple P (modify f) Q E.
Proof. intros H s Hs. cbn. auto. Qed.

Lemma triple_lift {A : Type} (P : S -> Prop) (Q : A -> S -> Prop)
    (E : S -> Prop) (r : res A) :
  (forall s, P s -> match r with inr a => Q a s | inl _ => E s end) ->
  triple P (lift r) Q E.
Proof. intros H s Hs. specialize (H s Hs). unfold lift. now destruct r. Qed.

Lemma triple_bind {A B : Type} (P : S -> Prop) (R : A -> S -> Prop)
    (Q : B -> S -> Prop) (E : S -> Prop) (m : M S A) (k : A -> M S B) :
  triple P m R E -> (forall a, triple (R a) (k a) Q E) ->
  triple P (mbind m k) Q E.
Proof.
  intros Hm Hk s Hs. specialize (Hm s Hs). unfold mbind.
  destruct (m s) as [s' [e|a]]; [exact Hm|]. apply Hk, Hm.
Qed.

Lemma triple_weaken {A : Type} (P P' : S -> Prop) (Q Q' : A -> S -> Prop)
    (E E' : S -> Prop) (m : M S A) :
  triple P' m Q' E' -> (forall s, P s -> P' s) ->
  (forall a s, Q' a s -> Q a s) -> (forall s, E' s -> E s) ->
  triple P m Q E.
Proof.
  intros H HP HQ HE s Hs. specialize (H s (HP s Hs)).
  destruct (m s) as [s' [e|a]]; auto.
Qed.

Lemma triple_if {A : Type} (P : S -> Prop) (Q : A -> S -> Prop)
    (E : S -> Prop) (b : bool) (m1 m2 : M S A) :
  (b = true -> triple P m1 Q E) -> (b = false -> triple P m2 Q E) ->
  triple P (if b then m1 else m2) Q E.
Proof. destruct b; auto. Qed.

Lemma triple_for_in {A X : Type} (J : X -> S -> Prop) (E : S -> Prop)
    (l : list A) (body : A -> X -> M S X) :
  (forall a x, In a l -> triple (J x) (body a x) J E) ->
  forall x, triple (J x) (for_in l body x) J E.
Proof.
  induction l as [|a l IH]; intros Hb x; cbn [for_in].
  - apply triple_ret. auto.
  - eapply triple_bind; [apply Hb; left; reflexivity|].
    intros x'. apply IH. intros a' y Hin. apply Hb. right. exact Hin.
Qed.

Lemma triple_assume {A : Type} (fact : Prop) (P : S -> Prop)
    (m : M S A) (Q : A -> S -> Prop) (E : S -> Prop) :
  (fact -> triple P m Q E) -> triple (fun s => P s /\ fact) m Q E.
Proof. intros H s [Hs Hf]. exact (H Hf s Hs). Qed.

Lemma triple_bind_lift {A B : Type} (P : S -> Prop)
    (Q : B -> S -> Prop) (E : S -> Prop) (r : res A) (a : A)
    (k : A -> M S B) :
  r = inr a -> triple P (k a) Q E -> triple P (mbind (lift r) k) Q E.
Proof. intros -> H s Hs. exact (H s Hs). Qed.

Lemma returns_value {A : Type} (P : S -> Prop) (Q : A -> S -> Prop)
    (m : M S A) (s : S) :
  returns P m Q -> P s -> exists a s', m s = (s', inr a) /\ Q a s'.
Proof.
  intros H Hs. specialize (H s Hs).
  destruct (m s) as [s' [e|a]]; [contradiction|eauto].
Qed.

Lemma preserves_state {A : Type} (I : S -> Prop) (m : M S A) (s : S) :
  preserves I m -> I s -> I (fst (m s)).
Proof.
  intros H Hs. specialize (H s Hs). now destruct (m s) as [s' [e|a]].
Qed.

End MethodLogic.

(** ** Synthesis engine *)

Section TonesFacts.
Import tune tune.Tones Engine.
Context {libm : Libm}.

Lemma list_set_repeat {A : Type} (x : A) (n i : nat) :
  list_set (repeat x n) i x = repeat x n.
Proof.
  revert i. induction n as [|n IH]; intros [|i]; cbn; auto.
  now rewrite IH.
Qed.

Lemma triple_read {A : Type} (P : Tones -> Prop) (Q : A -> Tones -> Prop)
    (E : Tones -> Prop) (f : Tones -> list A) (i : nat) :
  (forall s, P s ->
     match nth_error (f s) i with Some a => Q a s | None => E s end) ->
  triple P (read f i) Q E.
Proof.
  intros H s Hs. specialize (H s Hs). unfold read, mbind, get, lift, getitem.
  now destruct (nth_error (f s) i).
Qed.

Lemma triple_write {A : Type} (P : Tones -> Prop)
    (Q : unit -> Tones -> Prop) (E : Tones -> Prop) (f : Tones -> list A)
    (set : list A -> Tones -> Tones) (i : nat) (x : A) :
  (forall s, P s ->
     if (i <? List.length (f s))%nat
     then Q tt (set (list_set (f s) i x) s) else E s) ->
  triple P (write f set i x) Q E.
Proof.
  intros H s Hs. specialize (H s Hs).
  unfold write, mbind, get, lift, setitem, modify.
  now destruct (i <? List.length (f s))%nat.
Qed.

Lemma float_of_nat_nonzero (k : nat) : (0 < k)%nat -> ~ float_of_nat k == 0.
Proof.
  intros H E. unfold float_of_nat, Qeq in E. cbn in E. lia.
Qed.

Lemma ResetChord_eq (k : nat) (s : Tones) :
  (0 < k)%nat ->
  ResetChord k s =
  (set_n_notes 0
     (set_amps (repeat (6000 / float_of_nat k) k)
        (set_incs (repeat 0 k)
           (set_args (repeat 0 k) (set_notes (repeat 0 k) s)))),
   inr tt).
Proof.
  intros H. unfold ResetChord, mbind, modify, lift.
  rewrite (fdiv_ok _ _ (float_of_nat_nonzero k H)). reflexivity.
Qed.

Lemma ResetPings_eq (k : nat) (s : Tones) :
  (0 < k)%nat ->
  ResetPings k s =
  (set_n_pings 0
     (set_ping_inds (repeat (int (fs s * 1)) k)
        (set_ping_samples (int (fs s * 1))
           (set_ping_decay (9995 # 10000)
              (set_ping_amps (repeat 0 k)
                 (set_ping_reset_amp (32000 / float_of_nat k)
                    (set_ping_incs (repeat 0 k)
                       (set_ping_args (repeat 0 k)
                          (set_ping_notes (repeat 0 k) s)))))))),
   inr tt).
Proof.
  intros H. unfold ResetPings, mbind, modify, lift, get.
  rewrite (fdiv_ok _ _ (float_of_nat_nonzero k H)). reflexivity.
Qed.

Ltac banks :=
  unfold consistent, chord_bank_ok, ping_bank_ok, level in *; cbn in *;
  rewrite ?length_list_set, ?repeat_length in *;
  intuition (try lia; try congruence).

Lemma ResetChord_consistent (k : nat) (s : Tones) :
  (0 < k)%nat -> consistent s ->
  consistent (fst (ResetChord k s)) /\
  List.length (amps (fst (ResetChord k s))) = k.
Proof.
  intros Hk H. rewrite (ResetChord_eq k s Hk). banks.
Qed.

Lemma ResetPings_consistent (k : nat) (s : Tones) :
  (0 < k)%nat -> consistent s ->
  consistent (fst (ResetPings k s)) /\
  List.length (ping_amps (fst (ResetPings k s))) = k /\
  n_pings (fst (ResetPings k s)) = O.
Proof.
  intros Hk H. rewrite (ResetPings_eq k s Hk). banks.
Qed.

Lemma init_consistent (sample_rate : Q) : consistent (fst (init sample_rate)).
Proof.
  unfold init, mbind. rewrite ResetChord_eq by lia. cbn [modify].
  rewrite ResetPings_eq by lia. banks.
Qed.


(** One step of a proof that a method keeps an invariant [I]. *)
Ltac keep I :=
  lazymatch goal with
  | |- triple _ (mbind _ _) _ _ =>
      eapply (triple_bind I (fun _ => I)); [keep I|intros ?; keep I]
  | |- triple _ (get _) _ _ => apply triple_get; auto
  | |- triple _ (mret _) _ _ => apply triple_ret; auto
  | |- triple _ (mraise _) _ _ => apply triple_raise; auto
  | |- triple _ (lift ?r) _ _ =>
      apply triple_lift; intros ? ?; destruct r; auto
  | |- triple _ (read _ _) _ _ =>
      apply triple_read; intros ? ?; destruct (nth_error _ _); auto
  | |- triple _ (write _ _ _ _) _ _ =>
      apply triple_write; intros ? ?; destruct (_ <? _)%nat; [|auto]
  | |- triple _ (modify _) _ _ => apply triple_modify; intros ? ?
  | |- triple _ (for_in _ _ _) _ _ =>
      apply (triple_for_in (fun _ => I)); intros ? ? _; keep I
  | |- triple _ (if ?b then _ else _) _ _ =>
      apply triple_if; intros _; keep I
  | |- triple _ (match ?x with _ => _ end) _ _ => destruct x; keep I
  | |- _ => idtac
  end.

Lemma toggles_preserve :
  preserves consistent ToggleDetune /\ preserves consistent TogglePing /\
  preserves consistent ToggleChord.
Proof.
  unfold preserves, ToggleDetune, TogglePing, ToggleChord.
  repeat split; keep consistent; banks.
Qed.

Lemma Ping_preserves (ping_ind : nat) (new_ping_freq : option Q) :
  preserves consistent (Ping ping_ind new_ping_freq).
Proof.
  unfold preserves, Ping. keep consistent; banks.
Qed.

Lemma ChangeChord_preserves (new_notes : option (list Q)) :
  preserves consistent (ChangeChord new_notes).
Proof.
  unfold preserves, ChangeChord. destruct new_notes as [new|];
    [|apply triple_raise; auto].
  set (I := fun s => consistent s /\
                     (List.length new <= List.length (amps s))%nat).
  eapply triple_bind with (R := fun n s => consistent s /\ n = notes s);
    [apply triple_get; auto|].
  intros n.
  eapply triple_weaken with (Q' := fun _ => I) (E' := I);
    [|intros s Hs; exact Hs|intros _ s Hs; apply Hs|intros s Hs; apply Hs].
  eapply triple_bind with (R := fun _ => I).
  - apply triple_if; intros Hb.
    + intros s [Hs ->]. apply Nat.ltb_lt in Hb.
      assert (Hk : (0 < List.length new)%nat) by lia.
      destruct (ResetChord_consistent _ s Hk Hs) as [H1 H2].
      rewrite (ResetChord_eq _ s Hk) in *. cbn [fst] in *.
      split; [exact H1|]. rewrite H2. lia.
    + apply triple_ret. intros s [Hs ->]. apply Nat.ltb_ge in Hb.
      split; [exact Hs|]. banks.
  - intros _. keep I; unfold I in *; banks.
Qed.

Lemma SetupPings_preserves (random_random : nat -> Q) (ping_notes : list Q)
    (time_const dur : Q) :
  preserves consistent (SetupPings random_random ping_notes time_const dur).
Proof.
  unfold preserves, SetupPings.
  set (I := fun s => consistent s /\
                     (n_pings s <= List.length (ping_amps s))%nat /\
                     (List.length ping_notes <= List.length (ping_amps s))%nat).
  eapply triple_bind with (R := fun n s => consistent s /\ n = n_pings s);
    [apply triple_get; auto|].
  intros n.
  eapply triple_weaken with (Q' := fun _ => I) (E' := I);
    [|intros s Hs; exact Hs|intros _ s Hs; apply Hs|intros s Hs; apply Hs].
  eapply triple_bind with (R := fun _ => I).
  - apply triple_if; intros Hb.
    + intros s [Hs ->]. apply Nat.ltb_lt in Hb.
      assert (Hk : (0 < List.length ping_notes)%nat) by lia.
      destruct (ResetPings_consistent _ s Hk Hs) as (H1 & H2 & H3).
      rewrite (ResetPings_eq _ s Hk) in *. cbn [fst] in *.
      split; [exact H1|]. rewrite H2. cbn. lia.
    + apply triple_ret. intros s [Hs ->]. apply Nat.ltb_ge in Hb.
      split; [exact Hs|]. banks.
  - intros _. keep I; unfold I in *; banks.
Qed.

Lemma GeneratePingSignal_preserves (n_samp : nat) :
  preserves consistent (GeneratePingSignal n_samp).
Proof.
  unfold preserves, GeneratePingSignal. keep consistent; banks.
Qed.

Lemma GetSamples_preserves (n_samp : nat) :
  preserves consistent (GetSamples n_samp).
Proof.
  unfold preserves, GetSamples.
  eapply (triple_bind consistent (fun _ => consistent));
    [apply GeneratePingSignal_preserves|].
  intros pings. keep consistent; banks.
Qed.

(** Every state of the engine is consistent. *)
Lemma reachable_consistent (s : Tones) : reachable s -> consistent s.
Proof.
  induction 1 as [sample_rate|c s _ IH Hc].
  - apply init_consistent.
  - destruct c; cbn [after positive_size] in *.
    + now apply ResetChord_consistent.
    + now apply ResetPings_consistent.
    + now apply preserves_state; [apply ChangeChord_preserves|].
    + now apply preserves_state; [apply SetupPings_preserves|].
    + now apply preserves_state; [apply Ping_preserves|].
    + now apply preserves_state; [apply toggles_preserve|].
    + now apply preserves_state; [apply toggles_preserve|].
    + now apply preserves_state; [apply toggles_preserve|].
    + now apply preserves_state; [apply GetSamples_preserves|].
Qed.


Lemma nth_error_repeat {A : Type} (x : A) (n j : nat) :
  (j < n)%nat -> nth_error (repeat x n) j = Some x.
Proof.
  revert j. induction n as [|n IH]; intros [|j] H; cbn; try lia; auto.
  apply IH. lia.
Qed.

(** What [ChangeChord] leaves when it grows the bank. *)
Lemma ChangeChord_growth (s : Tones) (new : list Q) :
  (List.length (notes s) < List.length new)%nat ->
  args (fst (ChangeChord (Some new) s)) = repeat 0 (List.length new) /\
  amps (fst (ChangeChord (Some new) s)) =
    repeat (6000 / float_of_nat (List.length new)) (List.length new).
Proof.
  intros Hg.
  set (I := fun x => args x = repeat 0 (List.length new) /\
                     amps x = repeat (6000 / float_of_nat (List.length new))
                                (List.length new)).
  enough (H : triple (fun x => x = s) (ChangeChord (Some new))
                (fun _ => I) I).
  { specialize (H s eq_refl).
    now destruct (ChangeChord (Some new) s) as [s' [e|a]]. }
  unfold ChangeChord.
  eapply triple_bind with (R := fun n x => x = s /\ n = notes s);
    [apply triple_get; intros x ->; auto|].
  intros n. eapply triple_bind with (R := fun _ => I).
  - intros x [-> ->]. apply Nat.ltb_lt in Hg. rewrite Hg.
    rewrite ResetChord_eq by (apply Nat.ltb_lt in Hg; lia).
    split; reflexivity.
  - intros _. keep I; unfold I in *; cbn; intuition.
Qed.

(** What [SetupPings] leaves when it grows the bank. *)
Lemma SetupPings_growth (s : Tones) (random_random : nat -> Q)
    (ping_notes : list Q) (time_const dur : Q) :
  (n_pings s < List.length ping_notes)%nat ->
  ping_args (fst (SetupPings random_random ping_notes time_const dur s)) =
    repeat 0 (List.length ping_notes) /\
  ping_amps (fst (SetupPings random_random ping_notes time_const dur s)) =
    repeat 0 (List.length ping_notes).
Proof.
  intros Hg.
  set (I := fun x => ping_args x = repeat 0 (List.length ping_notes) /\
                     ping_amps x = repeat 0 (List.length ping_notes)).
  enough (H : triple (fun x => x = s)
                (SetupPings random_random ping_notes time_const dur)
                (fun _ => I) I).
  { specialize (H s eq_refl).
    now destruct (SetupPings random_random ping_notes time_const dur s)
      as [s' [e|a]]. }
  unfold SetupPings.
  eapply triple_bind with (R := fun n x => x = s /\ n = n_pings s);
    [apply triple_get; intros x ->; auto|].
  intros n. eapply triple_bind with (R := fun _ => I).
  - intros x [-> ->]. apply Nat.ltb_lt in Hg. rewrite Hg.
    rewrite ResetPings_eq by (apply Nat.ltb_lt in Hg; lia).
    split; reflexivity.
  - intros _. keep I; unfold I in *; cbn; intuition.
Qed.

(** What [ChangeChord] leaves in a consistent engine. *)
Lemma ChangeChord_post (s : Tones) (new : list Q) :
  consistent s ->
  let s' := fst (ChangeChord (Some new) s) in
  consistent s' /\ n_notes s' = List.length new /\
  (List.length new <= List.length (amps s'))%nat /\
  ((List.length (notes s) < List.length new)%nat ->
   List.length (amps s') = List.length new) /\
  ((List.length new <= List.length (notes s))%nat ->
   amps s' = amps s).
Proof.
  intros Hs. cbv zeta.
  set (K := fun x : Tones =>
              ((List.length (notes s) < List.length new)%nat ->
               List.length (amps x) = List.length new) /\
              ((List.length new <= List.length (notes s))%nat ->
               amps x = amps s)).
  set (I1 := fun x => consistent x /\
                      (List.length new <= List.length (amps x))%nat /\ K x).
  set (I := fun x => I1 x /\ n_notes x = List.length new).
  enough (H : triple (fun x => x = s) (ChangeChord (Some new))
                (fun _ => I) I).
  { specialize (H s eq_refl).
    destruct (ChangeChord (Some new) s) as [s' [e|a]]; cbn [fst];
      unfold I, I1, K in H; intuition. }
  unfold ChangeChord.
  eapply triple_bind with (R := fun n x => x = s /\ n = notes s);
    [apply triple_get; intros x ->; auto|].
  intros n. eapply triple_bind with (R := fun _ => I1).
  - apply triple_if; intros Hb.
    + intros x [-> ->]. apply Nat.ltb_lt in Hb.
      assert (Hk : (0 < List.length new)%nat) by lia.
      destruct (ResetChord_consistent _ s Hk Hs) as [H1 H2].
      rewrite (ResetChord_eq _ s Hk) in *. cbn [fst] in *.
      unfold I1, K. rewrite H2.
      split; [exact H1|]. split; [lia|].
      split; intros; [reflexivity|exfalso; lia].
    + apply triple_ret. intros x [-> ->]. apply Nat.ltb_ge in Hb.
      unfold I1, K. split; [exact Hs|]. split; [banks|].
      split; intros; [exfalso; lia|reflexivity].
  - intros _.
    eapply triple_bind with (R := fun _ => I1);
      [apply triple_modify; unfold I1, K; intros x Hx; banks|].
    intros _.
    eapply triple_bind with (R := fun _ => I);
      [apply triple_modify; unfold I, I1, K; intros x Hx; banks|].
    intros _. keep I; unfold I, I1, K in *; banks.
Qed.


(** *** [GetSamples] returns *)

(** The innermost loop of [GeneratePingSignal], lines 348-351. *)
Lemma ping_samples_ok (decay finc pi2 : Q) (l : list nat) :
  forall (output : list Q) (famp farg : Q),
    Forall (fun i => (i < List.length output)%nat) l ->
    exists (output' : list Q) (famp' farg' : Q),
      for_each l
        (fun i '(output, famp, farg) =>
           (o <- getitem output i ;;
            output <- setitem output i (o + famp * math_sin farg) ;;
            ret (output, famp * decay, math_fmod (farg + finc) pi2))%res)
        (output, famp, farg) = inr (output', famp', farg') /\
      List.length output' = List.length output.
Proof.
  induction l as [|i l IH]; intros output famp farg Hl.
  - exists output, famp, farg. split; reflexivity.
  - inversion Hl as [|? ? Hi Hl']; subst. cbn [for_each].
    unfold getitem, setitem.
    destruct (nth_error output i) as [o|] eqn:En;
      [|apply nth_error_None in En; lia].
    apply Nat.ltb_lt in Hi. cbn [bind ret]. rewrite Hi. cbn [bind ret].
    destruct (IH (list_set output i (o + famp * math_sin farg))
                (famp * decay) (math_fmod (farg + finc) pi2))
      as (o' & a' & g' & E & L).
    { rewrite length_list_set. exact Hl'. }
    exists o', a', g'. split; [exact E|].
    rewrite L. apply length_list_set.
Qed.

Ltac shape :=
  unfold same_shape, chord_bank_ok, ping_bank_ok in *; cbn in *;
  rewrite ?length_list_set, ?repeat_length in *;
  intuition (try lia; try congruence).

(** One step of a proof that a method returns in the states that satisfy
    [I]: a read or a write of a slot below the bank size, or the read of an
    attribute. *)
Ltac slot I :=
  lazymatch goal with
  | |- triple _ (mbind (read _ _) _) _ _ =>
      eapply (triple_bind I (fun _ => I));
      [apply triple_read; intros ? ?;
       lazymatch goal with
       | |- match nth_error ?l ?i with _ => _ end =>
           let E := fresh "E" in
           destruct (nth_error l i) eqn:E;
           [assumption|apply nth_error_None in E; shape]
       end
      |intros ?]
  | |- triple _ (mbind (write _ _ _ _) _) _ _ =>
      eapply (triple_bind I (fun _ => I));
      [apply triple_write; intros ? ?;
       lazymatch goal with
       | |- if (?i <? ?n)%nat then _ else _ =>
           let E := fresh "E" in
           destruct (i <? n)%nat eqn:E;
           [shape|apply Nat.ltb_ge in E; shape]
       end
      |intros ?]
  | |- triple _ (mbind (get _) _) _ _ =>
      eapply (triple_bind I (fun _ => I));
      [apply triple_get; intros ? ?; assumption|intros ?]
  end.

Lemma GeneratePingSignal_returns (s0 : Tones) (n_samp : nat) :
  ping_bank_ok s0 ->
  returns (same_shape s0) (GeneratePingSignal n_samp)
    (fun output s => same_shape s0 s /\ List.length output = n_samp).
Proof.
  intros Hp. unfold returns, GeneratePingSignal. cbv zeta.
  slot (same_shape s0). destruct a; cbn [negb];
    [|apply triple_ret; intros; split; [assumption|apply repeat_length]].
  slot (same_shape s0).
  eapply triple_bind with (R := fun n s => same_shape s0 s /\ n = n_pings s0);
    [apply triple_get; intros s Hs; split; [exact Hs|apply Hs]|].
  intros np. apply triple_assume. intros ->.
  set (J := fun (output : list Q) s =>
              same_shape s0 s /\ List.length output = n_samp).
  eapply triple_weaken with (P' := J (repeat 0 n_samp)) (Q' := J)
                            (E' := fun _ => False);
    [apply triple_for_in
    |intros s Hs; split; [exact Hs|apply repeat_length]
    |auto|auto].
  intros ping output Hin. apply in_range in Hin. unfold J.
  apply triple_assume. intros Hout.
  slot (same_shape s0). slot (same_shape s0).
  destruct (_ <=? _)%Z;
    [apply triple_ret; intros; split; assumption|].
  do 3 slot (same_shape s0).
  match goal with
  | |- triple _ (mbind (lift ?r) _) _ _ =>
      assert (Hr : exists (o' : list Q) (a' g' : Q),
                 r = inr (o', a', g') /\
                 List.length o' = List.length output)
  end.
  { apply ping_samples_ok. apply Forall_forall. intros i Hi.
    apply in_range in Hi. lia. }
  destruct Hr as (o' & a' & g' & Eq & Lo).
  eapply triple_bind_lift; [exact Eq|]. cbv beta iota.
  do 2 slot (same_shape s0). slot (same_shape s0).
  eapply triple_bind with (R := fun _ => same_shape s0).
  - apply triple_write. intros s Hs.
    destruct (ping <? List.length (ping_inds s))%nat eqn:E;
      [shape|apply Nat.ltb_ge in E; shape].
  - intros _. apply triple_ret. intros s Hs. split; [exact Hs|].
    rewrite Lo. exact Hout.
Qed.

Lemma GetSamples_returns (s0 : Tones) (n_samp : nat) :
  chord_bank_ok s0 -> ping_bank_ok s0 ->
  returns (same_shape s0) (GetSamples n_samp)
    (fun sig s => same_shape s0 s /\ List.length sig = n_samp).
Proof.
  intros Hc Hp. unfold returns, GetSamples. cbv zeta.
  eapply triple_bind; [apply GeneratePingSignal_returns; exact Hp|].
  intros pings. apply triple_assume. intros Hpings.
  set (J := fun (sig : list Z) s =>
              same_shape s0 s /\ List.length sig = n_samp).
  eapply triple_weaken with (P' := J (repeat 0%Z n_samp)) (Q' := J)
                            (E' := fun _ => False);
    [apply triple_for_in
    |intros s Hs; split; [exact Hs|apply repeat_length]
    |auto|auto].
  intros i sig Hin. apply in_range in Hin. unfold J.
  apply triple_assume. intros Hsig.
  destruct (nth_error pings i) as [p|] eqn:En;
    [|apply nth_error_None in En; lia].
  eapply triple_bind_lift; [unfold getitem; rewrite En; reflexivity|].
  slot (same_shape s0).
  eapply (triple_bind (same_shape s0) (fun _ => same_shape s0)).
  - destruct a; [|apply triple_ret; auto].
    eapply triple_bind
      with (R := fun n s => same_shape s0 s /\ n = n_notes s0);
      [apply triple_get; intros s Hs; split; [exact Hs|apply Hs]|].
    intros nn. apply triple_assume. intros ->.
    apply (triple_for_in (fun _ => same_shape s0)).
    intros j sum Hj. apply in_range in Hj.
    do 4 slot (same_shape s0). slot (same_shape s0).
    apply triple_ret. auto.
  - intros sum. apply triple_lift. intros s Hs. unfold setitem.
    replace (i <? List.length sig)%nat with true
      by (symmetry; apply Nat.ltb_lt; lia).
    split; [exact Hs|]. rewrite length_list_set. exact Hsig.
Qed.

(** In a silent engine, where each bank is switched off or has no active
    oscillator, [GetSamples] returns zeros and leaves the state as it
    was. *)
Lemma GeneratePingSignal_silent (s : Tones) (n_samp : nat) :
  ping_is_on s = false \/ n_pings s = O ->
  GeneratePingSignal n_samp s = (s, inr (repeat 0 n_samp)).
Proof.
  unfold GeneratePingSignal, mbind, get. cbv zeta.
  destruct (ping_is_on s) eqn:Eon; cbn [negb]; [|reflexivity].
  intros [H|H]; [discriminate|]. rewrite H. reflexivity.
Qed.

Lemma int_zero : int 0 = 0%Z.
Proof. reflexivity. Qed.

Lemma GetSamples_silent (s : Tones) (n_samp : nat) :
  ping_is_on s = false \/ n_pings s = O ->
  chord_is_on s = false \/ n_notes s = O ->
  GetSamples n_samp s = (s, inr (repeat 0%Z n_samp)).
Proof.
  intros Hp Hc.
  enough (H : triple (fun x => x = s) (GetSamples n_samp)
                (fun sig x => x = s /\ sig = repeat 0%Z n_samp)
                (fun _ => False)).
  { specialize (H s eq_refl).
    destruct (GetSamples n_samp s) as [x [e|sig]]; [contradiction|].
    destruct H as [-> ->]. reflexivity. }
  unfold GetSamples. cbv zeta.
  eapply triple_bind
    with (R := fun pings x => x = s /\ pings = repeat 0 n_samp).
  { intros x ->. rewrite GeneratePingSignal_silent by exact Hp. auto. }
  intros pings. apply triple_assume. intros ->.
  set (J := fun (sig : list Z) x => x = s /\ sig = repeat 0%Z n_samp).
  eapply triple_weaken with (P' := J (repeat 0%Z n_samp)) (Q' := J)
                            (E' := fun _ => False);
    [apply triple_for_in|intros x Hx; split; [exact Hx|reflexivity]
    |auto|auto].
  intros i sig Hin. apply in_range in Hin. unfold J.
  apply triple_assume. intros ->.
  eapply triple_bind_lift;
    [unfold getitem; rewrite nth_error_repeat by lia; reflexivity|].
  eapply triple_bind with (R := fun b x => x = s /\ b = chord_is_on s);
    [apply triple_get; intros x ->; auto|].
  intros b. apply triple_assume. intros ->.
  eapply triple_bind with (R := fun sum x => x = s /\ sum = 0).
  - destruct (chord_is_on s) eqn:Eon; [|apply triple_ret; auto].
    destruct Hc as [Hc|Hc]; [discriminate|].
    eapply triple_bind with (R := fun nn x => x = s /\ nn = n_notes s);
      [apply triple_get; intros x ->; auto|].
    intros nn. apply triple_assume. intros ->. rewrite Hc.
    apply triple_ret. auto.
  - intros sum. apply triple_assume. intros ->.
    apply triple_lift. intros x ->. unfold setitem.
    rewrite repeat_length.
    replace (i <? n_samp)%nat with true by (symmetry; apply Nat.ltb_lt; lia).
    rewrite int_zero, list_set_repeat. cbn. auto.
Qed.

End TonesFacts.

Section EngineStates.
Import tune tune.Tones Engine.

(** Over exact arithmetic, where no float leaves its range, [GetSamples]
    returns a list of exactly [n_samp] integers in every state whose banks
    are consistent; when each bank is switched off or has no active
    oscillator, every one of them is 0. *)
Lemma GetSamples_exact {libm : Libm} (s : Tones) (n_samp : nat) :
  chord_bank_ok s -> ping_bank_ok s ->
  exists (sig : list Z) (s' : Tones),
    GetSamples n_samp s = (s', inr sig) /\
    List.length sig = n_samp /\
    (ping_is_on s = false \/ n_pings s = O ->
     chord_is_on s = false \/ n_notes s = O ->
     sig = repeat 0%Z n_samp).
Proof.
  intros Hc Hp.
  destruct (returns_value _ _ _ s (GetSamples_returns s n_samp Hc Hp))
    as (sig & s' & E & _ & L).
  { repeat split; reflexivity. }
  exists sig, s'. split; [exact E|]. split; [exact L|].
  intros Sp Sc. rewrite (GetSamples_silent s n_samp Sp Sc) in E.
  congruence.
Qed.

(** A chord with more notes than the bank has slots passes the growth test
    of [ChangeChord] in every state of the engine. *)
Lemma bank_growth_test (s : Tones) (new_notes : list Q) :
  consistent s ->
  (List.length (amps s) < List.length new_notes)%nat ->
  (List.length (notes s) < List.length new_notes)%nat.
Proof. intros ((_ & _ & H & _) & _) L. lia. Qed.

(** C2, amended: a mutation that grows a bank rebuilds it and keeps no
    oscillator state.  After [ChangeChord] with more notes than the previous
    chord, every slot has phase 0 and amplitude 6000 over the new size;
    after [SetupPings] with more notes than the current ping count, every
    slot has phase 0 and amplitude 0. *)
Theorem growth_reinitialises {libm : Libm} (s : Tones) :
  (forall new_notes : list Q,
     (List.length (notes s) < List.length new_notes)%nat ->
     args (fst (ChangeChord (Some new_notes) s)) =
       repeat 0 (List.length new_notes) /\
     amps (fst (ChangeChord (Some new_notes) s)) =
       repeat (6000 / float_of_nat (List.length new_notes))
         (List.length new_notes)) /\
  (forall (random_random : nat -> Q) (ping_notes : list Q)
          (time_const dur : Q),
     (n_pings s < List.length ping_notes)%nat ->
     ping_args (fst (SetupPings random_random ping_notes time_const dur s)) =
       repeat 0 (List.length ping_notes) /\
     ping_amps (fst (SetupPings random_random ping_notes time_const dur s)) =
       repeat 0 (List.length ping_notes)).
Proof.
  split.
  - intros new_notes. apply ChangeChord_growth.
  - intros r l t d. apply SetupPings_growth.
Qed.

Lemma growth_reinitialises_witness :
  (List.length (notes played) < 5)%nat /\
  args (fst (ChangeChord (Some [220; 275; 330; 440; 550]) played)) = repeat 0 5 /\
  (n_pings pinged < 4)%nat /\
  ping_amps (fst (SetupPings (libm := sample_libm) (fun _ => 1 # 2)
                    [220; 275; 330; 440] (1 # 2) 1 pinged)) = repeat 0 4.
Proof.
  split; [vm_compute; lia|].
  split; [apply (growth_reinitialises (libm := sample_libm) played);
          vm_compute; lia|].
  split; [vm_compute; lia|].
  apply (growth_reinitialises (libm := sample_libm) pinged).
  vm_compute; lia.
Defined.

(** C2 as stated fails.  The chord bank of [played] has four slots; growing
    it to five notes takes slot 0 from a non-zero phase to phase 0 and from
    amplitude 1500 to 1200.  Growing the ping bank of [pinged] from three to
    four notes takes slot 0 from a non-zero amplitude to 0. *)
Lemma growth_resets_slot :
  let grown := fst (ChangeChord (Some [220; 275; 330; 440; 550]) played) in
  let regrown := fst (SetupPings (libm := sample_libm) (fun _ => 1 # 2)
                        [220; 275; 330; 440] (1 # 2) 1 pinged) in
  List.length (args played) = 4%nat /\
  (exists phase : Q, nth_error (args played) 0 = Some phase /\ ~ phase == 0) /\
  nth_error (args grown) 0 = Some 0 /\
  nth_error (amps played) 0 = Some (6000 # 4) /\
  nth_error (amps grown) 0 = Some (6000 # 5) /\
  List.length (ping_amps pinged) = 3%nat /\
  (exists amp : Q, nth_error (ping_amps pinged) 0 = Some amp /\ ~ amp == 0) /\
  nth_error (ping_amps regrown) 0 = Some 0.
Proof.
  cbv zeta.
  split; [reflexivity|].
  split; [eexists; split; [vm_compute; reflexivity|vm_compute; discriminate]|].
  split; [vm_compute; reflexivity|].
  split; [vm_compute; reflexivity|].
  split; [vm_compute; reflexivity|].
  split; [vm_compute; reflexivity|].
  split; [eexists; split; [vm_compute; reflexivity|vm_compute; discriminate]|].
  vm_compute; reflexivity.
Qed.

(** C3, amended: after [ChangeChord] with [n >= 1] notes in any state of the
    engine, each of the [n] active oscillators has amplitude 6000 divided by
    the bank size, which is at least [n]: the bank size is [n] when the chord
    has more notes than the previous one, and is otherwise unchanged, as are
    the amplitudes. *)
Theorem ChangeChord_amplitude {libm : Libm} (s : Tones)
    (frequencies : list Q) :
  reachable s ->
  (1 <= List.length frequencies)%nat ->
  let s' := fst (ChangeChord (Some frequencies) s) in
  let size := List.length (amps s') in
  n_notes s' = List.length frequencies /\
  (List.length frequencies <= size)%nat /\
  (forall j : nat,
     (j < List.length frequencies)%nat ->
     nth_error (amps s') j = Some (6000 / float_of_nat size)) /\
  ((List.length (notes s) < List.length frequencies)%nat ->
   size = List.length frequencies) /\
  ((List.length frequencies <= List.length (notes s))%nat ->
   amps s' = amps s).
Proof.
  intros Hr Hn. apply reachable_consistent in Hr.
  destruct (ChangeChord_post s frequencies Hr) as (Hc & Hnn & Hle & Hg & Hk).
  cbv zeta. split; [exact Hnn|]. split; [exact Hle|].
  split; [|split; assumption].
  intros j Hj. destruct Hc as (_ & _ & _ & Hl). rewrite Hl at 1.
  apply nth_error_repeat. lia.
Qed.

Lemma ChangeChord_amplitude_witness :
  reachable (libm := sample_libm) (fst (init 22050)) /\
  (1 <= List.length [220; 275; 330])%nat /\
  nth_error
    (amps (fst (ChangeChord (Some [220; 275; 330])
                  (fst (init 22050))))) 0 =
  Some (6000 / float_of_nat
          (List.length
             (amps (fst (ChangeChord (Some [220; 275; 330]) (fst (init 22050))))))).
Proof.
  split; [apply reachable_init|]. split; [cbn; lia|].
  apply (ChangeChord_amplitude (libm := sample_libm) (fst (init 22050))
           [220; 275; 330]); [apply reachable_init|cbn; lia|cbn; lia].
Defined.

(** C3 as stated fails: a triad on a new engine sounds at amplitude 1500
    per oscillator, which is 6000 over the bank size 4 and not 6000 over the
    three active notes. *)
Lemma ChangeChord_triad_amplitude :
  let s := fst (ChangeChord (Some [220; 275; 330])
                  (fst (init 22050))) in
  n_notes s = 3%nat /\
  nth_error (amps s) 0 = Some (6000 # 4) /\
  ~ (6000 # 4 == 6000 / float_of_nat 3).
Proof.
  cbv zeta. split; [vm_compute; reflexivity|].
  split; [vm_compute; reflexivity|vm_compute; discriminate].
Qed.

End EngineStates.

(** ** Progressions *)

Section Progressions.
Import tune tune.Notes Progression.
Context {libm : Libm}.

Lemma map_res_length {A B : Type} (f : A -> res B) (l : list A)
    (bs : list B) :
  map_res f l = inr bs -> List.length bs = List.length l.
Proof.
  revert bs. induction l as [|a t IH]; intros bs; cbn.
  - intros [= <-]. reflexivity.
  - destruct (f a) as [e|b]; [discriminate|].
    destruct (map_res f t) as [e|bs']; [discriminate|].
    intros [= <-]. cbn. f_equal. now apply IH.
Qed.

Lemma Notes_init_lengths (tonic : string) (n : nat) (note_gen : Notes) :
  snd (Notes.init tonic n) = inr note_gen ->
  List.length (notes note_gen) = n /\ List.length (names note_gen) = n.
Proof.
  unfold Notes.init, CreateSemitoneFrequencies.
  destruct (last_char tonic) as [c|]; [|discriminate].
  destruct (is_digit_char c); cbv beta iota zeta;
    (destruct (match index_of _ c_sharp_names with
               | Some i => Some i
               | None => index_of _ c_flat_names
               end) as [ind|]; [|discriminate]);
    cbn [snd bind];
    (destruct (map_res _ _) as [e|nms] eqn:En; [discriminate|]);
    cbn [bind ret]; intros [= <-]; cbn [notes names];
    apply map_res_length in En;
    rewrite ?length_map, ?length_seq in En;
    rewrite ?length_map, ?length_seq; auto.
Qed.

(** Reading the table entries of a chord: neither [ChordSpecToNotes] nor
    [ChordSpecToNoteNames] raises on a non-empty specifier. *)
Lemma chord_lookup {A : Type} (table : list A) (self : Notes)
    (spec : string) :
  (12 <= List.length (notes self))%nat ->
  List.length table = List.length (notes self) ->
  spec <> EmptyString ->
  exists v : option (list A),
    (let '(err, r) := ChordSpecToIndices self spec in
     (err,
      (inds <- r ;;
       match inds with
       | None | Some [] => ret None
       | Some inds => l <- map_res (getitem_int table) inds ;; ret (Some l)
       end)%res)) = (fst (ChordSpecToIndices self spec), inr v) /\
    (v = None <-> ChordSpecToIndices self spec = ([bad_chord spec], inr None)).
Proof.
  intros Hsize Htable Hne.
  destruct (ChordSpecToIndices_cases self spec)
    as [[H _]|[H|(root & offsets & H & Hst & Hroot & _)]];
    [contradiction| |].
  - rewrite H. exists None. cbn. split; [reflexivity|tauto].
  - assert (B : Forall
                  (fun i => (-1 <= i < Z.of_nat (List.length (notes self)))%Z)
                  (sort Z.leb
                     (map (wrap (Z.of_nat (List.length (notes self))))
                        offsets)))
      by (apply (wrapped_bounds _ root offsets); [lia|exact Hst|lia]).
    destruct (ChordSpecToIndices self spec) as [err r]. cbn [snd] in H.
    subst r. cbn [fst bind].
    destruct (stacked_bound root (-1) offsets Hst ltac:(lia)) as [Hn _].
    destruct (sort Z.leb _) as [|i0 rest] eqn:Es.
    + exfalso. apply Hn.
      assert (P := sort_perm Z.leb
                     (map (wrap (Z.of_nat (List.length (notes self))))
                        offsets)).
      rewrite Es in P. apply Permutation_nil in P.
      now apply map_eq_nil in P.
    + destruct (map_res_ok (getitem_int table) (i0 :: rest))
        as (l & El & _).
      { eapply Forall_impl; [|exact B]. intros i Hi.
        apply getitem_int_ok. cbv beta in Hi. lia. }
      exists (Some l). unfold bind. rewrite El. cbn.
      split; [reflexivity|]. split; intros; discriminate.
Qed.

Lemma ChordSpecToNotes_resolved (self : Notes) (spec : string) :
  (12 <= List.length (notes self))%nat ->
  spec <> EmptyString ->
  ChordSpecToNotes self spec =
    (fst (ChordSpecToIndices self spec), inr (resolved self spec)) /\
  (resolved self spec = None <->
   ChordSpecToIndices self spec = ([bad_chord spec], inr None)).
Proof.
  intros Hsize Hne.
  destruct (chord_lookup (notes self) self spec Hsize eq_refl Hne)
    as (v & E & Hv).
  change (ChordSpecToNotes self spec =
          (fst (ChordSpecToIndices self spec), inr v)) in E.
  unfold resolved. rewrite E. cbn [snd]. auto.
Qed.

Lemma ChordSpecToNoteNames_returns (self : Notes) (spec : string) :
  (12 <= List.length (notes self))%nat ->
  List.length (names self) = List.length (notes self) ->
  spec <> EmptyString ->
  exists v : option (list string),
    ChordSpecToNoteNames self spec =
      (fst (ChordSpecToIndices self spec), inr v).
Proof.
  intros Hsize Hnames Hne.
  destruct (chord_lookup (names self) self spec Hsize Hnames Hne)
    as (v & E & _).
  exists v. exact E.
Qed.

(** The loop of [SetupProgression], lines 401-403. *)
Lemma progression_loop (note_gen : Notes) (l : list string) :
  (12 <= List.length (notes note_gen))%nat ->
  List.length (names note_gen) = List.length (notes note_gen) ->
  Forall (fun spec => spec <> EmptyString) l ->
  forall s : Music.Music,
  exists s' : Music.Music,
    for_in l
      (fun chord (_ : unit) =>
         (notes <- Music.told (ChordSpecToNotes note_gen chord) ;;
          chords <- get Music.chords ;;
          modify (Music.set_chords (chords ++ [notes])) ;;
          nms <- Music.told (ChordSpecToNoteNames note_gen chord) ;;
          names <- get Music.names ;;
          modify (Music.set_names (names ++ [nms])))%M) tt s =
      (s', inr tt) /\
    Music.chords s' = (Music.chords s ++ map (resolved note_gen) l)%list /\
    Music.progression s' = Music.progression s.
Proof.
  intros Hsize Hnames. induction 1 as [|spec l Hspec Hl IH]; intros s.
  - exists s. cbn. rewrite app_nil_r. auto.
  - destruct (ChordSpecToNotes_resolved note_gen spec Hsize Hspec)
      as [E1 _].
    destruct (ChordSpecToNoteNames_returns note_gen spec Hsize Hnames Hspec)
      as [v2 E2].
    cbn [for_in]. unfold mbind at 1. unfold mbind at 1.
    unfold Music.told at 1. rewrite E1. cbn [snd fst].
    unfold mbind at 1, get at 1. unfold mbind at 1, modify at 1.
    unfold mbind at 1. unfold Music.told at 1. rewrite E2. cbn [snd fst].
    unfold mbind at 1, get at 1. unfold modify at 1.
    match goal with
    | |- context [for_in l _ tt ?s1] => destruct (IH s1) as (s' & E & Hc & Hp)
    end.
    exists s'. split; [exact E|]. rewrite Hc, Hp. cbn.
    rewrite <- app_assoc. auto.
Qed.

Lemma triple_told {A : Type} (P : Music.Music -> Prop)
    (Q : A -> Music.Music -> Prop) (E : Music.Music -> Prop)
    (r : Notes.reply A) :
  (forall s, P s ->
     match snd r with
     | inr a => Q a (Music.set_stderr (Music.stderr s ++ fst r) s)
     | inl _ => E (Music.set_stderr (Music.stderr s ++ fst r) s)
     end) ->
  triple P (Music.told r) Q E.
Proof.
  intros H s Hs. specialize (H s Hs). unfold Music.told.
  now destruct (snd r).
Qed.

(** What [SetupProgression] does with every progression: over a valid tonic
    and a table of at least 12 notes, for a progression of non-empty
    specifiers, it returns with one chord entry per specifier, in order: the
    frequencies of a recognized specifier, and the [None] that
    [ChordSpecToNotes] returns for an unrecognized one.  No entry is
    skipped. *)
Lemma SetupProgression_chords (chord_seq : option (list string))
    (tonic : option string) (n_semitones : option nat) (s : Music.Music)
    (note_gen : Notes) :
  snd (Notes.init (tonic_in_effect tonic s)
         (n_semis_in_effect n_semitones s)) = inr note_gen ->
  (12 <= n_semis_in_effect n_semitones s)%nat ->
  Forall (fun spec => spec <> EmptyString)
    (progression_in_effect chord_seq s) ->
  let s' := fst (Music.SetupProgression chord_seq tonic n_semitones s) in
  snd (Music.SetupProgression chord_seq tonic n_semitones s) = inr tt /\
  Music.progression s' = progression_in_effect chord_seq s /\
  Music.chords s' = map (resolved note_gen) (Music.progression s') /\
  Forall (fun spec =>
            snd (ChordSpecToNotes note_gen spec) =
              inr (resolved note_gen spec) /\
            (resolved note_gen spec = None <->
             ChordSpecToIndices note_gen spec =
               ([bad_chord spec], inr None)))
    (Music.progression s').
Proof.
  intros Hinit Hsize Hspecs. cbv zeta.
  destruct (Notes_init_lengths _ _ _ Hinit) as [Hn1 Hn2].
  assert (Hs : (12 <= List.length (notes note_gen))%nat) by lia.
  assert (Hnm : List.length (names note_gen) = List.length (notes note_gen))
    by lia.
  assert (Hres : Forall (fun spec =>
            snd (ChordSpecToNotes note_gen spec) =
              inr (resolved note_gen spec) /\
            (resolved note_gen spec = None <->
             ChordSpecToIndices note_gen spec =
               ([bad_chord spec], inr None)))
            (progression_in_effect chord_seq s)).
  { eapply Forall_impl; [|exact Hspecs]. intros spec Hne.
    destruct (ChordSpecToNotes_resolved note_gen spec Hs Hne) as [E H].
    rewrite E. auto. }
  enough (H : exists s' : Music.Music,
            Music.SetupProgression chord_seq tonic n_semitones s =
              (s', inr tt) /\
            Music.progression s' = progression_in_effect chord_seq s /\
            Music.chords s' =
              map (resolved note_gen) (progression_in_effect chord_seq s)).
  { destruct H as (s' & -> & Hp & Hc). cbn [fst snd]. rewrite Hp.
    auto. }
  enough (T : triple (fun x => x = s)
                (Music.SetupProgression chord_seq tonic n_semitones)
                (fun _ x =>
                   Music.progression x = progression_in_effect chord_seq s /\
                   Music.chords x =
                     map (resolved note_gen)
                       (progression_in_effect chord_seq s))
                (fun _ => False)).
  { specialize (T s eq_refl).
    destruct (Music.SetupProgression chord_seq tonic n_semitones s)
      as [s' [e|[]]]; [contradiction|]. exists s'. auto. }
  set (P1 := fun x => Music.progression x =
                        progression_in_effect chord_seq s /\
                      Music.tonic x = Music.tonic s /\
                      Music.n_semis x = Music.n_semis s).
  set (P2 := fun x => Music.progression x =
                        progression_in_effect chord_seq s /\
                      Music.tonic x = tonic_in_effect tonic s /\
                      Music.n_semis x = Music.n_semis s).
  set (P3 := fun x => Music.progression x =
                        progression_in_effect chord_seq s /\
                      Music.tonic x = tonic_in_effect tonic s /\
                      Music.n_semis x = n_semis_in_effect n_semitones s).
  set (P4 := fun x => P3 x /\ Music.chords x = []).
  unfold Music.SetupProgression.
  eapply triple_bind with (R := fun _ => P1).
  { destruct chord_seq as [[|c l]|];
      first [apply triple_modify|apply triple_told];
      intros x ->; unfold P1; cbn; auto. }
  intros _. eapply triple_bind with (R := fun _ => P2).
  { destruct tonic as [[|c t]|];
      first [apply triple_modify|apply triple_ret];
      intros x Hx; unfold P1, P2 in *; cbn; intuition. }
  intros _. eapply triple_bind with (R := fun _ => P3).
  { destruct n_semitones as [[|n]|];
      first [apply triple_modify|apply triple_ret];
      intros x Hx; unfold P2, P3 in *; cbn; intuition. }
  intros _. eapply triple_bind with (R := fun _ => P4).
  { apply triple_modify. intros x Hx. unfold P4, P3 in *. cbn. intuition. }
  intros _. eapply triple_bind with (R := fun _ => P4).
  { apply triple_modify. intros x Hx. unfold P4, P3 in *. cbn. intuition. }
  intros _.
  eapply triple_bind
    with (R := fun t x => P4 x /\ t = tonic_in_effect tonic s).
  { apply triple_get. intros x Hx. split; [exact Hx|apply Hx]. }
  intros t. apply triple_assume. intros ->.
  eapply triple_bind
    with (R := fun n x => P4 x /\ n = n_semis_in_effect n_semitones s).
  { apply triple_get. intros x Hx. split; [exact Hx|apply Hx]. }
  intros n. apply triple_assume. intros ->.
  eapply triple_bind with (R := fun g x => P4 x /\ g = note_gen).
  { apply triple_told. intros x Hx. rewrite Hinit.
    unfold P4, P3 in *. cbn. intuition. }
  intros g. apply triple_assume. intros ->.
  eapply triple_bind with (R := fun _ => P4).
  { apply triple_modify. intros x Hx. unfold P4, P3 in *. cbn. intuition. }
  intros _.
  eapply triple_bind
    with (R := fun p x => P4 x /\ p = progression_in_effect chord_seq s).
  { apply triple_get. intros x Hx. split; [exact Hx|apply Hx]. }
  intros p. apply triple_assume. intros ->.
  intros x Hx.
  destruct (progression_loop note_gen _ Hs Hnm Hspecs x)
    as (s' & E & Hc & Hp).
  rewrite E. unfold P4, P3 in Hx. rewrite Hc, Hp.
  destruct Hx as ((-> & _) & ->). auto.
Qed.

End Progressions.

Section ProgressionExamples.
Import tune tune.Notes Progression.

(** The progression I, X, vi: three chord entries, [None] for X. *)
Example SetupProgression_chords_example :
  snd (Notes.init (libm := sample_libm) (tonic_in_effect None new_music)
         (n_semis_in_effect None new_music)) = inr sample_table /\
  (12 <= n_semis_in_effect None new_music)%nat /\
  Forall (fun spec => spec <> EmptyString)
    (progression_in_effect (Some ["I"; "X"; "vi"]%string) new_music) /\
  snd (Music.SetupProgression (libm := sample_libm)
         (Some ["I"; "X"; "vi"]%string) None None new_music) = inr tt /\
  Music.chords
    (fst (Music.SetupProgression (libm := sample_libm)
            (Some ["I"; "X"; "vi"]%string) None None new_music)) =
  map (resolved sample_table) ["I"; "X"; "vi"]%string.
Proof.
  assert (H1 : snd (Notes.init (libm := sample_libm)
                      (tonic_in_effect None new_music)
                      (n_semis_in_effect None new_music)) = inr sample_table)
    by (vm_compute; reflexivity).
  assert (H2 : (12 <= n_semis_in_effect None new_music)%nat) by (cbn; lia).
  assert (H3 : Forall (fun spec => spec <> EmptyString)
                 (progression_in_effect (Some ["I"; "X"; "vi"]%string)
                    new_music))
    by (repeat constructor; discriminate).
  split; [exact H1|]. split; [exact H2|]. split; [exact H3|].
  destruct (SetupProgression_chords (libm := sample_libm)
              (Some ["I"; "X"; "vi"]%string) None None new_music
              sample_table H1 H2 H3) as (R & P & C & _).
  split; [exact R|]. rewrite C, P. reflexivity.
Qed.

Lemma Music_init_new : Music.init 22050 "C4" = inr new_music.
Proof. reflexivity. Qed.

(** C4: the code attempts what the claim says and misses it.  For the
    progression I, X, vi the unrecognized X is caught and reported without
    an exception, and [ChordSpecToNotes] returns [None] for it; but
    [SetupProgression] does not skip the entry: the chord list has three
    entries, the second of which is that [None], and [ChangeChord] on its
    index raises [TypeError].  An empty specifier in place of X is not
    caught at all: [SetupProgression] raises [IndexError]. *)
Theorem SetupProgression_keeps_bad_entry :
  let s' := fst (Music.SetupProgression (libm := sample_libm)
                   (Some ["I"; "X"; "vi"]%string) None None new_music) in
  ChordSpecToIndices sample_table "X" = ([bad_chord "X"], inr None) /\
  List.length (Music.chords s') = 3%nat /\
  nth_error (Music.chords s') 1 = Some None /\
  snd (Music.ChangeChord 1 s') = inl TypeError /\
  snd (Music.SetupProgression (libm := sample_libm)
         (Some ["I"; ""; "vi"]%string) None None new_music) = inl IndexError.
Proof.
  cbv zeta. split; [reflexivity|].
  split; [vm_compute; reflexivity|].
  split; [vm_compute; reflexivity|].
  split; vm_compute; reflexivity.
Qed.

End ProgressionExamples.

(** * Further properties of the code

    The functions of the three files that the properties above leave out,
    and what the code shows about them. *)

(** ** Chord and scale tables *)

Section Tables.
Import tune.

Lemma StronglySorted_snoc (l : list Z) (a : Z) :
  StronglySorted Z.lt l -> Forall (fun x => (x < a)%Z) l ->
  StronglySorted Z.lt (l ++ [a]).
Proof.
  induction 1 as [|x l Hl IH Hx]; intros Ha; cbn.
  - repeat constructor.
  - inversion Ha; subst. constructor; [auto|].
    apply Forall_app. split; [exact Hx|]. repeat constructor. assumption.
Qed.

Lemma chord_while_spec (third n_semis base_i : Z) :
  (third = 3 \/ third = 4)%Z ->
  forall (fuel : nat) (ind : Z) (skipi : nat) (chord : list Z),
    (skipi < 3)%nat -> (0 <= ind)%Z ->
    ((ind - base_i) mod 12 = phase_offset third skipi)%Z ->
    StronglySorted Z.lt chord ->
    (forall i, In i chord <->
               (0 <= i < ind /\ i < n_semis)%Z /\ chord_tone third base_i i) ->
    (Z.to_nat (n_semis - ind) < fuel)%nat ->
    exists result,
      chord_while fuel [third; 7 - third; 5]%Z n_semis ind skipi chord
        = Some (inr result) /\
      StronglySorted Z.lt result /\
      (forall i, In i result <->
                 (0 <= i < n_semis)%Z /\ chord_tone third base_i i).
Proof.
  intros Ht. induction fuel as [|fuel IH];
    intros ind skipi chord Hs Hi Hph Hsorted Hmem Hfuel; [lia|].
  cbn [chord_while].
  destruct (ind <? n_semis)%Z eqn:E.
  - apply Z.ltb_lt in E.
    assert (G : exists skip, getitem [third; 7 - third; 5]%Z skipi = inr skip /\
              (3 <= skip <= 5)%Z /\
              ((ind + skip - base_i) mod 12 =
               phase_offset third ((skipi + 1) mod 3))%Z /\
              (forall i, (ind < i < ind + skip)%Z ->
                         ~ chord_tone third base_i i)).
    { unfold chord_tone. clear IH Hmem.
      destruct Ht; subst third;
      destruct skipi as [|[|[|k]]]; try lia;
        unfold getitem; cbn [nth_error];
        eexists; (split; [reflexivity|]);
        change ((0 + 1) mod 3)%nat with 1%nat;
        change ((1 + 1) mod 3)%nat with 2%nat;
        change ((2 + 1) mod 3)%nat with 0%nat;
        cbn [phase_offset] in *;
        (split; [lia|]); (split; [|intros i Hb]);
        Z.div_mod_to_equations; lia. }
    destruct G as (skip & -> & Hskip & Hph' & Hgap).
    cbn [List.length].
    assert (Htone : chord_tone third base_i ind).
    { unfold chord_tone. clear IH Hmem.
      destruct Ht; subst third; destruct skipi as [|[|[|k]]]; try lia;
        cbn [phase_offset] in Hph; Z.div_mod_to_equations; lia. }
    apply IH.
    + apply Nat.mod_upper_bound. lia.
    + lia.
    + exact Hph'.
    + apply StronglySorted_snoc; [exact Hsorted|].
      apply Forall_forall. intros x Hx. apply Hmem in Hx. lia.
    + intros i. rewrite in_app_iff, Hmem. cbn [In]. split.
      * intros [H|[<-|[]]]; [|split; [lia|exact Htone]].
        split; [lia|tauto].
      * intros [Hb Hc].
        destruct (Z_lt_le_dec i ind) as [L|L]; [left; split; [lia|exact Hc]|].
        destruct (Z.eq_dec i ind) as [->|N]; [right; left; reflexivity|].
        exfalso. apply (Hgap i); [lia|exact Hc].
    + lia.
  - apply Z.ltb_ge in E. exists chord. split; [reflexivity|].
    split; [exact Hsorted|]. intros i. rewrite Hmem. intuition lia.
Qed.

(** The start of the loop: the hypotheses of [chord_while_spec] at the index
    and phase that the function picks. *)
Ltac start_of_chord :=
  match goal with
  | |- _ \/ _ => (left; reflexivity) || (right; reflexivity)
  | |- StronglySorted _ [] => constructor
  | |- forall i, In i [] <-> _ =>
      intros i; cbn [In]; unfold chord_tone; split; [tauto|];
      intros [Hi Hc]; Z.div_mod_to_equations; lia
  | |- _ => cbn [phase_offset]; Z.div_mod_to_equations; lia
  end.

(** X1: [MakeMajorChords] returns, in ascending order and without repetition,
    exactly the indices below [n_semis] that lie 0, 4 or 7 semitones above
    [base_i], up to octaves. *)
Theorem MakeMajorChords_tones (n_semis base_i : Z) :
  exists chord : list Z,
    MakeMajorChords n_semis base_i = Some (inr chord) /\
    StronglySorted Z.lt chord /\
    (forall i, In i chord <->
               (0 <= i < n_semis)%Z /\ chord_tone 4 base_i i).
Proof.
  unfold MakeMajorChords. cbv zeta.
  pose proof (Z.mod_pos_bound base_i 12 ltac:(lia)) as Hb.
  destruct (0 <=? base_i mod 12 - 8)%Z eqn:E8;
    [|destruct (0 <=? base_i mod 12 - 5)%Z eqn:E5];
    rewrite ?Z.leb_le, ?Z.leb_gt in *;
    apply (chord_while_spec 4 n_semis base_i); start_of_chord.
Qed.

(** X2: [MakeMinorChords] returns, in ascending order and without repetition,
    exactly the indices below [n_semis] that lie 0, 3 or 7 semitones above
    [base_i], up to octaves. *)
Theorem MakeMinorChords_tones (n_semis base_i : Z) :
  exists chord : list Z,
    MakeMinorChords n_semis base_i = Some (inr chord) /\
    StronglySorted Z.lt chord /\
    (forall i, In i chord <->
               (0 <= i < n_semis)%Z /\ chord_tone 3 base_i i).
Proof.
  unfold MakeMinorChords. cbv zeta.
  pose proof (Z.mod_pos_bound base_i 12 ltac:(lia)) as Hb.
  destruct (0 <=? base_i mod 12 - 9)%Z eqn:E8;
    [|destruct (0 <=? base_i mod 12 - 5)%Z eqn:E5];
    rewrite ?Z.leb_le, ?Z.leb_gt in *;
    apply (chord_while_spec 3 n_semis base_i); start_of_chord.
Qed.
End Tables.

Section Scales.
Import tune.
Context {libm : Libm}.





End Scales.

Section NoteNames.
Import tune tune.Notes.

(** X5: Asking for the name of a note and then for the index of that name
    gives the note back, modulo the octave:
    [GetIndexFromNoteName(GetNoteName(i))] is [i mod 12], with nothing
    written to [sys.stderr]. *)
Theorem GetIndexFromNoteName_round_trip (i : Z) :
  exists name : string,
    GetNoteName i = inr name /\
    GetIndexFromNoteName name "C" = ([], inr (Some (i mod 12)%Z)).
Proof.
  unfold GetNoteName.
  pose proof (Z.mod_pos_bound i 12 ltac:(lia)) as H.
  set (r := (i mod 12)%Z) in *.
  assert (C : In r [0; 1; 2; 3; 4; 5; 6; 7; 8; 9; 10; 11]%Z)
    by (cbn; lia).
  clearbody r. cbn [In] in C.
  repeat (destruct C as [<-|C]; [eexists; split; reflexivity|]).
  contradiction.
Qed.

Lemma name_index_spelling (a : nat) (name : string) :
  nth_error c_sharp_names a = Some name \/
  nth_error c_flat_names a = Some name ->
  name_index name = Some a.
Proof.
  do 12 (destruct a as [|a];
         [intros [[= <-]|[= <-]]; reflexivity|]).
  cbn. destruct a; intros [H|H]; discriminate.
Qed.

(** X6: The interval from a tonic to a note does not depend on how the two
    are spelled: for the [a]-th note and the [b]-th tonic of either name
    list, [GetIndexFromNoteName] returns [(a - b) mod 12] and writes nothing. *)
Theorem GetIndexFromNoteName_interval (a b : nat)
    (note_name tonic_name : string) :
  nth_error c_sharp_names a = Some note_name \/
  nth_error c_flat_names a = Some note_name ->
  nth_error c_sharp_names b = Some tonic_name \/
  nth_error c_flat_names b = Some tonic_name ->
  GetIndexFromNoteName note_name tonic_name
  = ([], inr (Some ((Z.of_nat a - Z.of_nat b) mod 12)%Z)).
Proof.
  intros Ha Hb. unfold GetIndexFromNoteName.
  rewrite (name_index_spelling a note_name Ha),
    (name_index_spelling b tonic_name Hb).
  reflexivity.
Qed.

Lemma GetIndexFromNoteName_interval_witness :
  (nth_error c_sharp_names 3 = Some "Eb"%string \/
   nth_error c_flat_names 3 = Some "Eb"%string) /\
  (nth_error c_sharp_names 1 = Some "C#"%string \/
   nth_error c_flat_names 1 = Some "C#"%string) /\
  GetIndexFromNoteName "Eb" "C#" = ([], inr (Some 2%Z)).
Proof.
  split; [right; reflexivity|]. split; [left; reflexivity|].
  apply (GetIndexFromNoteName_interval 3 1 "Eb" "C#");
    [right; reflexivity|left; reflexivity].
Defined.

Lemma name_index_none (name : string) :
  ~ In name (c_sharp_names ++ c_flat_names) -> name_index name = None.
Proof.
  intros H. unfold name_index.
  assert (G : forall l, ~ In name l -> index_of name l = None).
  { induction l as [|y l IH]; cbn; [reflexivity|].
    intros N. destruct (String.eqb name y) eqn:E.
    - apply String.eqb_eq in E. exfalso. apply N. left. congruence.
    - rewrite IH; [reflexivity|]. intros I. apply N. right. exact I. }
  rewrite !G; [reflexivity| |];
    intros I; apply H, in_or_app; [right|left]; exact I.
Qed.

Lemma name_index_some (name : string) :
  In name (c_sharp_names ++ c_flat_names) ->
  exists a, name_index name = Some a.
Proof.
  cbn [c_sharp_names c_flat_names app In].
  intros H. repeat (destruct H as [<-|H]; [eexists; reflexivity|]).
  contradiction.
Qed.

(** X7: A name that is in neither name list gives [None] and one line on
    [sys.stderr], never an exception; the note name is looked at before the
    tonic name. *)
Theorem GetIndexFromNoteName_unknown (note_name tonic_name : string) :
  ~ In note_name (c_sharp_names ++ c_flat_names) \/
  ~ In tonic_name (c_sharp_names ++ c_flat_names) ->
  GetIndexFromNoteName note_name tonic_name
  = ([if in_dec string_dec note_name (c_sharp_names ++ c_flat_names)
      then ("Tonic name (" ++ tonic_name ++ ") not found in name lists.")
      else ("Note name (" ++ note_name ++ ") not found in name lists.")]%string,
     inr None).
Proof.
  intros H. unfold GetIndexFromNoteName.
  destruct (in_dec string_dec note_name (c_sharp_names ++ c_flat_names))
    as [I|N].
  - destruct (name_index_some note_name I) as [a ->].
    destruct H as [H|H]; [contradiction|].
    rewrite (name_index_none tonic_name H). reflexivity.
  - rewrite (name_index_none note_name N). reflexivity.
Qed.

Lemma GetIndexFromNoteName_unknown_witness :
  (~ In "H"%string (c_sharp_names ++ c_flat_names) \/
   ~ In "C"%string (c_sharp_names ++ c_flat_names)) /\
  GetIndexFromNoteName "H" "C"
  = (["Note name (H) not found in name lists."%string], inr None).
Proof.
  assert (N : ~ In "H"%string (c_sharp_names ++ c_flat_names)).
  { cbn. intros H. repeat (destruct H as [H|H]; [discriminate|]). exact H. }
  split; [left; exact N|].
  pose proof (GetIndexFromNoteName_unknown "H" "C" (or_introl N)) as E.
  destruct (in_dec string_dec "H"%string (c_sharp_names ++ c_flat_names))
    as [I|_]; [contradiction|exact E].
Defined.

End NoteNames.

Section Tonics.
Import tune tune.Notes.




Lemma last_char_some (s : string) :
  s <> EmptyString ->
  exists c, last_char s = Some c /\
            s = (but_last s ++ String c EmptyString)%string.
Proof.
  induction s as [|a t IH]; [congruence|]. intros _.
  destruct t as [|b t'].
  - exists a. split; reflexivity.
  - destruct IH as (c & Hc & Ht); [discriminate|].
    exists c. split; [exact Hc|].
    change (but_last (String a (String b t')))
      with (String a (but_last (String b t'))).
    cbn [String.append]. now rewrite <- Ht.
Qed.

(** X9: A tonic that is neither a note name nor a note name followed by a
    digit makes the constructor of [Notes] raise [TypeError], after one line
    on [sys.stderr]: [CreateSemitoneFrequencies] returns [None], which the
    constructor tries to unpack. *)
Theorem Notes_init_unknown {libm : Libm} (tonic : string) (n : nat) :
  tonic <> EmptyString ->
  (forall name, In name (c_sharp_names ++ c_flat_names) ->
     tonic <> name /\
     forall d, is_digit_char d = true ->
               tonic <> (name ++ String d EmptyString)%string) ->
  Notes.init tonic n
  = ([("Unrecognized base note spec (" ++ tonic ++ ")")%string],
     inl TypeError).
Proof.
  intros Hne Hun. unfold Notes.init, CreateSemitoneFrequencies.
  destruct (last_char_some tonic Hne) as (c & -> & Et).
  assert (N : name_index (if is_digit_char c then but_last tonic else tonic)
              = None).
  { apply name_index_none. intros I.
    destruct (is_digit_char c) eqn:Ed.
    - destruct (Hun _ I) as [_ H]. exact (H c Ed Et).
    - destruct (Hun _ I) as [H _]. exact (H eq_refl). }
  unfold name_index in N.
  destruct (is_digit_char c); cbv beta iota zeta; rewrite N; reflexivity.
Qed.

Lemma Notes_init_unknown_witness :
  "H2"%string <> EmptyString /\
  (forall name, In name (c_sharp_names ++ c_flat_names) ->
     "H2"%string <> name /\
     forall d, is_digit_char d = true ->
               "H2"%string <> (name ++ String d EmptyString)%string) /\
  Notes.init (libm := sample_libm) "H2" 24
  = (["Unrecognized base note spec (H2)"%string], inl TypeError).
Proof.
  assert (U : forall name, In name (c_sharp_names ++ c_flat_names) ->
                "H2"%string <> name /\
                forall d, is_digit_char d = true ->
                          "H2"%string <> (name ++ String d EmptyString)%string).
  { cbn [c_sharp_names c_flat_names app In]. intros name H.
    repeat (destruct H as [<-|H];
            [split; [discriminate|intros d _; discriminate]|]).
    contradiction. }
  split; [discriminate|]. split; [exact U|].
  apply (Notes_init_unknown (libm := sample_libm) "H2" 24);
    [discriminate|exact U].
Defined.

End Tonics.

(** ** Truncation and [math.fmod] *)

Section Fmod.

Lemma int_nonneg (q : Q) :
  0 <= q -> inject_Z (int q) <= q /\ q < inject_Z (int q) + 1 /\ (0 <= int q)%Z.
Proof.
  destruct q as [a b]. unfold int, Qle, Qlt, Qplus, inject_Z. cbn.
  intros H. rewrite Z.mul_1_r in H.
  pose proof (Z.quot_rem' a (Zpos b)) as E.
  pose proof (Z.rem_bound_pos a (Zpos b) H ltac:(lia)) as B.
  pose proof (Z.quot_pos a (Zpos b) H ltac:(lia)) as P.
  repeat split; nia.
Qed.

Lemma int_nonpos (q : Q) :
  q <= 0 -> q <= inject_Z (int q) /\ inject_Z (int q) - 1 < q /\ (int q <= 0)%Z.
Proof.
  destruct q as [a b]. unfold int, Qle, Qlt, Qminus, Qplus, Qopp, inject_Z. cbn.
  intros H. rewrite Z.mul_1_r in H.
  pose proof (Z.quot_rem' a (Zpos b)) as E.
  pose proof (Z.rem_bound_pos_neg a (Zpos b) ltac:(lia) H) as B.
  assert (P : (Z.quot a (Zpos b) <= 0)%Z).
  { destruct (Z.eq_dec a 0) as [->|N]; [rewrite Z.quot_0_l; lia|].
    pose proof (Z.quot_opp_l a (Zpos b) ltac:(lia)) as O.
    pose proof (Z.quot_pos (- a) (Zpos b) ltac:(lia) ltac:(lia)). lia. }
  repeat split; nia.
Qed.

(** [math.fmod(x, y)] for a positive [y] lies strictly between [-y] and [y]
    and has the sign of [x]. *)
Lemma math_fmod_bound (x y : Q) :
  0 < y ->
  - y < math_fmod x y /\ math_fmod x y < y /\
  (0 <= x -> 0 <= math_fmod x y) /\ (x <= 0 -> math_fmod x y <= 0).
Proof.
  intros Hy. unfold math_fmod.
  assert (Ny : ~ y == 0)
    by (intros E; rewrite E in Hy; apply (Qlt_irrefl 0 Hy)).
  set (q := x / y).
  assert (Ex : x == y * q) by (unfold q; field; exact Ny).
  assert (Er : x - y * inject_Z (int q) == y * (q - inject_Z (int q)))
    by (rewrite Ex at 1; ring).
  rewrite Er.
  destruct (Qlt_le_dec q 0) as [Hq|Hq].
  - destruct (int_nonpos q (Qlt_le_weak _ _ Hq)) as (A & B & _).
    assert (X : x <= 0).
    { rewrite Ex. setoid_replace 0 with (y * 0) by ring.
      apply Qmult_le_l; [exact Hy|apply Qlt_le_weak; exact Hq]. }
    assert (L : q - inject_Z (int q) <= 0).
    { apply (Qplus_le_l _ _ (inject_Z (int q))).
      setoid_replace (q - inject_Z (int q) + inject_Z (int q)) with q by ring.
      setoid_replace (0 + inject_Z (int q)) with (inject_Z (int q)) by ring.
      exact A. }
    assert (G : - (1) < q - inject_Z (int q)).
    { apply (Qplus_lt_l _ _ (inject_Z (int q))).
      setoid_replace (q - inject_Z (int q) + inject_Z (int q)) with q by ring.
      setoid_replace (- (1) + inject_Z (int q)) with (inject_Z (int q) - 1)
        by ring.
      exact B. }
    assert (M : y * (q - inject_Z (int q)) <= 0).
    { setoid_replace 0 with (y * 0) by ring.
      apply Qmult_le_l; [exact Hy|exact L]. }
    assert (M' : - y < y * (q - inject_Z (int q))).
    { setoid_replace (- y) with (y * - (1)) by ring.
      apply Qmult_lt_l; [exact Hy|exact G]. }
    repeat split.
    + exact M'.
    + apply Qle_lt_trans with 0; [exact M|exact Hy].
    + intros X'. assert (x == 0) by (apply Qle_antisym; assumption).
      exfalso. rewrite Ex in H.
      apply Qmult_integral in H. destruct H as [H|H]; [exact (Ny H)|].
      rewrite H in Hq. exact (Qlt_irrefl 0 Hq).
    + intros _. exact M.
  - destruct (int_nonneg q Hq) as (A & B & _).
    assert (X : 0 <= x).
    { rewrite Ex. setoid_replace 0 with (y * 0) by ring.
      apply Qmult_le_l; [exact Hy|exact Hq]. }
    assert (L : 0 <= q - inject_Z (int q)).
    { apply (Qplus_le_l _ _ (inject_Z (int q))).
      setoid_replace (q - inject_Z (int q) + inject_Z (int q)) with q by ring.
      setoid_replace (0 + inject_Z (int q)) with (inject_Z (int q)) by ring.
      exact A. }
    assert (G : q - inject_Z (int q) < 1).
    { apply (Qplus_lt_l _ _ (inject_Z (int q))).
      setoid_replace (q - inject_Z (int q) + inject_Z (int q)) with q by ring.
      setoid_replace (1 + inject_Z (int q)) with (inject_Z (int q) + 1) by ring.
      exact B. }
    assert (M : 0 <= y * (q - inject_Z (int q))).
    { setoid_replace 0 with (y * 0) by ring.
      apply Qmult_le_l; [exact Hy|exact L]. }
    assert (M' : y * (q - inject_Z (int q)) < y).
    { setoid_replace y with (y * 1) at 2 by ring.
      apply Qmult_lt_l; [exact Hy|exact G]. }
    repeat split.
    + apply Qlt_le_trans with 0; [|exact M].
      setoid_replace 0 with (- 0) by ring.
      apply Qopp_lt_compat. exact Hy.
    + exact M'.
    + intros _. exact M.
    + intros X'. assert (E0 : x == 0) by (apply Qle_antisym; assumption).
      assert (Q0 : q == 0).
      { rewrite Ex in E0. apply Qmult_integral in E0.
        destruct E0 as [E0|E0]; [contradiction|exact E0]. }
      assert (I0 : inject_Z (int q) == 0).
      { apply Qle_antisym.
        - apply Qle_trans with q; [exact A|]. rewrite Q0. apply Qle_refl.
        - destruct (int_nonneg q Hq) as (_ & _ & P).
          unfold Qle. cbn. lia. }
      assert (Z0 : q - inject_Z (int q) == 0) by (rewrite I0, Q0; ring).
      rewrite Z0. setoid_replace (y * 0) with 0 by ring. apply Qle_refl.
Qed.

Lemma pi2_pos : 0 < 2 * math_pi.
Proof. reflexivity. Qed.

Lemma pi2_nonzero : ~ 2 * math_pi == 0.
Proof. discriminate. Qed.

End Fmod.

(** ** Pendulums *)

Section Pendulums.
Import pend.

(** X10: Degrees to radians and back, and radians to degrees and back, give
    the number started from, in exact arithmetic. *)
Theorem angle_round_trip (x : Q) :
  RadToDeg (DegToRad x) == x /\ DegToRad (RadToDeg x) == x.
Proof.
  unfold RadToDeg, DegToRad. split; field; discriminate.
Qed.

(** X11: [Step] keeps the mass, the length and the time step of a pendulum.
    It returns exactly when the mass and the length are not zero: the speed
    grows by [cos(angle) * del_t], whatever the mass (the module's [g] is
    1.0), and the new angle lies strictly inside one turn either way.
    Otherwise it raises [ZeroDivisionError] with the angle unchanged: before
    any assignment when the mass is zero, and after the speed has been
    assigned when only the length is zero. *)
Theorem Step_outcome (math_cos : Q -> Q) (p : Pend) :
  let '(p', r) := Step math_cos p in
  mass p' = mass p /\ length p' = length p /\ del_t p' = del_t p /\
  match r with
  | inr _ =>
      ~ mass p == 0 /\ ~ length p == 0 /\
      speed p' == speed p + math_cos (angle p) * del_t p /\
      - (2 * math_pi) < angle p' /\ angle p' < 2 * math_pi
  | inl e =>
      e = ZeroDivisionError /\ angle p' = angle p /\
      (mass p == 0 /\ p' = p \/
       ~ mass p == 0 /\ length p == 0 /\
       speed p' == speed p + math_cos (angle p) * del_t p)
  end.
Proof.
  unfold Step, fdiv.
  destruct (Qeq_bool (mass p) 0) eqn:Em.
  - apply Qeq_bool_iff in Em. cbn. repeat split; auto.
  - apply Qeq_bool_neq in Em. cbn [ret raise set_speed length speed del_t].
    assert (Es : speed p + mass p * math_cos (angle p) * g / mass p * del_t p
                 == speed p + math_cos (angle p) * del_t p)
      by (unfold g; field; exact Em).
    destruct (Qeq_bool (length p) 0) eqn:El.
    + apply Qeq_bool_iff in El. cbn. repeat split; auto.
    + apply Qeq_bool_neq in El. cbn [set_angle mass length del_t speed angle].
      destruct (math_fmod_bound
                  (angle p + (speed p + mass p * math_cos (angle p) * g /
                                mass p * del_t p) * del_t p / length p)
                  (2 * math_pi) pi2_pos) as (B1 & B2 & _).
      repeat split; auto.
Qed.

(** X12: [Pend.Collide] changes speeds only. When it returns, both lengths
    are not zero, the two pendulums keep their masses, lengths, angles and
    time steps, their total momentum and kinetic energy are conserved, and a
    [False] result leaves them as they were; it raises, and only
    [ZeroDivisionError], when a length is zero or the two masses add up to
    zero. *)
Theorem pend_Collide_outcome (a b : Pend) :
  match Collide a b with
  | inr (a', b', hit) =>
      ~ length a == 0 /\ ~ length b == 0 /\
      (mass a' = mass a /\ length a' = length a /\ angle a' = angle a /\
       del_t a' = del_t a) /\
      (mass b' = mass b /\ length b' = length b /\ angle b' = angle b /\
       del_t b' = del_t b) /\
      mass a' * speed a' + mass b' * speed b'
        == mass a * speed a + mass b * speed b /\
      (1 # 2) * mass a' * speed a' ^ 2 + (1 # 2) * mass b' * speed b' ^ 2
        == (1 # 2) * mass a * speed a ^ 2 + (1 # 2) * mass b * speed b ^ 2 /\
      (hit = false -> a' = a /\ b' = b)
  | inl e =>
      e = ZeroDivisionError /\
      (length a == 0 \/ length b == 0 \/ mass a + mass b == 0)
  end.
Proof.
  unfold Collide, WillCollide. cbv zeta.
  destruct (if Qltb _ _ && Qltb _ _ then _ else _) as [sa oa].
  unfold fdiv at 1.
  destruct (Qeq_bool (length a) 0) eqn:La;
    [apply Qeq_bool_iff in La; cbn; auto|apply Qeq_bool_neq in La].
  cbn [bind ret]. unfold fdiv at 1.
  destruct (Qeq_bool (length b) 0) eqn:Lb;
    [apply Qeq_bool_iff in Lb; cbn; auto|apply Qeq_bool_neq in Lb].
  cbn [bind ret].
  destruct (Qle_bool _ 0).
  - unfold Elastic, fdiv.
    destruct (Qeq_bool (mass a + mass b) 0) eqn:M;
      [apply Qeq_bool_iff in M; cbn; auto|apply Qeq_bool_neq in M].
    cbn [bind ret fst snd set_speed mass length angle del_t speed].
    repeat split; try assumption; try discriminate; field; exact M.
  - cbn [ret]. repeat split; try assumption; reflexivity.
Qed.

Lemma round_loop (t0 : round) :
  r_passes t0 = [] -> r_stdout t0 = [] ->
  exists outcome : res round,
    resolve 6 0 t0 = Some outcome /\
    match outcome with
    | inl _ => True
    | inr t => round_shape t
    end.
Proof.
  intros Hp Hs.
  unfold resolve. cbn [Nat.ltb Nat.leb Nat.add].
  repeat match goal with
  | |- context [pass ?b] =>
      let s := fresh "s" in let E := fresh "E" in
      destruct (pass b) as [?|s] eqn:E;
      [eexists; split; [reflexivity|exact I]|];
      cbn [r_pends r_stdout r_passes];
      let Z := fresh "Z" in
      destruct (Nat.eqb (s_collisions s) 0) eqn:Z;
      [apply Nat.eqb_eq in Z | apply Nat.eqb_neq in Z]
  end;
  (eexists; split; [reflexivity|]);
  unfold round_shape; cbn [r_passes r_stdout]; rewrite Hp, Hs; cbn;
  repeat split; try lia; try tauto; try congruence;
  repeat constructor; try assumption; try (intros [?|?]; [discriminate|tauto]);
  try (intros; left; reflexivity).
Qed.

Lemma pend_Collide_returns (a b : Pend) :
  (0 < mass a /\ ~ length a == 0) -> (0 < mass b /\ ~ length b == 0) ->
  exists (a' b' : Pend) (d : bool),
    Collide a b = inr (a', b', d) /\
    mass a' = mass a /\ length a' = length a /\
    mass b' = mass b /\ length b' = length b.
Proof.
  intros [Ha La] [Hb Lb]. unfold Collide, WillCollide. cbv zeta.
  destruct (if Qltb _ _ && Qltb _ _ then _ else _) as [sa oa].
  rewrite (fdiv_ok _ _ La), (fdiv_ok _ _ Lb). cbn [bind ret].
  destruct (Qle_bool _ 0).
  - assert (N : ~ mass a + mass b == 0).
    { intros E. assert (H : 0 < mass a + mass b).
      { rewrite <- (Qplus_0_l 0). apply Qplus_lt_le_compat;
          [exact Ha|apply Qlt_le_weak, Hb]. }
      rewrite E in H. apply (Qlt_irrefl 0 H). }
    rewrite pend_Elastic_eq, (Elastic_ok _ _ _ _ N). cbn. eauto 10.
  - eauto 10.
Qed.

Lemma pend_pair_step_returns (n i i2 : nat) (s : scan) :
  (i < n)%nat -> (i2 < n)%nat ->
  List.length (s_pends s) = n /\ sound_pends (s_pends s) ->
  exists s', pair_step i i2 s = inr s' /\
             List.length (s_pends s') = n /\ sound_pends (s_pends s').
Proof.
  intros Hb Hb2 [Hl Hp]. unfold pair_step, getitem.
  destruct (nth_error (s_pends s) i) as [x|] eqn:Ex;
    [|apply nth_error_None in Ex; lia].
  destruct (nth_error (s_pends s) i2) as [y|] eqn:Ey;
    [|apply nth_error_None in Ey; lia].
  unfold sound_pends in *. rewrite Forall_forall in Hp.
  pose proof (Hp x (nth_error_In _ _ Ex)) as Hx.
  pose proof (Hp y (nth_error_In _ _ Ey)) as Hy.
  destruct (pend_Collide_returns x y Hx Hy)
    as (x' & y' & d & E & Mx & Lx & My & Ly).
  cbn -[Collide list_set]. rewrite E. cbn -[list_set].
  eexists. split; [reflexivity|]. cbn [s_pends].
  rewrite !length_list_set. split; [exact Hl|].
  apply list_set_Forall; [apply list_set_Forall|].
  - apply Forall_forall. exact Hp.
  - rewrite Mx, Lx. exact Hx.
  - rewrite My, Ly. exact Hy.
Qed.

Lemma pend_pass_returns (pends : list Pend) :
  sound_pends pends ->
  exists s, pass pends = inr s /\
            List.length (s_pends s) = List.length pends /\
            sound_pends (s_pends s).
Proof.
  intros Hp. unfold pass.
  set (n := List.length pends).
  apply (for_each_ok
           (fun s => List.length (s_pends s) = n /\ sound_pends (s_pends s))).
  - intros b s Hb Hs. apply in_range in Hb.
    apply for_each_ok; [|exact Hs].
    intros b2 s' Hb2 Hs'. apply in_range in Hb2.
    apply (pend_pair_step_returns n); [lia|lia|exact Hs'].
  - split; [reflexivity|exact Hp].
Qed.

Lemma pend_resolve_returns (fuel count : nat) (t : round) :
  (5 - count < fuel)%nat -> sound_pends (r_pends t) ->
  exists t', resolve fuel count t = Some (inr t') /\
             List.length (r_pends t') = List.length (r_pends t).
Proof.
  revert count t. induction fuel as [|fuel IH]; intros count t Hf Hp;
    [lia|].
  cbn [resolve]. destruct (count <? 5)%nat eqn:Ec; [|eauto].
  apply Nat.ltb_lt in Ec.
  destruct (pend_pass_returns (r_pends t) Hp) as (s & -> & Hl & Hs).
  destruct (s_collisions s =? 0)%nat; [eauto|].
  destruct (IH (count + 1)%nat
              (mkRound (s_pends s)
                 (if (4 <? count + 1)%nat
                  then (r_stdout t ++ ["Collision failure"%string])%list
                  else r_stdout t)
                 (r_passes t ++ [s_collisions s])%list))
    as (t' & E & L); [lia|exact Hs|].
  exists t'. split; [exact E|]. cbn [r_pends] in L. congruence.
Qed.

(** A pendulum with a mass and a length other than zero steps without an
    exception and keeps both. *)
Lemma Step_returns (math_cos : Q -> Q) (p : Pend) :
  ~ mass p == 0 -> ~ length p == 0 ->
  exists p', Step math_cos p = (p', inr tt) /\
             mass p' = mass p /\ length p' = length p.
Proof.
  intros Hm Hl. unfold Step.
  rewrite (fdiv_ok _ _ Hm). cbn [set_speed length].
  rewrite (fdiv_ok _ _ Hl). eexists. split; [reflexivity|].
  split; reflexivity.
Qed.

Lemma steps_return (math_cos : Q -> Q) (pends : list Pend) :
  sound_pends pends ->
  exists stepped,
    map_res (fun p => match Step math_cos p with
                      | (_, inl e) => inl e
                      | (p', inr _) => inr p'
                      end) pends = inr stepped /\
    sound_pends stepped /\ List.length stepped = List.length pends.
Proof.
  induction 1 as [|p l [Hm Hl] Hr IH]; cbn [map_res].
  - exists []. repeat split. constructor.
  - assert (Nm : ~ mass p == 0)
      by (intros Z; rewrite Z in Hm; exact (Qlt_irrefl 0 Hm)).
    destruct (Step_returns math_cos p Nm Hl) as (p' & -> & Em & El).
    destruct IH as (stepped & -> & Hs & Hlen).
    eexists. split; [reflexivity|]. split.
    + constructor; [rewrite Em, El; auto|exact Hs].
    + cbn. congruence.
Qed.

(** X13: One round of the pendulum thread always ends. When it returns, the
    collision loop ran between one and five passes, stopped at the first pass
    without collisions, and printed "Collision failure" exactly when the
    fifth pass ran; it raises only when some pendulum has no positive mass or
    has length zero. *)
Theorem RunPendulums_round_shape (math_cos : Q -> Q) (pends : list Pend) :
  exists outcome : res round,
    RunPendulums_round math_cos pends = Some outcome /\
    match outcome with
    | inl _ => ~ sound_pends pends
    | inr t =>
        round_shape t /\
        (sound_pends pends -> List.length (r_pends t) = List.length pends)
    end.
Proof.
  unfold RunPendulums_round.
  destruct (map_res _ pends) as [e|stepped] eqn:Es.
  - eexists. split; [reflexivity|]. intros Hp.
    destruct (steps_return math_cos pends Hp) as (st & E & _). congruence.
  - destruct (round_loop (mkRound stepped [] [])) as (outcome & E & H);
      [reflexivity|reflexivity|].
    exists outcome. split; [exact E|].
    destruct outcome as [e|t].
    + intros Hp.
      destruct (steps_return math_cos pends Hp) as (st & E' & Hs & _).
      assert (st = stepped) by congruence. subst st.
      destruct (pend_resolve_returns 6 0 (mkRound stepped [] []))
        as (t' & E'' & _); [lia|exact Hs|congruence].
    + split; [exact H|]. intros Hp.
      destruct (steps_return math_cos pends Hp) as (st & E' & Hs & Hl).
      assert (st = stepped) by congruence. subst st.
      destruct (pend_resolve_returns 6 0 (mkRound stepped [] []))
        as (t' & E'' & L); [lia|exact Hs|].
      assert (t' = t) by congruence. subst t'. cbn in L. congruence.
Qed.

End Pendulums.

Section Decoding.
Import pend.
Variable float : string -> option Q.

Lemma split_whole (sep : ascii) (s : string) :
  char_in sep s = false -> split sep s = [s].
Proof.
  induction s as [|c t IH]; cbn; [reflexivity|].
  rewrite Ascii.eqb_sym. destruct (Ascii.eqb c sep); [discriminate|].
  cbn. intros H. rewrite (IH H). reflexivity.
Qed.

Lemma split_first (sep : ascii) (s rest : string) :
  char_in sep s = false ->
  split sep (s ++ String sep rest) = s :: split sep rest.
Proof.
  induction s as [|c t IH]; cbn.
  - rewrite Ascii.eqb_refl. reflexivity.
  - rewrite Ascii.eqb_sym. destruct (Ascii.eqb c sep); [discriminate|].
    cbn. intros H. rewrite (IH H). reflexivity.
Qed.

Lemma split_nonempty (sep : ascii) (s : string) : split sep s <> [].
Proof.
  destruct s as [|c t]; cbn; [discriminate|].
  destruct (Ascii.eqb c sep); [discriminate|].
  destruct (split sep t); discriminate.
Qed.

Lemma split_inv (sep : ascii) (s : string) :
  forall (piece : string) (rest : list string),
    split sep s = piece :: rest ->
    char_in sep piece = false /\
    match rest with
    | [] => s = piece
    | _ :: _ =>
        exists t, s = (piece ++ String sep t)%string /\ split sep t = rest
    end.
Proof.
  induction s as [|c t IH]; cbn; intros piece rest H.
  - injection H as <- <-. auto.
  - destruct (Ascii.eqb c sep) eqn:E.
    + injection H as <- <-. split; [reflexivity|].
      apply Ascii.eqb_eq in E. subst c.
      pose proof (split_nonempty sep t) as N.
      destruct (split sep t) eqn:Et; [contradiction|].
      exists t. split; [reflexivity|exact Et].
    + destruct (split sep t) as [|p r] eqn:Et;
        [exfalso; exact (split_nonempty sep t Et)|].
      injection H as <- <-.
      destruct (IH p r eq_refl) as [Hp Hr]. cbn.
      rewrite Ascii.eqb_sym in E. rewrite E, Hp. split; [reflexivity|].
      destruct r as [|r0 r].
      * congruence.
      * destruct Hr as (t' & -> & Ht'). exists t'. auto.
Qed.

Lemma decode_one_app (spec : string) (err : list string)
    (ret : list (Q * Q * string)) :
  decode_one float spec (err, ret)
  = ((err ++ fst (decode_one float spec ([], [])))%list,
     (ret ++ snd (decode_one float spec ([], [])))%list).
Proof.
  unfold decode_one.
  destruct (split "," spec) as [|b0 [|b1 [|b2 [|b3 l]]]]; cbn;
    rewrite ?app_nil_r; try reflexivity.
  destruct (float b0), (float b1); cbn; rewrite ?app_nil_r; reflexivity.
Qed.

Lemma DecodePendulums_from (specs : list string) :
  forall (err : list string) (ret : list (Q * Q * string)),
    fold_left (fun st spec => decode_one float spec st) specs (err, ret)
    = ((err ++ flat_map (fun spec => fst (DecodePendulums float [spec]))
                 specs)%list,
       (ret ++ flat_map (fun spec => snd (DecodePendulums float [spec]))
                 specs)%list).
Proof.
  induction specs as [|spec l IH]; intros err ret; cbn [fold_left flat_map].
  - rewrite !app_nil_r. reflexivity.
  - rewrite decode_one_app, IH, <- !app_assoc. reflexivity.
Qed.

(** X14: [DecodePendulums] handles every specification on its own and in
    order: each one adds either one entry to the result or one line to
    [sys.stderr], never both and never an exception; a specification
    [mass,angle,colour] whose two numbers parse is kept with its colour as
    written. *)
Theorem DecodePendulums_each (specs : list string) :
  DecodePendulums float specs
  = (flat_map (fun spec => fst (DecodePendulums float [spec])) specs,
     flat_map (fun spec => snd (DecodePendulums float [spec])) specs) /\
  (forall spec,
     List.length (fst (DecodePendulums float [spec])) +
     List.length (snd (DecodePendulums float [spec])) = 1)%nat /\
  (forall (spec colour : string) (mass angle : Q),
     DecodePendulums float [spec] = ([], [(mass, angle, colour)]) <->
     exists b0 b1 : string,
       spec = (b0 ++ String "," (b1 ++ String "," colour))%string /\
       char_in "," b0 = false /\ char_in "," b1 = false /\
       char_in "," colour = false /\
       float b0 = Some mass /\ float b1 = Some angle).
Proof.
  split; [|split].
  - unfold DecodePendulums at 1. rewrite DecodePendulums_from. reflexivity.
  - intros spec. unfold DecodePendulums, decode_one. cbn [fold_left].
    destruct (split "," spec) as [|b0 [|b1 [|b2 [|b3 l]]]]; try reflexivity.
    destruct (float b0), (float b1); reflexivity.
  - intros spec colour mass angle. split.
    + unfold DecodePendulums, decode_one. cbn [fold_left].
      destruct (split "," spec) as [|b0 [|b1 [|b2 [|b3 l]]]] eqn:Es;
        try discriminate.
      destruct (float b0) as [m0|] eqn:F0; [|destruct (float b1); discriminate].
      destruct (float b1) as [a0|] eqn:F1; [|discriminate].
      cbn. intros [= <- <- <-].
      destruct (split_inv _ _ _ _ Es) as (H0 & t & -> & Et).
      destruct (split_inv _ _ _ _ Et) as (H1 & t' & -> & Et').
      destruct (split_inv _ _ _ _ Et') as (H2 & ->).
      exists b0, b1. auto 10.
    + intros (b0 & b1 & -> & H0 & H1 & H2 & F0 & F1).
      unfold DecodePendulums, decode_one. cbn [fold_left].
      rewrite (split_first _ _ _ H0), (split_first _ _ _ H1),
        (split_whole _ _ H2), F0, F1.
      reflexivity.
Qed.

End Decoding.

(** ** Colours *)

Section Colours.
Import balls9.

Lemma Qltb_true (x y : Q) : Qltb x y = true <-> x < y.
Proof.
  unfold Qltb. rewrite negb_true_iff. split.
  - intros H. apply Qnot_le_lt. intros L. apply Qle_bool_iff in L. congruence.
  - intros H. destruct (Qle_bool y x) eqn:E; [|reflexivity].
    apply Qle_bool_iff in E. exfalso. apply (Qlt_not_le _ _ H E).
Qed.

Lemma Qltb_false (x y : Q) : Qltb x y = false <-> y <= x.
Proof.
  unfold Qltb. rewrite negb_false_iff. apply Qle_bool_iff.
Qed.

Lemma weight_bound (q : Q) : (0 <= weight q <= 255)%Z.
Proof. unfold weight. lia. Qed.

Lemma fdiv_pos (x y : Q) : 0 < y -> fdiv x y = inr (x / y).
Proof.
  intros H. apply fdiv_ok. intros E. rewrite E in H. exact (Qlt_irrefl 0 H).
Qed.

(** X15: While the three ranges of the class are positive, [UpdateColor]
    returns for every velocity and mass, leaves the ranges positive and no
    narrower, and sets the three colour weights to integers from 0 to 255. *)
Theorem UpdateColor_returns (v m : Q) (r : Ranges) (c : Colour) :
  ranges_ok r ->
  exists (r' : Ranges) (c' : Colour),
    UpdateColor v m (r, c) = ((r', c'), inr tt) /\
    ranges_ok r' /\ weights_ok c' /\ old_e c' = old_e c /\
    mom_low r' <= mom_low r /\ mom_high r <= mom_high r' /\
    e_low r' = e_low r /\ e_high r <= e_high r' /\
    e_gain_low r' <= e_gain_low r /\ e_gain_high r <= e_gain_high r'.
Proof.
  intros (Hm & He & Hg). destruct r as [el eh gh gl ml mh].
  cbn [mom_low mom_high e_low e_high e_gain_low e_gain_high] in *.
  unfold UpdateColor. cbv beta iota.
  generalize (v * m) ((1 # 2) * v * v * m). intros mom e.
  generalize (fabs (e - old_e c)). intros gain. cbv zeta.
  cbn [mom_low mom_high e_low e_high e_gain_low e_gain_high].
  destruct (Qltb mh mom) eqn:E1;
    [apply Qltb_true in E1|apply Qltb_false in E1];
    cbn [mom_low mom_high e_low e_high e_gain_low e_gain_high
         set_mom_low set_mom_high set_e_high set_e_gain_low
         set_e_gain_high];
  (destruct (Qltb mom ml) eqn:E2;
    [apply Qltb_true in E2|apply Qltb_false in E2]);
    cbn [mom_low mom_high e_low e_high e_gain_low e_gain_high
         set_mom_low set_mom_high set_e_high set_e_gain_low
         set_e_gain_high];
  (destruct (Qltb eh e) eqn:E3;
    [apply Qltb_true in E3|apply Qltb_false in E3]);
    cbn [mom_low mom_high e_low e_high e_gain_low e_gain_high
         set_mom_low set_mom_high set_e_high set_e_gain_low
         set_e_gain_high];
  (destruct (Qltb gh gain) eqn:E4;
    [apply Qltb_true in E4|apply Qltb_false in E4]);
    cbn [mom_low mom_high e_low e_high e_gain_low e_gain_high
         set_mom_low set_mom_high set_e_high set_e_gain_low
         set_e_gain_high];
  (destruct (Qltb gain gl) eqn:E5;
    [apply Qltb_true in E5|apply Qltb_false in E5]);
    cbn [mom_low mom_high e_low e_high e_gain_low e_gain_high
         set_mom_low set_mom_high set_e_high set_e_gain_low
         set_e_gain_high];
  try (exfalso; lra).
  all: do 3 (rewrite fdiv_pos by lra; cbv iota beta);
  (eexists _, _; split; [reflexivity|]);
  unfold ranges_ok, weights_ok;
  cbn [mom_low mom_high e_low e_high e_gain_low e_gain_high
       set_mom_low set_mom_high set_e_high set_e_gain_low set_e_gain_high
       mom_n e_n e_gain_n old_e set_mom_n set_e_n set_e_gain_n];
  repeat split; try apply weight_bound; try reflexivity; try lra.
Qed.

Lemma UpdateColor_returns_witness :
  ranges_ok class_ranges /\
  exists (r' : Ranges) (c' : Colour),
    UpdateColor (3 # 100) 20 (class_ranges, mkColour 0 127 127 127)
      = ((r', c'), inr tt) /\
    ranges_ok r' /\ weights_ok c' /\ old_e c' = 0 /\
    mom_low r' <= mom_low class_ranges /\
    mom_high class_ranges <= mom_high r' /\
    e_low r' = e_low class_ranges /\ e_high class_ranges <= e_high r' /\
    e_gain_low r' <= e_gain_low class_ranges /\
    e_gain_high class_ranges <= e_gain_high r'.
Proof.
  assert (H : ranges_ok class_ranges) by (repeat split; reflexivity).
  split; [exact H|].
  apply (UpdateColor_returns (3 # 100) 20 class_ranges
           (mkColour 0 127 127 127) H).
Defined.

Lemma replace_char_app (a b : ascii) (s t : string) :
  replace_char a b (s ++ t) = (replace_char a b s ++ replace_char a b t)%string.
Proof. induction s as [|c s IH]; cbn; [reflexivity|now rewrite IH]. Qed.

Lemma format_2x_pair (n : Z) :
  (0 <= n <= 255)%Z -> replace_char " " "0" (format_2x n) = hex_pair n.
Proof.
  intros H.
  assert (A : forallb (fun k => String.eqb
                         (replace_char " " "0" (format_2x (Z.of_nat k)))
                         (hex_pair (Z.of_nat k))) (seq 0 256) = true)
    by (vm_compute; reflexivity).
  rewrite forallb_forall in A.
  specialize (A (Z.to_nat n)). rewrite Z2Nat.id in A by lia.
  apply String.eqb_eq, A, in_seq. lia.
Qed.

Lemma rgb_pairs (r g b : Z) :
  (0 <= r <= 255)%Z -> (0 <= g <= 255)%Z -> (0 <= b <= 255)%Z ->
  rgb r g b = String "#" (hex_pair r ++ hex_pair g ++ hex_pair b).
Proof.
  intros Hr Hg Hb. unfold rgb. cbn [replace_char].
  rewrite !replace_char_app, !format_2x_pair by assumption.
  reflexivity.
Qed.

Lemma hex_digit_inj (a b : nat) :
  (a < 16)%nat -> (b < 16)%nat -> hex_digit a = hex_digit b -> a = b.
Proof.
  intros Ha Hb.
  do 16 (destruct a as [|a]; [
    do 16 (destruct b as [|b]; [cbn; congruence|]); lia |]).
  lia.
Qed.

Lemma hex_pair_inj (a b : Z) :
  (0 <= a <= 255)%Z -> (0 <= b <= 255)%Z -> hex_pair a = hex_pair b -> a = b.
Proof.
  intros Ha Hb. unfold hex_pair. intros [= H1 H2].
  apply hex_digit_inj in H1; [|Z.div_mod_to_equations; lia..].
  apply hex_digit_inj in H2; [|Z.div_mod_to_equations; lia..].
  Z.div_mod_to_equations. lia.
Qed.

(** X16: For colour weights from 0 to 255, [MakeColor] is [#] followed by two
    hexadecimal digits for each weight, zero-padded, and different weights
    give different colours. *)
Theorem MakeColor_format (c : Colour) :
  weights_ok c ->
  MakeColor c
    = String "#" (hex_pair (mom_n c) ++ hex_pair (e_n c) ++
                  hex_pair (e_gain_n c)) /\
  (forall c' : Colour,
     weights_ok c' -> MakeColor c' = MakeColor c ->
     mom_n c' = mom_n c /\ e_n c' = e_n c /\ e_gain_n c' = e_gain_n c).
Proof.
  intros (H1 & H2 & H3). unfold MakeColor.
  split; [apply rgb_pairs; assumption|].
  intros c' (H1' & H2' & H3'). rewrite !rgb_pairs by assumption.
  unfold hex_pair at 1 2 4 5. cbn [String.append].
  intros [= A1 A2 B1 B2 C]. 
  repeat split; apply hex_pair_inj; try assumption; unfold hex_pair; congruence.
Qed.

Lemma MakeColor_format_witness :
  weights_ok (mkColour 0 5 255 16) /\
  MakeColor (mkColour 0 5 255 16) = "#05ff10"%string.
Proof.
  assert (H : weights_ok (mkColour 0 5 255 16)) by (repeat split; discriminate).
  split; [exact H|].
  exact (proj1 (MakeColor_format (mkColour 0 5 255 16) H)).
Defined.

End Colours.

Section Background.
Import balls9.

Lemma weight_sum (f : Colour -> Z) (l : list Colour) :
  Forall (fun c => (0 <= f c <= 255)%Z) l ->
  forall a : Z,
    (a <= fold_left (fun acc c => (acc + f c)%Z) l a
       <= a + 255 * Z.of_nat (List.length l))%Z.
Proof.
  induction 1 as [|c l Hc _ IH]; intros a; cbn [fold_left List.length].
  - lia.
  - specialize (IH (a + f c)%Z). lia.
Qed.

Lemma average_weight (f : Colour -> Z) (l : list Colour) :
  l <> [] -> Forall (fun c => (0 <= f c <= 255)%Z) l ->
  (0 <= fold_left (fun acc c => (acc + f c)%Z) l 0
        / Z.of_nat (List.length l) <= 255)%Z.
Proof.
  intros Hne Hf. pose proof (weight_sum f l Hf 0) as B.
  assert (P : (0 < Z.of_nat (List.length l))%Z)
    by (destruct l; [congruence|cbn; lia]).
  split.
  - apply Z.div_pos; lia.
  - apply Z.div_le_upper_bound; lia.
Qed.

(** X17: For balls whose colour weights are integers from 0 to 255, the
    background colour that [UpdatePositions] sets after a collision is [#]
    followed by two hexadecimal digits for each of the three averaged
    weights, which are integers from 0 to 255 again. *)
Theorem background_format (colours : list Colour) :
  colours <> [] -> Forall weights_ok colours ->
  exists r g b : Z,
    background colours
      = inr (String "#" (hex_pair r ++ hex_pair g ++ hex_pair b)) /\
    (0 <= r <= 255)%Z /\ (0 <= g <= 255)%Z /\ (0 <= b <= 255)%Z.
Proof.
  intros Hne Hw. unfold background.
  replace (Z.of_nat (List.length colours) =? 0)%Z with false
    by (symmetry; apply Z.eqb_neq; destruct colours;
        [congruence|cbn; lia]).
  assert (Hr := average_weight mom_n colours Hne
                  ltac:(eapply Forall_impl; [|exact Hw]; intros x H; apply H)).
  assert (Hg := average_weight e_n colours Hne
                  ltac:(eapply Forall_impl; [|exact Hw]; intros x H; apply H)).
  assert (Hb := average_weight e_gain_n colours Hne
                  ltac:(eapply Forall_impl; [|exact Hw]; intros x H; apply H)).
  eexists _, _, _. split; [|split; [exact Hr|split; [exact Hg|exact Hb]]].
  unfold ret. f_equal. apply rgb_pairs; assumption.
Qed.

Lemma background_format_witness :
  [mkColour 0 10 200 0; mkColour 0 21 100 255] <> [] /\
  Forall weights_ok [mkColour 0 10 200 0; mkColour 0 21 100 255] /\
  exists r g b : Z,
    background [mkColour 0 10 200 0; mkColour 0 21 100 255]
      = inr (String "#" (hex_pair r ++ hex_pair g ++ hex_pair b)) /\
    (0 <= r <= 255)%Z /\ (0 <= g <= 255)%Z /\ (0 <= b <= 255)%Z.
Proof.
  assert (N : [mkColour 0 10 200 0; mkColour 0 21 100 255] <> [])
    by discriminate.
  assert (H : Forall weights_ok
                [mkColour 0 10 200 0; mkColour 0 21 100 255])
    by (repeat constructor; cbn; lia).
  split; [exact N|]. split; [exact H|].
  exact (background_format [mkColour 0 10 200 0; mkColour 0 21 100 255] N H).
Defined.

End Background.

(** ** One tick of the balls *)

Section Tick.
Import balls9.

Lemma for_each_inv {A S : Type} (I : S -> Prop) (l : list A)
    (f : A -> S -> res S) :
  (forall a s s', In a l -> I s -> f a s = inr s' -> I s') ->
  forall s s', I s -> for_each l f s = inr s' -> I s'.
Proof.
  induction l as [|a l IH]; intros Hf s s' Hs; cbn [for_each].
  - intros [= <-]. exact Hs.
  - destruct (f a s) as [e|s1] eqn:E; [discriminate|].
    apply IH; [|exact (Hf a s s1 (or_introl eq_refl) Hs E)].
    intros a' x x' Hin. apply Hf. right. exact Hin.
Qed.

Lemma nth_error_list_set_other {A : Type} (l : list A) (i j : nat) (x : A) :
  i <> j -> nth_error (list_set l i x) j = nth_error l j.
Proof.
  revert i j. induction l as [|h t IH]; intros [|i] [|j] H; cbn; auto;
    try congruence.
Qed.

Lemma map_list_set_same {A B : Type} (f : A -> B) (l : list A) (i : nat)
    (x x' : A) :
  nth_error l i = Some x -> f x' = f x ->
  map f (list_set l i x') = map f l.
Proof.
  revert i. induction l as [|h t IH]; intros [|i]; cbn; try discriminate.
  - intros [= ->] ->. reflexivity.
  - intros H E. now rewrite (IH i H E).
Qed.

(** The sum of [f] over the balls. *)
Lemma total_list_set (f : Ball -> Q) (l : list Ball) (i : nat) (x x' : Ball) :
  nth_error l i = Some x ->
  fold_right (fun b acc => f b + acc) 0 (list_set l i x')
  == fold_right (fun b acc => f b + acc) 0 l - f x + f x'.
Proof.
  revert i. induction l as [|h t IH]; intros [|i]; cbn; try discriminate.
  - intros [= ->]. ring.
  - intros H. rewrite (IH i H). ring.
Qed.

Lemma Collide_frame (a b a' b' : Ball) (d : option (nat * nat)) :
  Collide a b = inr (a', b', d) ->
  (m a' = m a /\ angle a' = angle a /\ ball_ind a' = ball_ind a) /\
  (m b' = m b /\ angle b' = angle b /\ ball_ind b' = ball_ind b) /\
  m a' * v a' + m b' * v b' == m a * v a + m b * v b /\
  (1 # 2) * m a' * v a' ^ 2 + (1 # 2) * m b' * v b' ^ 2
    == (1 # 2) * m a * v a ^ 2 + (1 # 2) * m b * v b ^ 2 /\
  (d = None \/ d = Some (ball_ind a, ball_ind b)).
Proof.
  unfold Collide. destruct (WillCollide a b).
  - unfold Elastic, fdiv.
    destruct (Qeq_bool (m a + m b) 0) eqn:E; [discriminate|].
    apply Qeq_bool_neq in E. cbn [bind ret fst snd].
    intros [= <- <- <-]. cbn [m v angle ball_ind set_v].
    repeat split; try (right; reflexivity); field; exact E.
  - intros [= <- <- <-]. repeat split; try reflexivity.
    left; reflexivity.
Qed.

Lemma pair_step_kept (balls0 : list Ball) (b b2 : nat) (s s' : scan) :
  b <> b2 -> kept balls0 (s_balls s) -> pair_step b b2 s = inr s' ->
  kept balls0 (s_balls s').
Proof.
  intros Hne (Km & Ka & Ki & Kp & Ke). unfold pair_step, getitem.
  destruct (nth_error (s_balls s) b) as [x|] eqn:Ex; [|discriminate].
  destruct (nth_error (s_balls s) b2) as [y|] eqn:Ey; [|discriminate].
  cbn -[Collide list_set set_add].
  destruct (Collide x y) as [e|[[x' y'] d]] eqn:Ec; [discriminate|].
  destruct (Collide_frame _ _ _ _ _ Ec)
    as ((Mx & Ax & Ix) & (My & Ay & Iy) & Hp & He & _).
  assert (Ey' : nth_error (list_set (s_balls s) b x') b2 = Some y)
    by (rewrite nth_error_list_set_other by exact Hne; exact Ey).
  assert (G : kept balls0 (list_set (list_set (s_balls s) b x') b2 y')).
  { unfold kept.
    rewrite !(map_list_set_same _ _ _ _ _ Ey') by assumption.
    rewrite !(map_list_set_same _ _ _ _ _ Ex) by assumption.
    repeat split; try assumption.
    - unfold momentum in *.
      rewrite (total_list_set (fun b => m b * v b) _ _ _ _ Ey').
      rewrite (total_list_set (fun b => m b * v b) _ _ _ _ Ex).
      rewrite <- Kp.
      setoid_replace (m y' * v y') with (m x * v x + m y * v y - m x' * v x')
        by (rewrite <- Hp; ring).
      ring.
    - unfold kinetic_energy in *.
      rewrite (total_list_set (fun b => (1 # 2) * m b * v b ^ 2) _ _ _ _ Ey').
      rewrite (total_list_set (fun b => (1 # 2) * m b * v b ^ 2) _ _ _ _ Ex).
      rewrite <- Ke.
      setoid_replace ((1 # 2) * m y' * v y' ^ 2)
        with ((1 # 2) * m x * v x ^ 2 + (1 # 2) * m y * v y ^ 2
              - (1 # 2) * m x' * v x' ^ 2)
        by (rewrite <- He; ring).
      ring. }
  destruct d as [[i j]|]; cbn; intros [= <-]; exact G.
Qed.

Lemma pass_kept (balls0 balls : list Ball) (collided : list nat) (s : scan) :
  kept balls0 balls -> pass balls collided = inr s -> kept balls0 (s_balls s).
Proof.
  intros Hk. unfold pass.
  apply (for_each_inv (fun s => kept balls0 (s_balls s))); [|exact Hk].
  intros b x x' Hb Hx.
  apply (for_each_inv (fun s => kept balls0 (s_balls s))); [|exact Hx].
  intros b2 y y' Hb2 Hy. apply in_range in Hb2.
  apply pair_step_kept; [lia|exact Hy].
Qed.

Lemma resolve_kept (balls0 : list Ball) (fuel count : nat) (t t' : tick) :
  kept balls0 (t_balls t) -> resolve fuel count t = Some (inr t') ->
  kept balls0 (t_balls t').
Proof.
  revert count t. induction fuel as [|fuel IH]; intros count t Hk;
    cbn [resolve]; [discriminate|].
  destruct (count <? 5)%nat; [|intros [= <-]; exact Hk].
  destruct (pass (t_balls t) (t_collided t)) as [e|s] eqn:Ep; [discriminate|].
  pose proof (pass_kept _ _ _ _ Hk Ep) as Hs.
  destruct (s_collisions s =? 0)%nat.
  - intros [= <-]. exact Hs.
  - apply IH. exact Hs.
Qed.

Lemma moved_totals (balls : list Ball) :
  momentum (map UpdatePosition balls) = momentum balls /\
  kinetic_energy (map UpdatePosition balls) = kinetic_energy balls.
Proof.
  unfold momentum, kinetic_energy.
  induction balls as [|b l [IH1 IH2]]; [split; reflexivity|].
  cbn [map fold_right]. rewrite IH1, IH2. split; reflexivity.
Qed.

(** A tick over balls of positive mass returns, and its passes keep what
    [kept] lists of the balls that [UpdatePosition] has moved. *)
Lemma UpdatePositions_kept (balls : list Ball) :
  positive_masses balls ->
  exists t : tick,
    UpdatePositions balls = Some (inr t) /\
    kept (map UpdatePosition balls) (t_balls t).
Proof.
  intros Hp. unfold UpdatePositions.
  destruct (resolve_returns 6 0 (mkTick (map UpdatePosition balls) [] [] []))
    as (t & E); [lia| |].
  { cbn [t_balls]. unfold positive_masses in *.
    rewrite Forall_forall in *. intros b Hb.
    apply in_map_iff in Hb. destruct Hb as (b0 & <- & Hb0).
    apply (Hp b0 Hb0). }
  exists t. split; [exact E|].
  apply (resolve_kept (map UpdatePosition balls) 6 0
           (mkTick (map UpdatePosition balls) [] [] []) t);
    [repeat split; reflexivity|exact E].
Qed.

(** X18: A tick over balls of positive mass returns and conserves the total
    momentum and the total kinetic energy of the balls. *)
Theorem UpdatePositions_conserves (balls : list Ball) :
  positive_masses balls ->
  exists t : tick,
    UpdatePositions balls = Some (inr t) /\
    momentum (t_balls t) == momentum balls /\
    kinetic_energy (t_balls t) == kinetic_energy balls.
Proof.
  intros Hp.
  destruct (UpdatePositions_kept balls Hp) as (t & E & _ & _ & _ & Kp & Ke).
  destruct (moved_totals balls) as (Ep & Ee).
  exists t. split; [exact E|].
  rewrite Kp, Ke, Ep, Ee. split; reflexivity.
Qed.

Lemma UpdatePositions_conserves_witness :
  positive_masses crowded_balls /\
  exists t : tick,
    UpdatePositions crowded_balls = Some (inr t) /\
    momentum (t_balls t) == momentum crowded_balls /\
    kinetic_energy (t_balls t) == kinetic_energy crowded_balls.
Proof.
  assert (H : positive_masses crowded_balls)
    by (repeat constructor).
  split; [exact H|]. apply (UpdatePositions_conserves crowded_balls H).
Defined.

Lemma UpdatePosition_in_circle (b : Ball) :
  in_circle (angle (UpdatePosition b)).
Proof.
  cbn [UpdatePosition set_angle angle].
  destruct (math_fmod_bound (angle b + v b) (2 * math_pi) pi2_pos)
    as (H1 & H2 & _).
  split; assumption.
Qed.

(** X19: A tick over balls of positive mass moves every ball once, by its own
    velocity, and after that changes velocities only: the balls keep their
    number, order, masses and indices, every angle is the one that
    [UpdatePosition] computed, strictly inside one turn either way. *)
Theorem UpdatePositions_frame (balls : list Ball) :
  positive_masses balls ->
  exists t : tick,
    UpdatePositions balls = Some (inr t) /\
    List.length (t_balls t) = List.length balls /\
    map m (t_balls t) = map m balls /\
    map ball_ind (t_balls t) = map ball_ind balls /\
    map angle (t_balls t) = map (fun b => angle (UpdatePosition b)) balls /\
    Forall (fun b => in_circle (angle b)) (t_balls t).
Proof.
  intros Hp.
  destruct (UpdatePositions_kept balls Hp) as (t & E & Km & Ka & Ki & _).
  exists t. split; [exact E|].
  rewrite !map_map in *. cbn [UpdatePosition set_angle m ball_ind] in Km, Ki.
  split; [|split; [exact Km|split; [exact Ki|split; [exact Ka|]]]].
  - rewrite <- (length_map m), Km, length_map. reflexivity.
  - assert (F : Forall in_circle (map angle (t_balls t))).
    { rewrite Ka. apply Forall_map, Forall_forall. intros b _.
      apply UpdatePosition_in_circle. }
    rewrite Forall_map in F. exact F.
Qed.

Lemma UpdatePositions_frame_witness :
  positive_masses crowded_balls /\
  exists t : tick,
    UpdatePositions crowded_balls = Some (inr t) /\
    List.length (t_balls t) = List.length crowded_balls /\
    map m (t_balls t) = map m crowded_balls /\
    map ball_ind (t_balls t) = map ball_ind crowded_balls /\
    map angle (t_balls t)
      = map (fun b => angle (UpdatePosition b)) crowded_balls /\
    Forall (fun b => in_circle (angle b)) (t_balls t).
Proof.
  assert (H : positive_masses crowded_balls) by (repeat constructor).
  split; [exact H|]. apply (UpdatePositions_frame crowded_balls H).
Defined.

End Tick.

Section TickHits.
Import balls9.

Lemma set_add_not_nil (x : nat) (l : list nat) : set_add Nat.eq_dec x l <> [].
Proof.
  destruct l as [|y l]; cbn; [discriminate|].
  destruct (Nat.eq_dec x y); discriminate.
Qed.

Lemma pair_step_hits (inds c0 : list nat) (b b2 : nat) (s s' : scan) :
  map ball_ind (s_balls s) = inds ->
  hits_ok inds c0 s -> pair_step b b2 s = inr s' -> hits_ok inds c0 s'.
Proof.
  intros Hi (Hn & Hin & H0 & H1). unfold pair_step, getitem.
  destruct (nth_error (s_balls s) b) as [x|] eqn:Ex; [|discriminate].
  destruct (nth_error (s_balls s) b2) as [y|] eqn:Ey; [|discriminate].
  cbn -[Collide list_set set_add].
  destruct (Collide x y) as [e|[[x' y'] d]] eqn:Ec; [discriminate|].
  destruct (Collide_frame _ _ _ _ _ Ec) as (_ & _ & _ & _ & [->| ->]).
  - intros [= <-]. repeat split; assumption.
  - intros [= <-]. cbn [s_collided s_collisions].
    assert (Ix : In (ball_ind x) inds)
      by (rewrite <- Hi; apply in_map, (nth_error_In _ _ Ex)).
    assert (Iy : In (ball_ind y) inds)
      by (rewrite <- Hi; apply in_map, (nth_error_In _ _ Ey)).
    repeat split.
    + apply set_add_nodup, set_add_nodup, Hn.
    + intros i Hi'. apply set_add_iff in Hi'. destruct Hi' as [->|Hi'];
        [exact Iy|].
      apply set_add_iff in Hi'. destruct Hi' as [->|Hi']; [exact Ix|].
      apply Hin, Hi'.
    + discriminate.
    + intros _. apply set_add_not_nil.
Qed.

Lemma pass_hits (balls0 balls : list Ball) (c0 : list nat) (s : scan) :
  kept balls0 balls -> NoDup c0 -> incl c0 (map ball_ind balls0) ->
  pass balls c0 = inr s ->
  hits_ok (map ball_ind balls0) c0 s.
Proof.
  intros Hk Hn Hi. unfold pass.
  set (I := fun s => kept balls0 (s_balls s) /\
                     hits_ok (map ball_ind balls0) c0 s).
  intros E.
  enough (H : I s) by apply H.
  revert E. apply (for_each_inv I).
  - intros b x x' Hb Hx.
    apply (for_each_inv I); [|exact Hx].
    intros b2 y y' Hb2 [Hy1 Hy2] Ey. apply in_range in Hb2. split.
    + apply (pair_step_kept balls0 b b2 y y'); [lia|exact Hy1|exact Ey].
    + apply (pair_step_hits _ _ b b2 y y'); [apply Hy1|exact Hy2|exact Ey].
  - split; [exact Hk|]. repeat split; cbn; auto.
Qed.

Lemma resolve_hits (balls0 : list Ball) (fuel count : nat) (t t' : tick) :
  kept balls0 (t_balls t) -> tick_hits (map ball_ind balls0) t ->
  resolve fuel count t = Some (inr t') ->
  tick_hits (map ball_ind balls0) t'.
Proof.
  revert count t. induction fuel as [|fuel IH]; intros count t Hk Ht;
    cbn [resolve]; [discriminate|].
  destruct (count <? 5)%nat; [|intros [= <-]; exact Ht].
  destruct (pass (t_balls t) (t_collided t)) as [e|s] eqn:Ep; [discriminate|].
  pose proof (pass_kept _ _ _ _ Hk Ep) as Hs.
  destruct Ht as (Hn & Hi & Hiff).
  destruct (pass_hits _ _ _ _ Hk Hn Hi Ep) as (Sn & Si & S0 & S1).
  assert (G : tick_hits (map ball_ind balls0)
                (mkTick (s_balls s) (s_collided s)
                   (if (4 <? count + 1)%nat
                    then (t_stdout t ++ ["Collision Failure"%string])%list
                    else t_stdout t)
                   (t_passes t ++ [s_collisions s]))).
  { repeat split; cbn [t_collided t_passes]; try assumption.
    - intros E. apply Forall_app.
      destruct (Nat.eq_dec (s_collisions s) 0) as [Z|N].
      + split; [apply Hiff; rewrite <- (S0 Z); exact E|].
        repeat constructor. congruence.
      + exfalso. exact (S1 N E).
    - intros F. apply Forall_app in F. destruct F as [F1 F2].
      inversion F2 as [|? ? Z _]; subst.
      rewrite (S0 (eq_sym Z)). apply Hiff, F1. }
  destruct (s_collisions s =? 0)%nat.
  - intros [= <-]. exact G.
  - apply IH; [exact Hs|exact G].
Qed.

Lemma UpdatePositions_hits (balls : list Ball) :
  positive_masses balls ->
  exists t : tick,
    UpdatePositions balls = Some (inr t) /\
    tick_hits (map ball_ind balls) t.
Proof.
  intros Hp.
  destruct (UpdatePositions_kept balls Hp) as (t & E & _).
  exists t. split; [exact E|].
  unfold UpdatePositions in E.
  pose proof (resolve_hits (map UpdatePosition balls) 6 0
                (mkTick (map UpdatePosition balls) [] [] []) t) as H.
  rewrite map_map in H. cbn [UpdatePosition set_angle ball_ind] in H.
  apply H; [repeat split; reflexivity| |exact E].
  repeat split; cbn; auto using NoDup_nil, incl_nil_l.
Qed.

(** X20: The set that a tick over balls of positive mass returns has no index
    twice and holds only indices of balls on the track; it is empty exactly
    when the first pass finds no collision, which is when the tick ends after
    one pass. *)
Theorem UpdatePositions_collided (balls : list Ball) :
  positive_masses balls ->
  exists t : tick,
    UpdatePositions balls = Some (inr t) /\
    NoDup (t_collided t) /\
    incl (t_collided t) (map ball_ind balls) /\
    (t_collided t = [] <-> t_passes t = [O]).
Proof.
  intros Hp.
  destruct (UpdatePositions_hits balls Hp) as (t & E & Hn & Hi & Hiff).
  exists t. split; [exact E|].
  destruct (UpdatePositions_loop balls) as (outcome & E' & Hshape).
  rewrite E in E'. injection E' as <-.
  split; [exact Hn|]. split; [exact Hi|].
  rewrite Hiff. destruct Hshape as (Hlen & Hpre & _).
  split.
  - intros F. destruct (t_passes t) as [|c l] eqn:Et; [cbn in Hlen; lia|].
    destruct l as [|c' l].
    + inversion F; subst. reflexivity.
    + exfalso. cbn [removelast] in Hpre. inversion Hpre as [|? ? Hc _]; subst.
      inversion F; subst. congruence.
  - intros ->. repeat constructor.
Qed.

Lemma UpdatePositions_collided_witness :
  positive_masses crowded_balls /\
  exists t : tick,
    UpdatePositions crowded_balls = Some (inr t) /\
    NoDup (t_collided t) /\
    incl (t_collided t) (map ball_ind crowded_balls) /\
    (t_collided t = [] <-> t_passes t = [O]).
Proof.
  assert (H : positive_masses crowded_balls) by (repeat constructor).
  split; [exact H|]. apply (UpdatePositions_collided crowded_balls H).
Defined.

End TickHits.

(** ** The synthesis engine, further *)

Section EngineLevels.
Import tune tune.Tones Engine.

Lemma firstn_repeat {A : Type} (x : A) (n k : nat) :
  (n <= k)%nat -> firstn n (repeat x k) = repeat x n.
Proof.
  revert k. induction n as [|n IH]; intros [|k] H; cbn; try lia; auto.
  f_equal. apply IH. lia.
Qed.

Lemma sum_repeat (x : Q) (n : nat) :
  fold_right Qplus 0 (repeat x n) == float_of_nat n * x.
Proof.
  induction n as [|n IH]; cbn [repeat fold_right].
  - unfold float_of_nat. cbn. ring.
  - rewrite IH. unfold float_of_nat. rewrite Nat2Z.inj_succ, <- Z.add_1_r.
    rewrite inject_Z_plus. ring.
Qed.

(** X21: Over exact arithmetic, in every state of the engine the amplitudes
    of the sustained oscillators that sound add up to the number of notes
    times 6000 over the bank size, which lies between 0 and the total
    amplitude 6000.  (On doubles each quotient is rounded, so that their sum
    may pass 6000 by a rounding error.) *)
Theorem chord_level_bound {libm : Libm} (s : Tones) :
  reachable s ->
  chord_level s ==
    float_of_nat (n_notes s) * (6000 / float_of_nat (List.length (amps s))) /\
  0 <= chord_level s /\ chord_level s <= 6000.
Proof.
  intros Hr. apply reachable_consistent in Hr.
  destruct Hr as ((_ & _ & _ & Hn) & _ & (Hpos & Hamps)).
  assert (Hsum : chord_level s ==
                 float_of_nat (n_notes s)
                 * (6000 / float_of_nat (List.length (amps s)))).
  { unfold chord_level. rewrite Hamps at 1.
    rewrite firstn_repeat by exact Hn. apply sum_repeat. }
  split; [exact Hsum|]. rewrite Hsum.
  set (L := List.length (amps s)) in *.
  assert (PL : 0 < float_of_nat L).
  { unfold float_of_nat, Qlt. cbn. lia. }
  assert (Pn : 0 <= float_of_nat (n_notes s)).
  { unfold float_of_nat, Qle. cbn. lia. }
  assert (Hle : float_of_nat (n_notes s) <= float_of_nat L).
  { unfold float_of_nat. rewrite <- Zle_Qle. lia. }
  assert (E : float_of_nat (n_notes s) * (6000 / float_of_nat L)
              == float_of_nat (n_notes s) * 6000 / float_of_nat L).
  { field. intros Z. rewrite Z in PL. exact (Qlt_irrefl 0 PL). }
  rewrite E. split.
  - apply Qle_shift_div_l; [exact PL|]. lra.
  - apply Qle_shift_div_r; [exact PL|]. lra.
Qed.

Lemma chord_level_bound_witness :
  reachable (libm := sample_libm) sounding /\
  chord_level sounding ==
    float_of_nat (n_notes sounding)
    * (6000 / float_of_nat (List.length (amps sounding))) /\
  0 <= chord_level sounding /\ chord_level sounding <= 6000.
Proof.
  assert (R : reachable (libm := sample_libm) sounding)
    by (repeat (apply reachable_after; [|exact I]); apply reachable_init).
  split; [exact R|].
  apply (chord_level_bound (libm := sample_libm) sounding R).
Defined.

(** The triad of [sounding] plays on the bank of four slots that the
    constructor made: three amplitudes of 1500. *)
Example chord_level_sounding :
  n_notes sounding = 3%nat /\ List.length (amps sounding) = 4%nat /\
  chord_level sounding == 4500.
Proof. repeat split; vm_compute; reflexivity. Qed.

End EngineLevels.

Section EnginePhases.
Import tune tune.Tones Engine.







Context {libm : Libm}.











End EnginePhases.

Section EnginePhasesStated.
Import tune tune.Tones Engine.



End EnginePhasesStated.

Section Pinging.
Import tune tune.Tones Engine.

Lemma Ping_eq (i : nat) (s : Tones) :
  ping_bank_ok s -> (i < List.length (ping_amps s))%nat ->
  Ping i None s = (rearmed i s, inr tt).
Proof.
  intros (Ha & _ & Hi & _) Hlt.
  assert (L1 : (i <? List.length (ping_amps s))%nat = true)
    by (apply Nat.ltb_lt; exact Hlt).
  assert (L2 : (i <? List.length (ping_inds s))%nat = true)
    by (rewrite Hi; exact L1).
  assert (L3 : (i <? List.length (ping_args s))%nat = true)
    by (rewrite Ha; exact L1).
  unfold Ping, write, mbind, mret, get, lift, modify, setitem.
  cbn -[Nat.ltb]. rewrite L1. cbn -[Nat.ltb]. rewrite L2. cbn -[Nat.ltb].
  rewrite L3. reflexivity.
Qed.

Lemma Ping_out_of_range (i : nat) (s : Tones) :
  (List.length (ping_amps s) <= i)%nat ->
  Ping i None s = (s, inl IndexError).
Proof.
  intros Hge. unfold Ping, write, mbind, mret, get, lift, modify, setitem.
  cbn -[Nat.ltb]. replace (i <? List.length (ping_amps s))%nat with false
    by (symmetry; apply Nat.ltb_ge; exact Hge).
  reflexivity.
Qed.

Lemma rearmed_bank (i : nat) (s : Tones) :
  ping_bank_ok s ->
  ping_bank_ok (rearmed i s) /\
  List.length (ping_amps (rearmed i s)) = List.length (ping_amps s).
Proof.
  unfold ping_bank_ok, rearmed. cbn. rewrite !length_list_set. tauto.
Qed.

Lemma list_set_swap {A : Type} (l : list A) (i j : nat) (x y : A) :
  i <> j ->
  list_set (list_set l i x) j y = list_set (list_set l j y) i x.
Proof.
  revert i j. induction l as [|h t IH]; intros [|i] [|j] H; cbn;
    try reflexivity; try congruence.
  f_equal. apply IH. congruence.
Qed.

Lemma list_set_twice {A : Type} (l : list A) (i : nat) (x y : A) :
  list_set (list_set l i x) i y = list_set l i y.
Proof.
  revert i. induction l as [|h t IH]; intros [|i]; cbn; try reflexivity.
  f_equal. apply IH.
Qed.

Lemma rearmed_swap (i j : nat) (s : Tones) :
  rearmed j (rearmed i s) = rearmed i (rearmed j s).
Proof.
  destruct (Nat.eq_dec i j) as [->|N]; [reflexivity|].
  unfold rearmed. cbn.
  rewrite (list_set_swap (ping_args s) i j) by exact N.
  rewrite (list_set_swap (ping_inds s) i j) by exact N.
  rewrite (list_set_swap (ping_amps s) i j) by exact N.
  reflexivity.
Qed.

Lemma Pings_eq (l : list nat) :
  forall s : Tones,
    ping_bank_ok s ->
    Forall (fun i => (i < List.length (ping_amps s))%nat) l ->
    for_in l (fun i (_ : unit) => Ping i None) tt s
    = (fold_left (fun s i => rearmed i s) l s, inr tt).
Proof.
  induction l as [|i l IH]; intros s Hb Hl; cbn [for_in fold_left].
  - reflexivity.
  - inversion Hl as [|? ? Hi Hl']; subst.
    unfold mbind. rewrite (Ping_eq i s Hb Hi).
    destruct (rearmed_bank i s Hb) as [Hb' Hlen].
    apply IH; [exact Hb'|]. rewrite Hlen. exact Hl'.
Qed.

Lemma rearmed_order (l l' : list nat) :
  Permutation l l' ->
  forall s, fold_left (fun s i => rearmed i s) l s
            = fold_left (fun s i => rearmed i s) l' s.
Proof.
  induction 1 as [|i l l' _ IH|i j l|l l' l'' _ IH1 _ IH2]; intros s;
    cbn [fold_left].
  - reflexivity.
  - apply IH.
  - rewrite rearmed_swap. reflexivity.
  - rewrite IH1. apply IH2.
Qed.

(** X23: Pings of slots of the bank can be made in any order: each one
    returns, and two orders of the same indices leave the engine in the same
    state. *)
Theorem Pings_any_order (l l' : list nat) (s : Tones) :
  ping_bank_ok s ->
  Forall (fun i => (i < List.length (ping_amps s))%nat) l ->
  Permutation l l' ->
  exists s' : Tones,
    for_in l (fun i (_ : unit) => Ping i None) tt s = (s', inr tt) /\
    for_in l' (fun i (_ : unit) => Ping i None) tt s = (s', inr tt).
Proof.
  intros Hb Hl Hp. eexists. split; [apply Pings_eq; assumption|].
  rewrite Pings_eq; [|exact Hb|eapply Permutation_Forall; eassumption].
  rewrite (rearmed_order l l' Hp). reflexivity.
Qed.

Lemma Pings_any_order_witness :
  ping_bank_ok (fst (init 22050)) /\
  Forall (fun i => (i < List.length (ping_amps (fst (init 22050))))%nat)
    [2; 0; 5]%nat /\
  Permutation [2; 0; 5]%nat [0; 5; 2]%nat /\
  exists s' : Tones,
    for_in [2; 0; 5]%nat (fun i (_ : unit) => Ping i None) tt
      (fst (init 22050)) = (s', inr tt) /\
    for_in [0; 5; 2]%nat (fun i (_ : unit) => Ping i None) tt
      (fst (init 22050)) = (s', inr tt).
Proof.
  assert (B : ping_bank_ok (fst (init 22050)))
    by (repeat split; cbn; lia).
  assert (F : Forall
                (fun i => (i < List.length (ping_amps (fst (init 22050))))%nat)
                [2; 0; 5]%nat)
    by (repeat constructor; cbn; lia).
  assert (P : Permutation [2; 0; 5]%nat [0; 5; 2]%nat).
  { apply perm_trans with [0; 2; 5]%nat; [apply perm_swap|].
    apply perm_skip, perm_swap. }
  split; [exact B|]. split; [exact F|]. split; [exact P|].
  apply (Pings_any_order [2; 0; 5]%nat [0; 5; 2]%nat (fst (init 22050)) B F P).
Defined.

End Pinging.

Section EngineReturns.
Import tune tune.Tones Engine.
Context {libm : Libm}.

Ltac banks :=
  unfold consistent, chord_bank_ok, ping_bank_ok, level in *; cbn in *;
  rewrite ?length_list_set, ?repeat_length in *;
  intuition (try lia; try congruence).


Lemma nth_error_list_set_same {A : Type} (l : list A) (i : nat) (x : A) :
  (i < List.length l)%nat -> nth_error (list_set l i x) i = Some x.
Proof.
  revert i. induction l as [|h t IH]; intros [|i] H; cbn in *; try lia; auto.
  apply IH. lia.
Qed.



End EngineReturns.

Section Detune.
Import tune tune.Tones Engine.



End Detune.

(** ** Driving the synthesizer from the track *)

Section Driving.
Import tune Engine.


Lemma set_tone_gen_same (s : Music.Music) :
  Music.set_tone_gen (Music.tone_gen s) s = s.
Proof. now destruct s. Qed.

Lemma on_tone_gen_for_in {A : Type} (body : A -> M Tones.Tones unit)
    (l : list A) :
  forall (s : Music.Music) (t : Tones.Tones) (r : res unit),
    for_in l (fun a (_ : unit) => body a) tt (Music.tone_gen s) = (t, r) ->
    for_in l (fun a (_ : unit) => Music.on_tone_gen (body a)) tt s
    = (Music.set_tone_gen t s, r).
Proof.
  induction l as [|a l IH]; intros s t r; cbn [for_in].
  - unfold mret. intros [= <- <-]. now rewrite set_tone_gen_same.
  - unfold mbind. unfold Music.on_tone_gen at 1.
    destruct (body a (Music.tone_gen s)) as [t1 [e|[]]].
    + intros [= <- <-]. reflexivity.
    + intros E.
      rewrite (IH (Music.set_tone_gen t1 s) t r E). reflexivity.
Qed.

(** X25: With the balls numbered by their place on the track and a ping bank
    with a slot for each of them, [Increment] returns: the tick returns, and
    every ball that collided is pinged without an [IndexError]. The order in
    which the set of hit balls is gone through does not matter: every order
    leaves the synthesizer in the same state. *)
Theorem Increment_returns (balls : list balls9.Ball) (music : Music.Music) :
  positive_masses balls ->
  map balls9.ball_ind balls = seq 0 (List.length balls) ->
  ping_bank_ok (Music.tone_gen music) ->
  (List.length balls
   <= List.length (Tones.ping_amps (Music.tone_gen music)))%nat ->
  exists (t : balls9.tick) (music' : Music.Music),
    balls9.UpdatePositions balls = Some (inr t) /\
    Orbits.Increment balls music = Some (music', inr t) /\
    forall order : list nat,
      Permutation (balls9.t_collided t) order ->
      for_in order (fun ball_ind (_ : unit) => Music.Ping ball_ind) tt music
      = (music', inr tt).
Proof.
  intros Hp Hind Hb Hlen.
  destruct (UpdatePositions_hits balls Hp) as (t & E & _ & Hincl & _).
  set (bank := List.length (Tones.ping_amps (Music.tone_gen music))) in *.
  assert (F : Forall (fun i => (i < bank)%nat) (balls9.t_collided t)).
  { apply Forall_forall. intros i Hi. apply Hincl in Hi.
    rewrite Hind in Hi. apply in_seq in Hi. lia. }
  exists t,
    (Music.set_tone_gen
       (fold_left (fun s i => rearmed i s) (balls9.t_collided t)
          (Music.tone_gen music)) music).
  split; [exact E|]. split.
  - unfold Orbits.Increment. rewrite E. unfold mbind, Music.Ping.
    rewrite (on_tone_gen_for_in (fun i => Tones.Ping i None) _ music _ _
               (Pings_eq _ _ Hb F)).
    reflexivity.
  - intros order Hperm. unfold Music.Ping.
    apply (on_tone_gen_for_in (fun i => Tones.Ping i None)).
    rewrite Pings_eq; [|exact Hb|eapply Permutation_Forall; eassumption].
    rewrite (rearmed_order _ _ Hperm). reflexivity.
Qed.

Lemma Increment_returns_witness :
  positive_masses crowded_balls /\
  map balls9.ball_ind crowded_balls = seq 0 (List.length crowded_balls) /\
  ping_bank_ok (Music.tone_gen sample_music) /\
  (List.length crowded_balls
   <= List.length (Tones.ping_amps (Music.tone_gen sample_music)))%nat /\
  exists (t : balls9.tick) (music' : Music.Music),
    balls9.UpdatePositions crowded_balls = Some (inr t) /\
    Orbits.Increment crowded_balls sample_music = Some (music', inr t) /\
    forall order : list nat,
      Permutation (balls9.t_collided t) order ->
      for_in order (fun ball_ind (_ : unit) => Music.Ping ball_ind) tt
        sample_music
      = (music', inr tt).
Proof.
  assert (H1 : positive_masses crowded_balls) by (repeat constructor).
  assert (H2 : map balls9.ball_ind crowded_balls
               = seq 0 (List.length crowded_balls)) by reflexivity.
  assert (H3 : ping_bank_ok (Music.tone_gen sample_music))
    by (repeat split; cbn; lia).
  assert (H4 : (List.length crowded_balls
                <= List.length
                     (Tones.ping_amps (Music.tone_gen sample_music)))%nat)
    by (cbn; lia).
  split; [exact H1|]. split; [exact H2|]. split; [exact H3|].
  split; [exact H4|].
  apply (Increment_returns crowded_balls sample_music H1 H2 H3 H4).
Defined.







End Driving.

Section EmptyChord.
Import tune.

(** X28: On a chord without notes [MakeChordCompatiblePingNotes] does not
    return: the [while] loop adds no ping, so its test stays true however
    many rounds are allowed. *)
Theorem MakeChordCompatiblePingNotes_empty_chord {libm : Libm}
    (random_random : nat -> Q) (chord_ind n_pings : nat) (s : Music.Music) :
  nth_error (Music.chords s) chord_ind = Some (Some []) ->
  Music.MakeChordCompatiblePingNotes random_random chord_ind n_pings s = None
  /\ forall fuel : nat, Music.ping_loop fuel [] n_pings 0 1 [] = None.
Proof.
  intros H. split; [|intros fuel; apply ping_loop_empty].
  unfold Music.MakeChordCompatiblePingNotes, getitem. rewrite H. cbn [ret].
  unfold Music.ChordCompatiblePingNotes. now rewrite ping_loop_empty.
Qed.

Lemma MakeChordCompatiblePingNotes_empty_chord_witness :
  nth_error (Music.chords (Music.set_chords [Some []] sample_music)) 0
    = Some (Some []) /\
  Music.MakeChordCompatiblePingNotes (libm := sample_libm) (fun _ => 1 # 2)
    0 5 (Music.set_chords [Some []] sample_music) = None /\
  forall fuel : nat, Music.ping_loop fuel [] 5 0 1 [] = None.
Proof.
  split; [reflexivity|].
  apply (MakeChordCompatiblePingNotes_empty_chord (libm := sample_libm)
           (fun _ => 1 # 2) 0 5 (Music.set_chords [Some []] sample_music)).
  reflexivity.
Defined.

End EmptyChord.

(** * The synthesis engine on doubles with their range *)

(** ** Arithmetic within the range *)

Section DoubleFacts.
Import Range.

Lemma max_double_pos : 0 < max_double.
Proof. reflexivity. Qed.

Lemma half_range_le : half_range + half_range <= max_double.
Proof. apply Qle_bool_iff. vm_compute. reflexivity. Qed.

Lemma half_range_pos : 0 < half_range.
Proof. reflexivity. Qed.

Lemma overflow_finite (q : Q) :
  Qabs q <= max_double -> overflow q = finite q.
Proof.
  intros H. unfold overflow, Qltb.
  destruct (Qle_bool overflow_bound (Qabs q)) eqn:E; [|reflexivity].
  apply Qle_bool_iff in E. exfalso.
  assert (B : max_double < overflow_bound) by reflexivity. lra.
Qed.

Lemma within_le (b b' : Q) (x : double) :
  within b x -> b <= b' -> within b' x.
Proof.
  intros (q & -> & H) Hb. exists q. split; [reflexivity|].
  apply Qle_trans with b; assumption.
Qed.

Lemma within_magnitude (x : double) : is_finite x -> within (magnitude x) x.
Proof. intros (q & ->). exists q. split; [reflexivity|apply Qle_refl]. Qed.

Lemma within_nonneg (b : Q) (x : double) : within b x -> 0 <= b.
Proof.
  intros (q & _ & H).
  apply Qle_trans with (Qabs q); [apply Qabs_nonneg|exact H].
Qed.

Lemma magnitude_nonneg (x : double) : 0 <= magnitude x.
Proof. destruct x; cbn; [apply Qabs_nonneg|apply Qle_refl|apply Qle_refl]. Qed.

Lemma total_nonneg (l : list double) : 0 <= total l.
Proof.
  induction l as [|x l IH]; [apply Qle_refl|].
  change (0 <= magnitude x + total l).
  pose proof (magnitude_nonneg x). lra.
Qed.

Lemma dadd_within (a b : Q) (x y : double) :
  within a x -> within b y -> a + b <= max_double ->
  within (a + b) (dadd x y).
Proof.
  intros (p & -> & Hp) (q & -> & Hq) H. cbn [dadd].
  assert (T : Qabs (p + q) <= a + b).
  { apply Qle_trans with (Qabs p + Qabs q); [apply Qabs_triangle|lra]. }
  rewrite overflow_finite by lra.
  exists (p + q). split; [reflexivity|exact T].
Qed.

Lemma dmul_within (a b : Q) (x y : double) :
  within a x -> within b y -> a * b <= max_double ->
  within (a * b) (dmul x y).
Proof.
  intros (p & -> & Hp) (q & -> & Hq) H. cbn [dmul].
  assert (T : Qabs (p * q) <= a * b).
  { rewrite Qabs_Qmult.
    pose proof (Qabs_nonneg p). pose proof (Qabs_nonneg q). nra. }
  rewrite overflow_finite by lra.
  exists (p * q). split; [reflexivity|exact T].
Qed.

End DoubleFacts.

Section RangedFacts.
Import tune tune.Ranged Range.

Lemma mbind_ret {S A B : Type} (m : M S A) (k : A -> M S B) (s s' : S)
    (a : A) :
  m s = (s', inr a) -> mbind m k s = k a s'.
Proof. intros E. unfold mbind. now rewrite E. Qed.

Lemma read_eq {A : Type} (f : Tones -> list A) (i : nat) (s : Tones)
    (x : A) :
  nth_error (f s) i = Some x -> read f i s = (s, inr x).
Proof.
  intros E. unfold read, mbind, get, lift, getitem. now rewrite E.
Qed.

Lemma write_eq {A : Type} (f : Tones -> list A)
    (set : list A -> Tones -> Tones) (i : nat) (x : A) (s : Tones) :
  (i < List.length (f s))%nat ->
  write f set i x s = (set (list_set (f s) i x) s, inr tt).
Proof.
  intros H. apply Nat.ltb_lt in H.
  unfold write, mbind, get, lift, setitem, modify. now rewrite H.
Qed.

Lemma nth_error_list_set {A : Type} (l : list A) (i j : nat) (x : A) :
  (i < List.length l)%nat ->
  nth_error (list_set l i x) j
  = if (j =? i)%nat then Some x else nth_error l j.
Proof.
  intros H. destruct (j =? i)%nat eqn:E.
  - apply Nat.eqb_eq in E. subst j. now apply nth_error_list_set_same.
  - apply Nat.eqb_neq in E. apply nth_error_list_set_other. congruence.
Qed.

Lemma active_nth {A : Type} (P : A -> Prop) (n : nat) (l : list A)
    (j : nat) :
  active P n l -> (j < n)%nat ->
  exists x : A, nth_error l j = Some x /\ P x.
Proof.
  intros [Hl Hf] Hj.
  destruct (nth_error l j) as [x|] eqn:E;
    [|apply nth_error_None in E; lia].
  exists x. split; [reflexivity|].
  rewrite Forall_forall in Hf. apply Hf.
  apply nth_error_In with j. rewrite nth_error_firstn.
  replace (j <? n)%nat with true by (symmetry; apply Nat.ltb_lt; exact Hj).
  exact E.
Qed.

Lemma firstn_list_set {A : Type} (l : list A) (n i : nat) (x : A) :
  firstn n (list_set l i x) = list_set (firstn n l) i x.
Proof.
  revert n i. induction l as [|h t IH]; intros [|n] [|i]; cbn; auto.
  now rewrite IH.
Qed.

Lemma active_list_set {A : Type} (P : A -> Prop) (n : nat) (l : list A)
    (i : nat) (x : A) :
  active P n l -> P x -> active P n (list_set l i x).
Proof.
  intros [Hl Hf] Hx. split; [now rewrite length_list_set|].
  rewrite firstn_list_set. now apply list_set_Forall.
Qed.

Lemma total_firstn_succ (l : list double) (j : nat) (x : double) :
  nth_error l j = Some x ->
  total (firstn (S j) l) == total (firstn j l) + magnitude x.
Proof.
  revert j. induction l as [|h t IH]; intros [|j] E;
    try discriminate.
  - injection E as ->. cbn. ring.
  - cbn [nth_error] in E. specialize (IH j E).
    change (magnitude h + total (firstn (S j) t)
            == magnitude h + total (firstn j t) + magnitude x).
    rewrite IH. ring.
Qed.

Lemma total_firstn_le (l : list double) (j n : nat) :
  (j <= n)%nat -> total (firstn j l) <= total (firstn n l).
Proof.
  revert j n. induction l as [|h t IH]; intros [|j] [|n] H; try lia;
    cbn [firstn]; try apply Qle_refl.
  - apply total_nonneg.
  - change (magnitude h + total (firstn j t)
            <= magnitude h + total (firstn n t)).
    specialize (IH j n ltac:(lia)). lra.
Qed.

Lemma pi2_left : dmul (finite math_pi) (finite 2) = finite (math_pi * 2).
Proof.
  cbn [dmul]. apply overflow_finite. apply Qle_bool_iff.
  vm_compute. reflexivity.
Qed.

Lemma pi2_right : dmul (finite 2) (finite math_pi) = finite (2 * math_pi).
Proof.
  cbn [dmul]. apply overflow_finite. apply Qle_bool_iff.
  vm_compute. reflexivity.
Qed.

(** [math.fmod] by a positive finite float returns on a finite float, with
    a result that is smaller than the divisor. *)
Lemma dfmod_within (x : double) (y b : Q) :
  0 < y -> y <= b -> is_finite x ->
  exists r : double, dfmod x (finite y) = inr r /\ within b r.
Proof.
  intros Hy Hb (q & ->). cbn [dfmod].
  destruct (Qeq_bool y 0) eqn:E.
  { apply Qeq_bool_iff in E. rewrite E in Hy.
    exfalso. exact (Qlt_irrefl 0 Hy). }
  eexists. split; [reflexivity|]. exists (math_fmod q y).
  split; [reflexivity|].
  destruct (math_fmod_bound q y Hy) as (L & U & _).
  apply Qabs_Qle_condition. split; lra.
Qed.

Lemma within_finite (b : Q) (x : double) : within b x -> is_finite x.
Proof. intros (q & -> & _). now exists q. Qed.

End RangedFacts.

(** ** The loops of [GeneratePingSignal] and [GetSamples] *)

Section PingRange.
Import tune tune.Ranged Range.
Context {libm : Libm}.
Hypothesis sine_bounded : forall x : Q, Qabs (math_sin x) <= 1.

Lemma dsin_within (x : double) :
  is_finite x -> exists r : double, dsin x = inr r /\ within 1 r.
Proof.
  intros (q & ->). eexists. split; [reflexivity|].
  exists (math_sin q). split; [reflexivity|apply sine_bounded].
Qed.

(** One more term [amp * sin(arg)] on a sum. *)
Lemma add_term (b a : Q) (sum amp sine : double) :
  within b sum -> within a amp -> within 1 sine -> b + a <= max_double ->
  within (b + a) (dadd sum (dmul amp sine)).
Proof.
  intros Hs Ha Hi Hb.
  pose proof (within_nonneg _ _ Hs). pose proof (within_nonneg _ _ Ha).
  apply within_le with (b + a * 1); [|lra].
  apply dadd_within; [exact Hs| |lra].
  apply dmul_within; [exact Ha|exact Hi|lra].
Qed.

(** The next phase [fmod(arg + inc, pi2)]. *)
Lemma next_phase (arg inc : double) (pi2 : Q) :
  0 < pi2 -> pi2 <= half_range ->
  within half_range arg -> within half_range inc ->
  exists r : double,
    dfmod (dadd arg inc) (finite pi2) = inr r /\ within half_range r.
Proof.
  intros Hp Hh Ha Hi. apply dfmod_within; [exact Hp|exact Hh|].
  apply within_finite with (half_range + half_range).
  apply dadd_within; [exact Ha|exact Hi|apply half_range_le].
Qed.

(** The samples of one ping, lines 348-351: on an output whose entries are
    within [b] from [lo] on and within [b + a] before, for an amplitude
    within [a]. *)
Lemma ping_samples_within (decay finc : double) (b a : Q) :
  within 1 decay -> within half_range finc -> b + a <= max_double ->
  forall (k lo : nat) (output : list double) (famp farg : double),
    (lo + k <= List.length output)%nat ->
    (forall i o, nth_error output i = Some o ->
                 within (if (i <? lo)%nat then b + a else b) o) ->
    within a famp -> within half_range farg ->
    exists (output' : list double) (famp' farg' : double),
      for_each (seq lo k) (ping_sample (finite (math_pi * 2)) decay finc)
        (output, famp, farg) = inr (output', famp', farg') /\
      List.length output' = List.length output /\
      (forall i o, nth_error output' i = Some o -> within (b + a) o) /\
      within a famp' /\ within half_range farg'.
Proof.
  intros Hd Hf Hb. induction k as [|k IH];
    intros lo output famp farg Hl Ho Ha Hg.
  - exists output, famp, farg. cbn [seq for_each].
    split; [reflexivity|]. split; [reflexivity|].
    split; [|split; assumption].
    intros i o E. specialize (Ho i o E).
    pose proof (within_nonneg _ _ Ha).
    destruct (i <? lo)%nat; [exact Ho|].
    apply within_le with b; [exact Ho|lra].
  - cbn [seq for_each]. unfold ping_sample at 1.
    destruct (nth_error output lo) as [o|] eqn:Eo;
      [|apply nth_error_None in Eo; lia].
    unfold getitem. rewrite Eo. cbn [bind ret].
    destruct (dsin_within farg (within_finite _ _ Hg)) as (sine & -> & Hs).
    cbn [bind]. unfold setitem.
    replace (lo <? List.length output)%nat with true
      by (symmetry; apply Nat.ltb_lt; lia).
    cbn [bind ret]. cbv zeta.
    destruct (next_phase farg finc (math_pi * 2)) as (farg' & -> & Hg');
      [reflexivity|apply Qle_bool_iff; vm_compute; reflexivity
      |exact Hg|exact Hf|].
    cbn [bind ret].
    assert (Ho' : within b o).
    { specialize (Ho lo o Eo). now rewrite Nat.ltb_irrefl in Ho. }
    pose proof (within_nonneg _ _ Ho') as Nb.
    pose proof (within_nonneg _ _ Ha) as Na.
    destruct (IH (S lo) (list_set output lo (dadd o (dmul famp sine)))
                (dmul famp decay) farg')
      as (output' & famp' & farg'' & E & L & W & Wa & Wg).
    + rewrite length_list_set. lia.
    + intros i x. rewrite nth_error_list_set by lia.
      destruct (i =? lo)%nat eqn:Ei.
      * apply Nat.eqb_eq in Ei. subst i. intros [= <-].
        replace (lo <? S lo)%nat with true
          by (symmetry; apply Nat.ltb_lt; lia).
        apply add_term; assumption.
      * apply Nat.eqb_neq in Ei. intros Ex. specialize (Ho i x Ex).
        destruct (i <? lo)%nat eqn:E1.
        -- apply Nat.ltb_lt in E1.
           replace (i <? S lo)%nat with true
             by (symmetry; apply Nat.ltb_lt; lia).
           exact Ho.
        -- apply Nat.ltb_ge in E1.
           replace (i <? S lo)%nat with false
             by (symmetry; apply Nat.ltb_ge; lia).
           exact Ho.
    + apply within_le with (a * 1); [|lra].
      apply dmul_within; [exact Ha|exact Hd|lra].
    + exact Hg'.
    + exists output', famp', farg''. split; [exact E|].
      split; [rewrite L; apply length_list_set|]. auto.
Qed.

End PingRange.

Section Loops.
Import tune.

(** A loop over [range(lo, lo + n)] that returns in every round, with an
    invariant that counts the rounds. *)
Lemma for_in_count {S X : Type} (J : nat -> X -> S -> Prop)
    (body : nat -> X -> M S X) (n : nat) :
  forall lo : nat,
    (forall i x s, (lo <= i < lo + n)%nat -> J i x s ->
       exists s' x', body i x s = (s', inr x') /\ J (Datatypes.S i) x' s') ->
    forall x s, J lo x s ->
      exists s' x',
        for_in (seq lo n) body x s = (s', inr x') /\ J (lo + n)%nat x' s'.
Proof.
  induction n as [|n IH]; intros lo Hb x s HJ; cbn [seq for_in].
  - exists s, x. rewrite Nat.add_0_r. split; [reflexivity|exact HJ].
  - destruct (Hb lo x s ltac:(lia) HJ) as (s1 & x1 & E1 & J1).
    unfold mbind. rewrite E1.
    destruct (IH (Datatypes.S lo)) with (x := x1) (s := s1)
      as (s2 & x2 & E2 & J2).
    + intros i y t Hi. apply Hb. lia.
    + exact J1.
    + exists s2, x2. split; [exact E2|].
      replace (lo + Datatypes.S n)%nat with (Datatypes.S lo + n)%nat by lia.
      exact J2.
Qed.

End Loops.

Section PingSignal.
Import tune tune.Ranged Range RangeLoops.
Context {libm : Libm}.
Hypothesis sine_bounded : forall x : Q, Qabs (math_sin x) <= 1.

Lemma range_seq (k : nat) : range 0 k = seq 0 k.
Proof. unfold range. now rewrite Nat.sub_0_r. Qed.

Lemma Forall_nth_error {A : Type} (P : A -> Prop) (l : list A) :
  (forall i x, nth_error l i = Some x -> P x) -> Forall P l.
Proof.
  intros H. apply Forall_forall. intros x Hx.
  destruct (In_nth_error _ _ Hx) as [i E]. exact (H i x E).
Qed.

Lemma nth_error_Forall {A : Type} (P : A -> Prop) (l : list A) (i : nat)
    (x : A) :
  Forall P l -> nth_error l i = Some x -> P x.
Proof.
  intros H E. rewrite Forall_forall in H. apply H.
  exact (nth_error_In _ _ E).
Qed.

Lemma sounded_frame (s0 s s' : Tones) (j : nat) :
  nth_error (ping_args s') j = nth_error (ping_args s) j ->
  nth_error (ping_amps s') j = nth_error (ping_amps s) j ->
  sounded s0 s j -> sounded s0 s' j.
Proof.
  intros Ea Em (x & y & y0 & Hx & Wx & Hy & Hy0 & Wy).
  exists x, y, y0. rewrite Ea, Em. auto.
Qed.

(** One ping of [GeneratePingSignal], lines 342-354. *)
Lemma ping_signal_within (s0 : Tones) (n_samp p : nat)
    (output : list double) (s : Tones) :
  pings_in_range s0 ->
  total (firstn (n_pings s0) (ping_amps s0)) <= max_double ->
  (p < n_pings s0)%nat ->
  ping_inv s0 n_samp p output s ->
  exists (s' : Tones) (output' : list double),
    ping_signal n_samp (finite (math_pi * 2)) (ping_decay s0) p output s
      = (s', inr output') /\
    ping_inv s0 n_samp (S p) output' s'.
Proof.
  intros (Hargs & Hincs & Hamps & Hinds & Hdecay) Htot Hp
         (Hc & Ei & Es & En & Ed & La & Lm & Li & Hdone & Hrest & Lo & Ho).
  pose proof (proj1 Hargs) as LA. pose proof (proj1 Hamps) as LM.
  unfold active in LA, LM.
  assert (Hmono : total (firstn p (ping_amps s0))
                  <= total (firstn (S p) (ping_amps s0)))
    by (apply total_firstn_le; lia).
  assert (Htop : total (firstn (S p) (ping_amps s0)) <= max_double).
  { apply Qle_trans with (total (firstn (n_pings s0) (ping_amps s0)));
      [apply total_firstn_le; lia|exact Htot]. }
  destruct (active_nth _ _ _ p Hincs Hp) as (finc & Efinc & Wfinc).
  destruct (active_nth _ _ _ p Hargs Hp) as (farg & Efarg & Wfarg).
  destruct (active_nth _ _ _ p Hamps Hp) as (famp & Efamp & Wfamp).
  destruct (Hrest p (Nat.le_refl p)) as [Ra Rm].
  unfold ping_signal.
  destruct (nth_error (ping_inds s) p) as [ind|] eqn:Eind;
    [|apply nth_error_None in Eind; lia].
  rewrite (mbind_ret _ _ _ _ _ (read_eq _ _ _ _ Eind)).
  unfold mbind at 1, get at 1.
  destruct (ping_samples s <=? ind)%Z.
  { exists s, output. split; [reflexivity|].
    repeat split; try assumption; try apply Hc.
    - intros j Hj. destruct (Nat.eq_dec j p) as [->|Ne];
        [|apply Hdone; lia].
      exists farg, famp, famp. rewrite Ra, Rm.
      repeat split; try assumption. apply within_magnitude. exact Wfamp.
    - apply Hrest. lia.
    - apply Hrest. lia.
    - eapply Forall_impl; [|exact Ho].
      intros o Wo. apply within_le with (1 := Wo). exact Hmono. }
  cbv zeta.
  pose proof (total_firstn_succ _ _ _ Efamp) as Esucc.
  pose proof Efamp as Efamp0.
  rewrite <- Ei in Efinc. rewrite <- Ra in Efarg. rewrite <- Rm in Efamp.
  rewrite (mbind_ret _ _ _ _ _ (read_eq _ _ _ _ Efinc)).
  rewrite (mbind_ret _ _ _ _ _ (read_eq _ _ _ _ Efarg)).
  rewrite (mbind_ret _ _ _ _ _ (read_eq _ _ _ _ Efamp)).
  set (k := Z.to_nat (Z.min (Z.of_nat n_samp) (ping_samples s - ind))).
  destruct (ping_samples_within sine_bounded (ping_decay s0) finc
              (total (firstn p (ping_amps s0))) (magnitude famp)
              Hdecay Wfinc ltac:(lra) k 0%nat output famp farg)
    as (output' & famp' & farg' & Eloop & Lo' & Wo' & Wa' & Wg').
  { subst k. lia. }
  { intros i o Eo. cbn [Nat.ltb Nat.leb].
    exact (nth_error_Forall _ _ _ _ Ho Eo). }
  { apply within_magnitude. exact Wfamp. }
  { exact Wfarg. }
  rewrite range_seq, Eloop.
  unfold mbind at 1, lift at 1. cbv iota beta.
  erewrite mbind_ret by (apply write_eq; lia).
  erewrite mbind_ret by (apply write_eq; cbn; lia).
  assert (Eind' : nth_error
            (ping_inds
               (set_ping_args (list_set (ping_args
                  (set_ping_amps (list_set (ping_amps s) p famp') s))
                  p farg')
                  (set_ping_amps (list_set (ping_amps s) p famp') s)))
            p = Some ind) by exact Eind.
  rewrite (mbind_ret _ _ _ _ _ (read_eq _ _ _ _ Eind')).
  erewrite mbind_ret by (apply write_eq; cbn; lia).
  eexists _, output'. split; [reflexivity|].
  repeat split;
    cbn [ping_args ping_amps ping_inds ping_incs ping_samples n_pings
         ping_decay args incs amps n_notes chord_is_on
         set_ping_args set_ping_amps set_ping_inds];
    rewrite ?length_list_set;
    try assumption; try apply Hc; try lia.
  - intros j Hj. destruct (Nat.eq_dec j p) as [->|Ne].
    + exists farg', famp', famp.
      cbn [ping_args ping_amps set_ping_args set_ping_amps set_ping_inds].
      rewrite !nth_error_list_set_same by lia. auto.
    + apply sounded_frame with s; [| |apply Hdone; lia];
        cbn [ping_args ping_amps set_ping_args set_ping_amps
             set_ping_inds];
        apply nth_error_list_set_other; congruence.
  - rewrite nth_error_list_set_other by lia.
    apply (proj1 (Hrest j ltac:(lia))).
  - rewrite nth_error_list_set_other by lia.
    apply (proj2 (Hrest j ltac:(lia))).
  - apply Forall_nth_error. intros i o Eo.
    apply within_le with (1 := Wo' i o Eo). lra.
Qed.

End PingSignal.

Section SamplesInRange.
Import tune tune.Ranged Range RangeLoops.
Context {libm : Libm}.
Hypothesis sine_bounded : forall x : Q, Qabs (math_sin x) <= 1.

Lemma within_zero (b : Q) : 0 <= b -> within b (finite 0).
Proof. intros H. exists 0. split; [reflexivity|exact H]. Qed.

Lemma active_of_nth {A : Type} (P : A -> Prop) (n : nat) (l : list A) :
  (n <= List.length l)%nat ->
  (forall j, (j < n)%nat -> exists x, nth_error l j = Some x /\ P x) ->
  active P n l.
Proof.
  intros Hl H. split; [exact Hl|]. apply Forall_nth_error.
  intros i x. rewrite nth_error_firstn.
  destruct (i <? n)%nat eqn:E; [|discriminate].
  apply Nat.ltb_lt in E. destruct (H i E) as (y & -> & Py).
  now intros [= <-].
Qed.

Lemma within_magnitude_le (b : Q) (x : double) :
  within b x -> magnitude x <= b.
Proof. intros (q & -> & H). exact H. Qed.

(** Amplitudes that have not grown add up to no more than before. *)
Lemma total_firstn_pointwise (l l' : list double) (n : nat) :
  (forall j, (j < n)%nat ->
     exists y y0 : double,
       nth_error l' j = Some y /\ nth_error l j = Some y0 /\
       within (magnitude y0) y) ->
  total (firstn n l') <= total (firstn n l).
Proof.
  induction n as [|n IH]; intros H; [apply Qle_refl|].
  destruct (H n (Nat.lt_succ_diag_r n)) as (y & y0 & E & E0 & W).
  rewrite (total_firstn_succ _ _ _ E), (total_firstn_succ _ _ _ E0).
  pose proof (within_magnitude_le _ _ W).
  assert (total (firstn n l') <= total (firstn n l))
    by (apply IH; intros j Hj; apply H; lia).
  lra.
Qed.

(** [GeneratePingSignal] returns in a state whose pings are in range, with
    [n_samp] floats that are within the amplitudes of the pings, added up;
    it leaves the pings in range, with amplitudes that have not grown. *)
Lemma GeneratePingSignal_within (s : Tones) (n_samp : nat) :
  pings_in_range s ->
  total (firstn (n_pings s) (ping_amps s)) <= max_double ->
  exists (s' : Tones) (output : list double),
    GeneratePingSignal n_samp s = (s', inr output) /\
    chord_kept s s' /\ List.length output = n_samp /\
    Forall (within (total (firstn (n_pings s) (ping_amps s)))) output /\
    pings_in_range s' /\ n_pings s' = n_pings s /\
    total (firstn (n_pings s) (ping_amps s'))
      <= total (firstn (n_pings s) (ping_amps s)).
Proof.
  intros Hp Htot. unfold GeneratePingSignal. cbv zeta.
  unfold mbind at 1, get at 1.
  destruct (ping_is_on s); cbn [negb].
  - unfold mbind at 1, get at 1. unfold mbind at 1, get at 1.
    rewrite pi2_left, range_seq.
    destruct (for_in_count (ping_inv s n_samp)
                (ping_signal n_samp (finite (math_pi * 2)) (ping_decay s))
                (n_pings s) 0%nat) with (x := repeat (finite 0) n_samp)
                                        (s := s)
      as (s' & output & E & J).
    + intros i x t Hi HJ.
      apply (ping_signal_within sine_bounded s n_samp i x t Hp Htot);
        [lia|exact HJ].
    + unfold ping_inv, chord_kept. rewrite repeat_length.
      repeat split; try reflexivity; try (intros j Hj; lia).
      apply Forall_forall. intros x Hx. apply repeat_spec in Hx. subst x.
      apply within_zero. apply Qle_refl.
    + exists s', output. split; [exact E|].
      destruct J as (Hc & Ei & _ & En & Ed & La & Lm & Li & Hdone & _
                     & Lo & Ho).
      destruct Hp as (Hargs & Hincs & Hamps & Hinds & Hdecay).
      cbn [Nat.add] in Hdone, Ho.
      split; [exact Hc|]. split; [exact Lo|]. split; [exact Ho|].
      split; [|split; [exact En|]].
      * unfold pings_in_range. rewrite En, Ei, Ed.
        split; [|split; [exact Hincs|split; [|split; [|exact Hdecay]]]].
        -- apply active_of_nth; [rewrite La; apply Hargs|].
           intros j Hj.
           destruct (Hdone j Hj) as (x & y & y0 & Ex & Wx & _).
           exists x. auto.
        -- apply active_of_nth; [rewrite Lm; apply Hamps|].
           intros j Hj.
           destruct (Hdone j Hj) as (x & y & y0 & _ & _ & Ey & _ & Wy).
           exists y. split; [exact Ey|]. exact (within_finite _ _ Wy).
        -- rewrite Li. exact Hinds.
      * apply total_firstn_pointwise. intros j Hj.
        destruct (Hdone j Hj) as (x & y & y0 & _ & _ & Ey & Ey0 & Wy).
        exists y, y0. auto.
  - exists s, (repeat (finite 0) n_samp). split; [reflexivity|].
    unfold chord_kept. rewrite repeat_length.
    repeat split; try reflexivity; try apply Hp; try apply Qle_refl.
    apply Forall_forall. intros x Hx. apply repeat_spec in Hx. subst x.
    apply within_zero. apply total_nonneg.
Qed.

(** One oscillator of the chord in one sample, lines 365-366. *)
Lemma chord_sample_within (s0 s1 : Tones) (b : Q) (j : nat) (sum : double)
    (s : Tones) :
  active (within half_range) (n_notes s0) (incs s0) ->
  active is_finite (n_notes s0) (amps s0) ->
  b + total (firstn (n_notes s0) (amps s0)) <= max_double ->
  (j < n_notes s0)%nat ->
  chord_inv s0 s1 s /\ within (b + total (firstn j (amps s0))) sum ->
  exists (s' : Tones) (sum' : double),
    chord_sample (finite (2 * math_pi)) j sum s = (s', inr sum') /\
    chord_inv s0 s1 s' /\
    within (b + total (firstn (S j) (amps s0))) sum'.
Proof.
  intros Hincs Hamps Htot Hj ((Ea & Ei & En & Eo & Hargs & Hk) & Hsum).
  assert (Htop : total (firstn (S j) (amps s0))
                 <= total (firstn (n_notes s0) (amps s0)))
    by (apply total_firstn_le; lia).
  destruct (active_nth _ _ _ j Hamps Hj) as (amp & Eamp & Wamp).
  destruct (active_nth _ _ _ j Hincs Hj) as (inc & Einc & Winc).
  destruct (active_nth _ _ _ j Hargs Hj) as (arg & Earg & Warg).
  pose proof (total_firstn_succ _ _ _ Eamp) as Esucc.
  rewrite <- Ea in Eamp. rewrite <- Ei in Einc.
  unfold chord_sample.
  rewrite (mbind_ret _ _ _ _ _ (read_eq _ _ _ _ Eamp)).
  rewrite (mbind_ret _ _ _ _ _ (read_eq _ _ _ _ Earg)).
  destruct (dsin_within sine_bounded arg (within_finite _ _ Warg))
    as (sine & Esine & Wsine).
  rewrite Esine. unfold mbind at 1, lift at 1. cbv zeta.
  rewrite (mbind_ret _ _ _ _ _ (read_eq _ _ _ _ Earg)).
  rewrite (mbind_ret _ _ _ _ _ (read_eq _ _ _ _ Einc)).
  destruct (next_phase arg inc (2 * math_pi)) as (arg' & Earg' & Warg');
    [reflexivity|apply Qle_bool_iff; vm_compute; reflexivity
    |exact Warg|exact Winc|].
  rewrite Earg'. unfold mbind at 1, lift at 1.
  erewrite mbind_ret
    by (apply write_eq; apply nth_error_Some; congruence).
  eexists _, _. split; [reflexivity|].
  split.
  - unfold chord_inv, pings_kept.
    cbn [args incs amps n_notes chord_is_on ping_args ping_incs ping_amps
         ping_inds ping_decay n_pings set_args].
    repeat split; try assumption; try apply Hk.
    + rewrite length_list_set. apply Hargs.
    + rewrite firstn_list_set. apply list_set_Forall; [apply Hargs|].
      exact Warg'.
  - apply within_le
      with (b + total (firstn j (amps s0)) + magnitude amp); [|lra].
    apply add_term; [exact Hsum|apply within_magnitude; exact Wamp
                    |exact Wsine|lra].
Qed.

(** One sample, lines 362-367. *)
Lemma sample_within (s0 s1 : Tones) (pings : list double) (i : nat)
    (sig : list Z) (s : Tones) :
  active (within half_range) (n_notes s0) (incs s0) ->
  active is_finite (n_notes s0) (amps s0) ->
  level s0 <= max_double ->
  Forall (within (total (firstn (n_pings s0) (ping_amps s0)))) pings ->
  (i < List.length pings)%nat -> (i < List.length sig)%nat ->
  chord_inv s0 s1 s ->
  exists (s' : Tones) (sig' : list Z),
    sample (finite (2 * math_pi)) pings i sig s = (s', inr sig') /\
    chord_inv s0 s1 s' /\ List.length sig' = List.length sig.
Proof.
  intros Hincs Hamps Hlevel Hpings Hi Hs Hinv.
  unfold level in Hlevel.
  set (b := total (firstn (n_pings s0) (ping_amps s0))) in *.
  destruct (nth_error pings i) as [sum|] eqn:Esum;
    [|apply nth_error_None in Esum; lia].
  pose proof (nth_error_Forall _ _ _ _ Hpings Esum) as Wsum.
  unfold sample. unfold getitem. rewrite Esum.
  unfold mbind at 1, lift at 1, ret at 1.
  unfold mbind at 1, get at 1.
  assert (Hchord : exists (s' : Tones) (sum' : double),
            (if chord_is_on s
             then (n_notes <- get Ranged.n_notes ;;
                   for_in (range 0 n_notes)
                     (chord_sample (finite (2 * math_pi))) sum)%M
             else mret sum) s = (s', inr sum') /\
            chord_inv s0 s1 s' /\ is_finite sum').
  { destruct (chord_is_on s).
    - unfold mbind at 1, get at 1. rewrite range_seq.
      replace (n_notes s) with (n_notes s0) by (symmetry; apply Hinv).
      destruct (for_in_count
                  (fun j sum s =>
                     chord_inv s0 s1 s /\
                     within (b + total (firstn j (amps s0))) sum)
                  (chord_sample (finite (2 * math_pi)))
                  (n_notes s0) 0%nat) with (x := sum) (s := s)
        as (s' & sum' & E & J1 & J2).
      + intros j x t Hj HJ.
        apply (chord_sample_within s0 s1 b j x t Hincs Hamps);
          [lra|lia|exact HJ].
      + split; [exact Hinv|].
        apply within_le with (1 := Wsum). cbn [firstn total fold_right].
        lra.
      + exists s', sum'. split; [exact E|]. split; [exact J1|].
        exact (within_finite _ _ J2).
    - exists s, sum. split; [reflexivity|]. split; [exact Hinv|].
      exact (within_finite _ _ Wsum). }
  destruct Hchord as (s' & sum' & E & Hinv' & (q & ->)).
  rewrite (mbind_ret _ _ _ _ _ E).
  cbn [dint]. unfold mbind at 1, lift at 1, ret at 1.
  unfold lift, setitem.
  replace (i <? List.length sig)%nat with true
    by (symmetry; apply Nat.ltb_lt; exact Hs).
  eexists _, _. split; [reflexivity|]. split; [exact Hinv'|].
  apply length_list_set.
Qed.

End SamplesInRange.

(** ** [GetSamples] in range and out of range *)

Section SamplesCount.
Import tune tune.Ranged Range RangeLoops.

(** Evaluation of the conditions of [within_range] in a given state. *)
Ltac evaluate_range :=
  lazymatch goal with
  | |- (_ <= _)%nat => apply Nat.leb_le; vm_compute; reflexivity
  | |- Forall ?P ?l =>
      let l' := eval vm_compute in l in
      change (Forall P l'); repeat constructor; evaluate_range
  | |- within ?b ?x =>
      let x' := eval vm_compute in x in
      change (within b x'); eexists; split; [reflexivity|evaluate_range]
  | |- is_finite ?x =>
      let x' := eval vm_compute in x in
      change (is_finite x'); eexists; reflexivity
  | |- _ <= _ => apply Qle_bool_iff; vm_compute; reflexivity
  end.

(** In range, [GetSamples] returns [n_samp] integers and leaves the engine
    in range. *)
Lemma GetSamples_within {libm : Libm} (s : Tones) (n_samp : nat) :
  (forall x : Q, Qabs (math_sin x) <= 1) ->
  within_range s ->
  exists (s' : Tones) (sig : list Z),
    GetSamples n_samp s = (s', inr sig) /\ List.length sig = n_samp /\
    within_range s'.
Proof.
  intros sine_bounded ((Hargs & Hincs & Hamps) & Hpings & Hlevel).
  assert (Hmax : level s <= max_double).
  { apply Qle_trans with half_range; [exact Hlevel|].
    pose proof half_range_le. pose proof half_range_pos. lra. }
  assert (Hptot : total (firstn (n_pings s) (ping_amps s)) <= max_double).
  { unfold level in Hmax.
    pose proof (total_nonneg (firstn (n_notes s) (amps s))). lra. }
  destruct (GeneratePingSignal_within sine_bounded s n_samp Hpings Hptot)
    as (s1 & pings & E1 & (Ka & Ki & Km & Kn & Ko) & Lp & Wp & Hpings1
        & En1 & Htot1).
  unfold GetSamples. cbv zeta. rewrite (mbind_ret _ _ _ _ _ E1).
  rewrite pi2_right, range_seq.
  destruct (for_in_count
              (fun (_ : nat) sig t =>
                 chord_inv s s1 t /\ List.length sig = n_samp)
              (sample (finite (2 * math_pi)) pings) n_samp 0%nat)
    with (x := repeat 0%Z n_samp) (s := s1)
    as (s' & sig & E & (Ea & Ei & En & Eo & Hargs' & Hk) & L).
  - intros i sig t Hi [Hinv Hsig].
    destruct (sample_within sine_bounded s s1 pings i sig t Hincs Hamps
                Hmax Wp)
      as (t' & sig' & Es & Hinv' & Ls); [lia|lia|exact Hinv|].
    exists t', sig'. split; [exact Es|]. split; [exact Hinv'|]. lia.
  - split; [|apply repeat_length].
    unfold chord_inv, pings_kept. rewrite Ka, Ki, Km, Kn, Ko.
    repeat split; try reflexivity; try apply Hargs.
  - exists s', sig. split; [exact E|]. split; [exact L|].
    destruct Hk as (Pa & Pi & Pm & Pd & Pe & Pn).
    unfold within_range, chord_in_range, pings_in_range, level in *.
    rewrite Ea, Ei, En, Pa, Pi, Pm, Pd, Pe, Pn.
    split; [auto|]. split; [exact Hpings1|].
    rewrite En1. lra.
Qed.

Lemma GeneratePingSignal_silent_ranged {libm : Libm} (s : Tones)
    (n_samp : nat) :
  ping_is_on s = false \/ n_pings s = O ->
  GeneratePingSignal n_samp s = (s, inr (repeat (finite 0) n_samp)).
Proof.
  unfold GeneratePingSignal, mbind, get. cbv zeta.
  destruct (ping_is_on s) eqn:Eon; cbn [negb]; [|reflexivity].
  intros [H|H]; [discriminate|]. rewrite H. reflexivity.
Qed.

Lemma samples_silent {libm : Libm} (pi2 : double) (s : Tones)
    (n_samp : nat) :
  chord_is_on s = false \/ n_notes s = O ->
  forall (k lo : nat) (sig : list Z),
    (lo + k <= n_samp)%nat -> List.length sig = n_samp ->
    exists sig' : list Z,
      for_in (seq lo k) (sample pi2 (repeat (finite 0) n_samp)) sig s
        = (s, inr sig') /\
      List.length sig' = n_samp /\
      (forall i, nth_error sig' i
                 = if ((lo <=? i) && (i <? lo + k))%nat then Some 0%Z
                   else nth_error sig i).
Proof.
  intros Hc. induction k as [|k IH]; intros lo sig Hk Hs.
  - exists sig. cbn [seq for_in]. split; [reflexivity|].
    split; [exact Hs|]. intros i.
    replace ((lo <=? i) && (i <? lo + 0))%nat with false; [reflexivity|].
    symmetry. apply andb_false_iff.
    destruct (Nat.le_gt_cases lo i);
      [right; apply Nat.ltb_ge; lia|left; apply Nat.leb_gt; lia].
  - cbn [seq for_in]. unfold mbind at 1. unfold sample at 1.
    unfold getitem. rewrite nth_error_repeat by lia.
    unfold mbind at 1, lift at 1, ret at 1.
    unfold mbind at 1, get at 1.
    assert (E : (if chord_is_on s
                 then (n_notes <- get Ranged.n_notes ;;
                       for_in (range 0 n_notes) (chord_sample pi2)
                         (finite 0))%M
                 else mret (finite 0)) s = (s, inr (finite 0))).
    { destruct (chord_is_on s); [|reflexivity].
      destruct Hc as [Hc|Hc]; [discriminate|].
      unfold mbind, get. rewrite Hc. reflexivity. }
    rewrite (mbind_ret _ _ _ _ _ E). cbn [dint].
    unfold mbind at 1, lift at 1, ret at 1. unfold lift, setitem.
    replace (lo <? List.length sig)%nat with true
      by (symmetry; apply Nat.ltb_lt; lia).
    unfold ret. change (int 0) with 0%Z.
    destruct (IH (S lo) (list_set sig lo 0%Z)) as (sig' & E' & L' & N');
      [lia|rewrite length_list_set; exact Hs|].
    exists sig'. split; [exact E'|]. split; [exact L'|].
    intros i. rewrite N'. rewrite nth_error_list_set by lia.
    destruct (Nat.eq_dec i lo) as [->|Ne].
    + rewrite Nat.eqb_refl, Nat.leb_refl.
      replace (S lo <=? lo)%nat with false
        by (symmetry; apply Nat.leb_gt; lia).
      replace (lo <? lo + S k)%nat with true
        by (symmetry; apply Nat.ltb_lt; lia).
      reflexivity.
    + replace (i =? lo)%nat with false
        by (symmetry; apply Nat.eqb_neq; exact Ne).
      replace (S lo + k)%nat with (lo + S k)%nat by lia.
      destruct (i <? lo + S k)%nat; [|now rewrite !andb_false_r].
      rewrite !andb_true_r.
      destruct (Nat.le_gt_cases (S lo) i) as [G|G].
      * replace (S lo <=? i)%nat with true
          by (symmetry; apply Nat.leb_le; lia).
        replace (lo <=? i)%nat with true
          by (symmetry; apply Nat.leb_le; lia).
        reflexivity.
      * replace (S lo <=? i)%nat with false
          by (symmetry; apply Nat.leb_gt; lia).
        replace (lo <=? i)%nat with false
          by (symmetry; apply Nat.leb_gt; lia).
        reflexivity.
Qed.

Lemma GetSamples_silent_ranged {libm : Libm} (s : Tones) (n_samp : nat) :
  silent s -> GetSamples n_samp s = (s, inr (repeat 0%Z n_samp)).
Proof.
  intros [Hp Hc]. unfold GetSamples. cbv zeta.
  rewrite (mbind_ret _ _ _ _ _ (GeneratePingSignal_silent_ranged s n_samp Hp)).
  rewrite range_seq.
  destruct (samples_silent (dmul (finite 2) (finite math_pi)) s n_samp Hc
              n_samp 0%nat (repeat 0%Z n_samp))
    as (sig & E & L & N); [lia|apply repeat_length|].
  rewrite E. do 2 f_equal.
  apply nth_error_ext. intros i. rewrite N.
  destruct ((0 <=? i) && (i <? 0 + n_samp))%nat eqn:B; [|reflexivity].
  apply andb_true_iff in B. destruct B as [_ B]. apply Nat.ltb_lt in B.
  rewrite nth_error_repeat by lia. reflexivity.
Qed.

(** C8, amended: for every count [n_samp], [GetSamples] returns a list of
    exactly [n_samp] integers in every state of the engine that is in range:
    each bank has a slot for every oscillator that sounds, the phases,
    increments and amplitudes of these oscillators are finite floats, no
    phase or increment is larger in magnitude than half the largest double,
    the decay factor of the pings is at most 1 in magnitude, and the
    amplitudes add up to at most half the largest double.  It leaves the
    engine in range, so that the next call returns as well.  In a silent
    state, in range or not, every sample is 0 and the state is left as it
    was.  The sine is any function with values between -1 and 1. *)
Theorem GetSamples_count {libm : Libm} (s : Tones) (n_samp : nat) :
  (forall x : Q, Qabs (math_sin x) <= 1) ->
  (within_range s ->
   exists (s' : Tones) (sig : list Z),
     GetSamples n_samp s = (s', inr sig) /\ List.length sig = n_samp /\
     within_range s') /\
  (silent s -> GetSamples n_samp s = (s, inr (repeat 0%Z n_samp))).
Proof.
  intros sine_bounded. split.
  - apply GetSamples_within. exact sine_bounded.
  - apply GetSamples_silent_ranged.
Qed.

Lemma square_nonneg (y : Q) : 0 <= y * y.
Proof. unfold Qle, Qmult. cbn. nia. Qed.

Lemma bounded_libm_sine (x : Q) :
  Qabs (math_sin (Libm := bounded_libm) x) <= 1.
Proof.
  cbn [math_sin bounded_libm].
  pose proof (square_nonneg x) as S0.
  pose proof (square_nonneg (x + 1)) as S1.
  pose proof (square_nonneg (x - 1)) as S2.
  assert (P : 0 < 1 + x * x) by lra.
  apply Qabs_Qle_condition. split.
  - apply Qle_shift_div_l; [exact P|]. lra.
  - apply Qle_shift_div_r; [exact P|]. lra.
Qed.

(** C8 as stated fails.  A chord of the single frequency [1e308] is
    accepted by [ChangeChord], which leaves an infinite increment, the
    product [pi2 * 1e308] being out of range; the next [GetSamples] then
    raises [ValueError], from [math.fmod] on the infinite sum of phase and
    increment. *)
Lemma GetSamples_raises :
  snd (init (finite 22050)) = inr tt /\
  snd (ChangeChord (Some [finite float_1e308]) (fst (init (finite 22050))))
    = inr tt /\
  nth_error (incs overdriven) 0 = Some (infinity false) /\
  snd (GetSamples (libm := bounded_libm) 1 overdriven) = inl ValueError.
Proof. repeat split; vm_compute; reflexivity. Qed.

Lemma ringing_in_range : within_range ringing.
Proof. repeat split; evaluate_range. Qed.

Lemma GetSamples_count_witness :
  (forall x : Q, Qabs (math_sin (Libm := bounded_libm) x) <= 1) /\
  within_range ringing /\
  exists (s' : Tones) (sig : list Z),
    GetSamples (libm := bounded_libm) 4 ringing = (s', inr sig) /\
    List.length sig = 4%nat /\ within_range s'.
Proof.
  split; [exact bounded_libm_sine|]. split; [exact ringing_in_range|].
  exact (proj1 (GetSamples_count (libm := bounded_libm) ringing 4
                  bounded_libm_sine) ringing_in_range).
Defined.

End SamplesCount.
